(** * PaSGAL: sequence-to-graph local alignment

    A shallow embedding of [src/include/align.hpp], [align_vectorized.hpp]
    and [graphLoad.hpp], and the properties of the alignment pipeline
    proved on it.

    Conventions
    - Scores are integers ([Z]).  Vertex ids, rows and columns are [nat];
      where the source mixes them with [size_t] arithmetic the wrap-around
      is written out.
    - [base_types.hpp] (the [SCORE] constants and [BestScoreInfo]) is not
      among the sources: the four constants are a parameter [sc : SCORE].
      [align.hpp] subtracts [mismatch], [ins] and [del]; the vector
      kernels of [align_vectorized.hpp] add them.  Each theorem states the
      sign conditions it needs. *)

From Stdlib Require Import ZArith Lia Ascii String DecimalString DecimalNat.
From stdpp Require Import base tactics option list numbers sets sorting.

Local Open Scope Z_scope.

(** * Part I: the embedding *)

(** ** Score constants and the reference graph *)

(** [SCORE::match], [SCORE::mismatch], [SCORE::ins], [SCORE::del]. *)
Record SCORE := {
  score_match : Z;
  score_mismatch : Z;
  score_ins : Z;
  score_del : Z
}.

(** The fields of [CSR_char_container] the kernels read: vertex count,
    one label per vertex, and the adjacency in both directions in
    compressed-sparse-row layout. *)
Record CSR_char_container := {
  numVertices : nat;
  vertex_label : list ascii;
  offsets_in : list nat;
  adjcny_in : list nat;
  offsets_out : list nat;
  adjcny_out : list nat
}.

#[global] Instance ascii_inhabited : Inhabited ascii := populate "000"%char.

(** [adjcny[m]] for [m] in [offsets[k], offsets[k+1])], in that order. *)
Definition csr_slice (offsets adjcny : list nat) (k : nat) : list nat :=
  (λ m, adjcny !!! m) <$>
    seq (offsets !!! k) (offsets !!! (k + 1)%nat - offsets !!! k)%nat.

Definition in_neighbors (g : CSR_char_container) (k : nat) : list nat :=
  csr_slice (offsets_in g) (adjcny_in g) k.

Definition out_neighbors (g : CSR_char_container) (k : nat) : list nat :=
  csr_slice (offsets_out g) (adjcny_out g) k.

(** The vertex numbering is a topological order: every in-neighbour of a
    vertex has a smaller id. *)
Definition topo_sortedb (g : CSR_char_container) : bool :=
  forallb (λ k, forallb (λ p, (p <? k)%nat) (in_neighbors g k))
          (seq 0 (numVertices g)).

Definition topo_sorted (g : CSR_char_container) : Prop :=
  ∀ k p, (k < numVertices g)%nat → p ∈ in_neighbors g k → (p < k)%nat.

(** ** Small arithmetic helpers *)

(** [(i - 1) % 2] on a [size_t] row counter: at [i = 0] the subtraction
    wraps to [2^64 - 1]. *)
Definition prev_row (i : nat) : nat :=
  Z.to_nat (((Z.of_nat i - 1) mod 2 ^ 64) mod 2).

Definition cur_row (i : nat) : nat := (i mod 2)%nat.

(** Maximum of a non-empty family given as head and tail. *)
Definition max_of (x : Z) (l : list Z) : Z := foldl Z.max x l.

(** ** [align.hpp]: the scalar pipeline *)

(** [BestScoreInfo] as [align.hpp] uses it. *)
Record BestScoreInfo := {
  score : Z;
  vid : nat;
  vertexSeqOffset : nat;
  refColumn : nat;
  qryRow : nat
}.

(** A [BestScoreInfo] before Phase 1: score 0, every position 0. *)
Definition best_init : BestScoreInfo :=
  {| score := 0; vid := 0; vertexSeqOffset := 0; refColumn := 0; qryRow := 0 |}.

(** [read[i]] on a [std::string]: the terminating NUL at [i = length]. *)
Definition char_at (read : string) (i : nat) : ascii :=
  default "000"%char (String.get i read).

(** A [std::vector<std::vector<ScoreType>>]. *)
Definition mget (m : list (list Z)) (r j : nat) : Z := (m !!! r) !!! j.

Definition mset (m : list (list Z)) (r j : nat) (x : Z) : list (list Z) :=
  <[r := <[j := x]> (m !!! r)]> m.

Definition wf_matrix (n w : nat) (m : list (list Z)) : Prop :=
  length m = n ∧ ∀ r, (r < n)%nat → length (m !!! r) = w.

Section Phase1.
Context (sc : SCORE) (g : CSR_char_container).

(** Modelled from the spec: [csr.hpp] and [graph_iter.hpp] are not among
    the sources.  With single-character vertices the forward iterator
    [graphIterFwd] visits the vertices in topological order, its global
    offset (the DP column) is the vertex id, [curChar] is the vertex
    label and [getNeighborOffsets] lists the in-neighbours. *)
Definition totalRefLength : nat := numVertices g.

Definition curChar (j : nat) : ascii := vertex_label g !!! j.

Definition getNeighborOffsets (j : nat) : list nat := in_neighbors g j.

(** [curChar == read[i] ? SCORE::match : -1 * SCORE::mismatch] *)
Definition matchScore (c r : ascii) : Z :=
  if Ascii.eqb c r then score_match sc else -1 * score_mismatch sc.

(** The value the recurrence writes to [matrix[i % 2][j]], from the
    rolling matrix as it stands. *)
Definition phase1_value (read : string) (matrix : list (list Z))
    (i j : nat) : Z :=
  let fromInsertion := mget matrix (prev_row i) j - score_ins sc in
  let preceedingOffsets := getNeighborOffsets j in
  let ms := matchScore (curChar j) (char_at read i) in
  let fromMatch :=
    foldl (λ acc k, Z.max acc (mget matrix (prev_row i) k + ms))
          ms preceedingOffsets in
  let fromDeletion :=
    foldl (λ acc k, Z.max acc (mget matrix (cur_row i) k - score_del sc))
          (-1) preceedingOffsets in
  Z.max (Z.max fromInsertion fromMatch) (Z.max fromDeletion 0).

(** One iteration of the inner loop of [alignToDAGLocal_Phase1_Score]. *)
Definition phase1_cell (read : string) (i : nat)
    (st : list (list Z) * BestScoreInfo) (j : nat)
    : list (list Z) * BestScoreInfo :=
  let '(matrix, best) := st in
  let v := phase1_value read matrix i j in
  let matrix' := mset matrix (cur_row i) j v in
  let best' :=
    if score best <? v
    then {| score := v; vid := j; vertexSeqOffset := 0;
            refColumn := j; qryRow := i |}
    else best in
  (matrix', best').

Definition phase1_row (read : string)
    (st : list (list Z) * BestScoreInfo) (i : nat) :=
  foldl (phase1_cell read i) st (seq 0 totalRefLength).

Definition phase1_init (best : BestScoreInfo) : list (list Z) * BestScoreInfo :=
  (replicate 2 (replicate totalRefLength 0), best).

Definition phase1_rows (read : string) (best : BestScoreInfo) (n : nat) :=
  foldl (phase1_row read) (phase1_init best) (seq 0 n).

Definition alignToDAGLocal_Phase1_Score (read : string)
    (best : BestScoreInfo) : BestScoreInfo :=
  (phase1_rows read best (String.length read)).2.

(** The state when the inner loop is about to process column [j] of
    row [i], and right after it has. *)
Definition phase1_before (read : string) (best : BestScoreInfo) (i j : nat) :=
  foldl (phase1_cell read i) (phase1_rows read best i) (seq 0 j).

Definition phase1_after (read : string) (best : BestScoreInfo) (i j : nat) :=
  phase1_before read best i (S j).

(** The DP cell (row [i], vertex [j]): what the kernel stores then. *)
Definition cell (read : string) (best : BestScoreInfo) (i j : nat) : Z :=
  mget (phase1_after read best i j).1 (cur_row i) j.

(** The running best score right after cell ([i], [j]). *)
Definition best_after (read : string) (best : BestScoreInfo) (i j : nat) :=
  (phase1_after read best i j).2.

End Phase1.

(** Cell [(i', j')] is scanned strictly before cell [(i, j)]: the kernel
    goes row by row, and through the columns within a row. *)
Definition scanned_before (i' j' i j : nat) : Prop :=
  (i' < i)%nat ∨ (i' = i ∧ j' < j)%nat.

(** *** The recurrence, as the specification words it *)

(** max(0, sub, max over p of up(p)+sub, max over p of row(p)-del,
    up(v)-ins), where [up] gives the cells of row r-1 (0 when r = 0) and
    [row] the cells of row r. *)
Definition sw_recurrence (sc : SCORE) (sub : Z) (preds : list nat)
    (up row : nat → Z) (v : nat) : Z :=
  max_of 0 (sub :: ((λ p, up p + sub) <$> preds)
                ++ ((λ p, row p - score_del sc) <$> preds)
                ++ [up v - score_ins sc]).

(** [sub]: match if the read character equals the label, -mismatch
    otherwise. *)
Definition sub_score (sc : SCORE) (g : CSR_char_container) (read : string)
    (r v : nat) : Z :=
  if Ascii.eqb (vertex_label g !!! v) (char_at read r)
  then score_match sc else - score_mismatch sc.

(** The cells of row r-1, or 0 above the first row. *)
Definition up_row (sc : SCORE) (g : CSR_char_container) (read : string)
    (best0 : BestScoreInfo) (i : nat) (c : nat) : Z :=
  match i with O => 0 | S i' => cell sc g read best0 i' c end.

(** *** Phase 2: the left-most vertex the traceback can need *)

(** [std::ceil(a * 1.0 / b)] for non-negative [a] and positive [b]. *)
Definition ceil_div (a b : Z) : Z := (a + b - 1) / b.

(** [read.length() + std::ceil(read.length() * 1.0 * SCORE::match / SCORE::del)] *)
Definition maxDistance (sc : SCORE) (read : string) : nat :=
  (String.length read +
   Z.to_nat (ceil_div (Z.of_nat (String.length read) * score_match sc)
                      (score_del sc)))%nat.

(** The vertices on backward paths from the frontier with at most [n]
    further edges. *)
Fixpoint reach_back (g : CSR_char_container) (frontier : list nat) (n : nat)
    : list nat :=
  match n with
  | O => frontier
  | S n' => frontier ++ reach_back g (frontier ≫= in_neighbors g) n'
  end.

(** Modelled from the spec: [csr.hpp] is not among the sources.  "The
    smallest u reachable backward from v along any path of at most
    maxHops characters", by a backward search over in-edges; the
    characters of a path are the labels of its vertices, [v] included. *)
Definition computeLeftMostReachableVertex (g : CSR_char_container)
    (v maxHops : nat) : nat :=
  foldr Nat.min v (reach_back g [v] (maxHops - 1)).

(** Modelled from the spec: [totalRefLength(u, v)], the number of columns
    from the column of [u] to the column of [v], both included. *)
Definition totalRefLength_between (u v : nat) : nat := (v - u + 1)%nat.

(** *** Phase 3: the slab recomputation *)

(** Conversion to [int8_t]. *)
Definition int8 (z : Z) : Z := (z + 128) mod 256 - 128.

(** [*std::max_element(l.begin(), l.end())]; the vector is never empty
    where the source calls it. *)
Definition max_element (l : list Z) : Z :=
  match l with [] => 0 | x :: t => max_of x t end.

Section Phase3.
Context (sc : SCORE) (g : CSR_char_container).
Context (read : string) (j0 : nat).

(** The value written to [matrix[i % 2][j]]; the iterator stands at
    column [j0 + j] and predecessors left of [j0] are skipped. *)
Definition phase3_value (matrix : list (list Z)) (i j : nat) : Z :=
  let fromInsertion := mget matrix (prev_row i) j - score_ins sc in
  let preceedingOffsets := getNeighborOffsets g (j0 + j) in
  let ms := matchScore sc (curChar g (j0 + j)) (char_at read i) in
  let fromMatch :=
    foldl (λ acc k, if (j0 <=? k)%nat
                    then Z.max acc (mget matrix (prev_row i) (k - j0) + ms)
                    else acc)
          ms preceedingOffsets in
  let fromDeletion :=
    foldl (λ acc k, if (j0 <=? k)%nat
                    then Z.max acc (mget matrix (cur_row i) (k - j0) - score_del sc)
                    else acc)
          (-1) preceedingOffsets in
  Z.max (Z.max fromInsertion fromMatch) (Z.max fromDeletion 0).

(** One iteration of the inner loop: the score, then its vertical
    difference in [completeMatrixLog]. *)
Definition phase3_cell (i : nat)
    (st : list (list Z) * list (list Z)) (j : nat)
    : list (list Z) * list (list Z) :=
  let '(matrix, completeMatrixLog) := st in
  let matrix' := mset matrix (cur_row i) j (phase3_value matrix i j) in
  let d := int8 (mget matrix' (cur_row i) j - mget matrix' (prev_row i) j) in
  (matrix', mset completeMatrixLog i j d).

Definition phase3_row (reducedWidth : nat)
    (st : list (list Z) * list (list Z)) (i : nat) :=
  foldl (phase3_cell i) st (seq 0 reducedWidth).

Definition phase3_init (reducedWidth reducedHeight : nat)
    : list (list Z) * list (list Z) :=
  (replicate 2 (replicate reducedWidth 0),
   replicate reducedHeight (replicate reducedWidth 0)).

Definition phase3_rows (reducedWidth reducedHeight n : nat) :=
  foldl (phase3_row reducedWidth) (phase3_init reducedWidth reducedHeight)
        (seq 0 n).

(** The state when the inner loop is about to process slab column [j] of
    row [i]; the slab cell (row [i], slab column [j]) as stored then. *)
Definition phase3_before (reducedWidth reducedHeight i j : nat) :=
  foldl (phase3_cell i) (phase3_rows reducedWidth reducedHeight i) (seq 0 j).

Definition slab_cell (reducedWidth reducedHeight i j : nat) : Z :=
  mget (phase3_before reducedWidth reducedHeight i (S j)).1 (cur_row i) j.

End Phase3.

(** What Phase 3 hands to Phase 4. *)
Record Phase3Result := {
  p3_j0 : nat;
  p3_reducedWidth : nat;
  finalRow : list Z;
  completeMatrixLog : list (list Z);
  bestScoreReComputed : Z
}.

(** Phase 3 for the end point [best] and the slab start [leftMostReachable].
    [finalRow] is a copy of the buffer row of the last read row. *)
Definition alignToDAGLocal_Phase3 (sc : SCORE) (g : CSR_char_container)
    (read : string) (best : BestScoreInfo) (leftMostReachable : nat)
    : Phase3Result :=
  let reducedWidth := totalRefLength_between leftMostReachable (vid best) in
  let j0 := leftMostReachable in
  let reducedHeight := (qryRow best + 1)%nat in
  let st := phase3_rows sc g read j0 reducedWidth reducedHeight reducedHeight in
  let finalRow := st.1 !!! cur_row (reducedHeight - 1) in
  {| p3_j0 := j0; p3_reducedWidth := reducedWidth;
     finalRow := finalRow; completeMatrixLog := st.2;
     bestScoreReComputed := max_element finalRow |}.

(** The two assertions that close Phase 3. *)
Definition phase3_asserts (best : BestScoreInfo) (r : Phase3Result) : bool :=
  (bestScoreReComputed r =? score best) &&
  (bestScoreReComputed r =? finalRow r !!! (refColumn best - p3_j0 r)%nat).

(** *** Notions for the properties of Phases 2 and 3 *)

(** The predecessors of slab column [j] that lie inside the slab, as slab
    columns. *)
Definition slab_preds (g : CSR_char_container) (j0 j : nat) : list nat :=
  (λ k, (k - j0)%nat) <$> filter (λ k, (j0 ≤ k)%nat) (in_neighbors g (j0 + j)).

(** Row [i] of the slab as a vector, and the row above it. *)
Definition slab_row (sc : SCORE) (g : CSR_char_container) (read : string)
    (j0 w h : nat) (i : nat) : list Z :=
  slab_cell sc g read j0 w h i <$> seq 0 w.

(** The slab cells of row r-1, or 0 above the first row. *)
Definition up_slab (sc : SCORE) (g : CSR_char_container) (read : string)
    (j0 w h : nat) (i : nat) (j : nat) : Z :=
  match i with O => 0 | S i' => slab_cell sc g read j0 w h i' j end.

(** [c] lies on a backward path from [v] with [s] edges. *)
Inductive back_path (g : CSR_char_container) (v : nat) : nat → nat → Prop :=
  | back_path_here : back_path g v 0 v
  | back_path_step s c p :
      back_path g v s c → p ∈ in_neighbors g c → back_path g v (S s) p.

Definition up_slab_row (sc : SCORE) (g : CSR_char_container) (read : string)
    (j0 w h : nat) (i : nat) : list Z :=
  up_slab sc g read j0 w h i <$> seq 0 w.

(** Backward paths again, unrolled at the start instead of the end. *)
Inductive path_from (g : CSR_char_container) : nat → nat → nat → Prop :=
  | path_from_here c : path_from g c 0 c
  | path_from_step v p s c :
      p ∈ in_neighbors g v → path_from g p s c → path_from g v (S s) c.

(** How many columns a best path into cell (i, c) can span at most:
    one per row, and one per deletion the score can pay for. *)
Definition columns_needed (sc : SCORE) (g : CSR_char_container)
    (read : string) (best0 : BestScoreInfo) (i c : nat) : Z :=
  Z.of_nat (S i)
  + (Z.of_nat (S i) * score_match sc - cell sc g read best0 i c) / score_del sc.

(** *** Phase 4: the traceback walk *)

Inductive tb_result :=
  | TB_cigar (cigar : list ascii)   (* the loop ended; the edit string so far *)
  | TB_assert_failed                (* the assertion of the insertion branch *)
  | TB_unset_position               (* a jump to a position never assigned *)
  | TB_out_of_fuel.

Section Phase4.
Context (sc : SCORE) (g : CSR_char_container).
Context (read : string) (j0 reducedWidth : nat).
Context (completeMatrixLog : list (list Z)).

(** [aboveRowScores[i] = currentRowScores[i] - completeMatrixLog[row][i]] *)
Definition aboveRow (currentRowScores : list Z) (row : nat) : list Z :=
  (λ i, currentRowScores !!! i - mget completeMatrixLog row i)
    <$> seq 0 reducedWidth.

(** The best match predecessor: value and position, the first strict
    improvement winning. *)
Definition tb_fromMatch (aboveRowScores : list Z) (ms : Z) (pos : nat)
    : Z * nat :=
  foldl (λ '(fromMatch, fromMatchPos) k,
           if (j0 <=? k)%nat && (fromMatch <? aboveRowScores !!! (k - j0)%nat + ms)
           then (aboveRowScores !!! (k - j0)%nat + ms, k)
           else (fromMatch, fromMatchPos))
        (ms, pos) (getNeighborOffsets g pos).

(** The best deletion predecessor; the position starts unassigned. *)
Definition tb_fromDeletion (currentRowScores : list Z) (pos : nat)
    : Z * option nat :=
  foldl (λ '(fromDeletion, fromDeletionPos) k,
           if (j0 <=? k)%nat
              && (fromDeletion <? currentRowScores !!! (k - j0)%nat - score_del sc)
           then (currentRowScores !!! (k - j0)%nat - score_del sc, Some k)
           else (fromDeletion, fromDeletionPos))
        (-1, None) (getNeighborOffsets g pos).

(** One pass through the body of the [while] loop.  [pos] is the global
    offset of the reverse iterator, [row] the current read row. *)
Inductive tb_step_result :=
  | TB_break (cigar : list ascii)
  | TB_continue (pos : nat) (row : Z) (currentRowScores : list Z)
                (cigar : list ascii)
  | TB_abort (r : tb_result).

Definition tb_body (pos : nat) (row : nat) (currentRowScores : list Z)
    (cigar : list ascii) : tb_step_result :=
  let col := (pos - j0)%nat in
  if currentRowScores !!! col <=? 0 then TB_break cigar else
  let aboveRowScores := aboveRow currentRowScores row in
  let fromInsertion := aboveRowScores !!! col - score_ins sc in
  let ms := matchScore sc (curChar g pos) (char_at read row) in
  let '(fromMatch, fromMatchPos) := tb_fromMatch aboveRowScores ms pos in
  let '(fromDeletion, fromDeletionPos) := tb_fromDeletion currentRowScores pos in
  if currentRowScores !!! col =? fromMatch then
    let cigar' := cigar ++ [if ms =? score_match sc then "="%char else "X"%char] in
    if (fromMatchPos =? pos)%nat then TB_break cigar'
    else TB_continue fromMatchPos (Z.of_nat row - 1) aboveRowScores cigar'
  else if currentRowScores !!! col =? fromDeletion then
    match fromDeletionPos with
    | Some k => TB_continue k (Z.of_nat row) currentRowScores (cigar ++ ["D"%char])
    | None => TB_abort TB_unset_position
    end
  else
    if currentRowScores !!! col =? fromInsertion
    then TB_continue pos (Z.of_nat row - 1) aboveRowScores (cigar ++ ["I"%char])
    else TB_abort TB_assert_failed.

(** [while (col >= 0 && row >= 0)], with [col = pos - j0] as an [int]. *)
Fixpoint tb_loop (fuel : nat) (pos : nat) (row : Z)
    (currentRowScores : list Z) (cigar : list ascii) : tb_result :=
  match fuel with
  | O => TB_out_of_fuel
  | S fuel' =>
    if (0 <=? Z.of_nat pos - Z.of_nat j0) && (0 <=? row) then
      match tb_body pos (Z.to_nat row) currentRowScores cigar with
      | TB_break cigar' => TB_cigar cigar'
      | TB_continue pos' row' cur' cigar' => tb_loop fuel' pos' row' cur' cigar'
      | TB_abort r => r
      end
    else TB_cigar cigar
  end.

End Phase4.

(** Phase 4 up to the reversal of the edit string.  The reverse iterator
    starts at the vertex of [best]; the fuel [vid + qryRow + 2] is never
    exhausted, as proved below. *)
Definition alignToDAGLocal_Phase4 (sc : SCORE) (g : CSR_char_container)
    (read : string) (best : BestScoreInfo) (r : Phase3Result) : tb_result :=
  match tb_loop sc g read (p3_j0 r) (p3_reducedWidth r) (completeMatrixLog r)
                (vid best + qryRow best + 2) (vid best)
                (Z.of_nat (qryRow best)) (finalRow r) [] with
  | TB_cigar cigar => TB_cigar (reverse cigar)
  | other => other
  end.

(** *** The CIGAR string and the whole pipeline *)

(** The score an edit operation stands for. *)
Definition op_score (sc : SCORE) (op : ascii) : Z :=
  match op with
  | "="%char => score_match sc
  | "X"%char => - score_mismatch sc
  | "I"%char => - score_ins sc
  | "D"%char => - score_del sc
  | _ => 0
  end.

(** The score of an uncompacted edit string. *)
Definition ops_score (sc : SCORE) (ops : list ascii) : Z :=
  foldr (λ op acc, op_score sc op + acc) 0 ops.

Definition is_op (c : ascii) : bool :=
  match c with
  | "="%char | "X"%char | "I"%char | "D"%char => true
  | _ => false
  end.

(** Runs of equal characters, with their lengths. *)
Fixpoint run_lengths (l : list ascii) : list (nat * ascii) :=
  match l with
  | [] => []
  | c :: t =>
    match run_lengths t with
    | (n, c') :: rest =>
      if Ascii.eqb c c' then (S n, c) :: rest else (1%nat, c) :: (n, c') :: rest
    | [] => [(1%nat, c)]
    end
  end.

(** Modelled from the spec: [utils.hpp] is not among the sources.
    [cigarCompact] "run-length encodes consecutive identical op characters
    into <count><op>", the count in decimal. *)
Definition cigarCompact (cigar : list ascii) : string :=
  string_of_list_ascii
    (run_lengths cigar ≫= λ '(n, c),
       list_ascii_of_string (NilEmpty.string_of_uint (Nat.to_uint n)) ++ [c]).

Definition digit_value (c : ascii) : option nat :=
  match c with
  | "0"%char => Some 0%nat | "1"%char => Some 1%nat | "2"%char => Some 2%nat
  | "3"%char => Some 3%nat | "4"%char => Some 4%nat | "5"%char => Some 5%nat
  | "6"%char => Some 6%nat | "7"%char => Some 7%nat | "8"%char => Some 8%nat
  | "9"%char => Some 9%nat | _ => None
  end.

(** Replaying a compacted CIGAR: digits build the count, an operation
    adds count times its score. *)
Fixpoint cigar_replay (sc : SCORE) (s : list ascii) (count : nat) (total : Z)
    : Z :=
  match s with
  | [] => total
  | c :: t =>
    match digit_value c with
    | Some d => cigar_replay sc t (10 * count + d) total
    | None => cigar_replay sc t 0 (total + Z.of_nat count * op_score sc c)
    end
  end.

(** Modelled from the spec: [utils.hpp] is not among the sources.
    [cigarScore] is the "reconstructed score" of a compacted CIGAR: match
    for each [=], -mismatch for each [X], -ins for each [I] and -del for
    each [D]. *)
Definition cigarScore (sc : SCORE) (cigar : string) : Z :=
  cigar_replay sc (list_ascii_of_string cigar) 0 0.

(** Modelled from the spec: [utils.hpp] is not among the sources.  The
    reverse complement of a nucleotide string. *)
Definition complement (c : ascii) : ascii :=
  match c with
  | "A"%char => "T"%char | "T"%char => "A"%char
  | "C"%char => "G"%char | "G"%char => "C"%char
  | _ => c
  end.

Definition reverseComplement (read : string) : string :=
  string_of_list_ascii (reverse (complement <$> list_ascii_of_string read)).

Inductive align_result :=
  | Aligned (best : BestScoreInfo) (strand : ascii) (cigar : string)
  | Phase3_assert_failed
  | Traceback_failed (r : tb_result)
  | Cigar_assert_failed.

(** Phases 2 to 4 for the read of the chosen strand and its Phase-1
    result. *)
Definition alignToDAGLocal_trace (sc : SCORE) (g : CSR_char_container)
    (read : string) (best : BestScoreInfo) (strand : ascii) : align_result :=
  let leftMostReachable :=
    computeLeftMostReachableVertex g (vid best) (maxDistance sc read) in
  let r := alignToDAGLocal_Phase3 sc g read best leftMostReachable in
  if negb (phase3_asserts best r) then Phase3_assert_failed else
  match alignToDAGLocal_Phase4 sc g read best r with
  | TB_cigar cigar =>
    let cigar := cigarCompact cigar in
    if cigarScore sc cigar =? score best
    then Aligned best strand cigar else Cigar_assert_failed
  | other => Traceback_failed other
  end.

(** The body of the loop of [alignToDAGLocal] for one read: Phase 1 on
    both strands, then the traceback on the better one. *)
Definition alignToDAGLocal (sc : SCORE) (g : CSR_char_container)
    (read : string) : align_result :=
  let read_revComp := reverseComplement read in
  let bestFwd := alignToDAGLocal_Phase1_Score sc g read best_init in
  let bestRev := alignToDAGLocal_Phase1_Score sc g read_revComp best_init in
  if score bestRev <? score bestFwd
  then alignToDAGLocal_trace sc g read bestFwd "+"%char
  else alignToDAGLocal_trace sc g read_revComp bestRev "-"%char.

(** The score of a run-length list. *)
Definition runs_score (sc : SCORE) (runs : list (nat * ascii)) : Z :=
  foldr (λ '(n, c) acc, Z.of_nat n * op_score sc c + acc) 0 runs.

(** The state of the traceback walk at the head of its loop, for the slab
    from [u] to [v0] with rows up to [q]: the current row of scores is a
    row of the slab (zeros above the first row), and the operations
    emitted so far plus the current cell give [T]. *)
Definition walk_inv (sc : SCORE) (g : CSR_char_container) (read : string)
    (u v0 q : nat) (T : Z)
    (pos : nat) (row : Z) (cur : list Z) (cigar : list ascii) : Prop :=
  (u ≤ pos ≤ v0)%nat ∧ -1 ≤ row ≤ Z.of_nat q
  ∧ cur = up_slab_row sc g read u (v0 - u + 1) (q + 1) (Z.to_nat (row + 1))
  ∧ ops_score sc cigar + cur !!! (pos - u)%nat = T
  ∧ forallb is_op cigar = true.

(** ** Building a graph from its labels and an edge list *)

(** Prefix sums [0, n0, n0+n1, ...]: the CSR offsets of rows of sizes
    [n0, n1, ...]. *)
Fixpoint csr_offsets (acc : nat) (sizes : list nat) : list nat :=
  match sizes with
  | [] => [acc]
  | n :: rest => acc :: csr_offsets (acc + n) rest
  end.

Definition graph_of_edges (labels : string) (edges : list (nat * nat))
    : CSR_char_container :=
  let n := String.length labels in
  let ins k := (filter (λ e, e.2 = k) edges).*1 in
  let outs k := (filter (λ e, e.1 = k) edges).*2 in
  {| numVertices := n;
     vertex_label := list_ascii_of_string labels;
     offsets_in := csr_offsets 0 ((λ k, length (ins k)) <$> seq 0 n);
     adjcny_in := seq 0 n ≫= ins;
     offsets_out := csr_offsets 0 ((λ k, length (outs k)) <$> seq 0 n);
     adjcny_out := seq 0 n ≫= outs |}.

(** A chain v0 -> v1 -> ... spelling [labels]. *)
Definition chain_graph (labels : string) : CSR_char_container :=
  graph_of_edges labels
    ((λ k, (k, S k)) <$> seq 0 (String.length labels - 1)).

(** match = mismatch = ins = del = 1, the penalties given as costs. *)
Definition unit_costs : SCORE :=
  {| score_match := 1; score_mismatch := 1; score_ins := 1; score_del := 1 |}.

(** ** [graphLoad.hpp]: the plain-text ingest path *)

(** Whitespace as [operator>>] on a stream skips it. *)
Definition is_space (c : ascii) : bool :=
  match c with
  | " "%char | "009"%char | "010"%char | "011"%char | "012"%char
  | "013"%char => true
  | _ => false
  end.

(** [std::istream_iterator<std::string>]: the maximal runs of
    non-whitespace characters of a line. *)
Fixpoint split_tokens (s : list ascii) (cur : list ascii)
    : list (list ascii) :=
  match s with
  | [] => match cur with [] => [] | _ => [reverse cur] end
  | c :: t =>
    if is_space c
    then match cur with
         | [] => split_tokens t []
         | _ => reverse cur :: split_tokens t []
         end
    else split_tokens t (c :: cur)
  end.

Definition tokens_of (line : string) : list (list ascii) :=
  split_tokens (list_ascii_of_string line) [].

(** The value of a run of decimal digits, and the rest. *)
Fixpoint leading_digits (s : list ascii) (acc : Z) (seen : bool)
    : option Z :=
  match s with
  | [] => if seen then Some acc else None
  | c :: t =>
    match digit_value c with
    | Some d => leading_digits t (10 * acc + Z.of_nat d) true
    | None => if seen then Some acc else None
    end
  end.

(** [std::stoi] on a token: an optional sign and the leading digits;
    [None] where it throws (no digits, or a value outside [int]). *)
Definition stoi (s : list ascii) : option Z :=
  let '(neg, ds) :=
    match s with
    | "-"%char :: r => (true, r)
    | "+"%char :: r => (false, r)
    | _ => (false, s)
    end in
  match leading_digits ds 0 false with
  | Some v =>
    let v := if neg then - v else v in
    if (- 2 ^ 31 <=? v) && (v <? 2 ^ 31) then Some v else None
  | None => None
  end.

(** Conversion to [VertexIdType], [uint32_t] by default. *)
Definition to_VertexIdType (z : Z) : nat := Z.to_nat (z mod 2 ^ 32).

(** [inputString >> totalVertices] into a [VertexIdType]: the stream
    skips white space, takes an optional sign and the digits that follow
    it, and stops at the first other character.  No digit gives 0; a
    value above the largest [uint32_t] gives that largest value; after a
    minus sign the value is negated in [uint32_t], as libstdc++ and libc++
    do in [num_get].  On a line without a token the stream leaves the
    variable as it was, which in [loadFromTxt] is uninitialised; the model
    reads 0 there. *)
Definition read_count (line : string) : nat :=
  match tokens_of line with
  | t :: _ =>
    let '(neg, ds) :=
      match t with
      | "-"%char :: r => (true, r)
      | "+"%char :: r => (false, r)
      | _ => (false, t)
      end in
    match leading_digits ds 0 false with
    | Some v =>
      if v <? 2 ^ 32
      then Z.to_nat (if neg : bool then (- v) mod 2 ^ 32 else v)
      else Z.to_nat (2 ^ 32 - 1)
    | None => 0%nat
    end
  | [] => 0%nat
  end.

Inductive load_error := Assert_failed | Stoi_throws.

(** What the loop has handed to the graph container so far: the vertex
    count, the label given to each vertex, and the edge vector. *)
Record load_state := {
  currentRow : nat;
  totalVertices : nat;
  vertexSequences : list (nat * list ascii);
  edgeVector : list (nat * nat)
}.

(** The out-neighbour tokens of a vertex line: all but the last. *)
Definition neighbor_tokens (tokens : list (list ascii)) : list (list ascii) :=
  take (length tokens - 1) tokens.

(** [edgeVector.emplace_back (currentRow - 1, stoi of the token)] for each
    neighbour token, stopping where [stoi] throws. *)
Fixpoint push_edges (from : nat) (toks : list (list ascii))
    (edges : list (nat * nat)) : load_error + list (nat * nat) :=
  match toks with
  | [] => inr edges
  | t :: rest =>
    match stoi t with
    | Some n => push_edges from rest (edges ++ [(from, to_VertexIdType n)])
    | None => inl Stoi_throws
    end
  end.

(** One pass through the [while (std::getline(infile, line))] loop. *)
Definition load_line (st : load_state) (line : string)
    : load_error + load_state :=
  if (currentRow st =? 0)%nat then
    inr {| currentRow := 1; totalVertices := read_count line;
           vertexSequences := vertexSequences st;
           edgeVector := edgeVector st |}
  else
    if (totalVertices st <? currentRow st)%nat then inl Assert_failed else
    let tokens := tokens_of line in
    match last tokens with
    | None => inl Assert_failed
    | Some label =>
      match push_edges (currentRow st - 1) (neighbor_tokens tokens)
                       (edgeVector st) with
      | inl e => inl e
      | inr edges =>
        inr {| currentRow := S (currentRow st);
               totalVertices := totalVertices st;
               vertexSequences :=
                 vertexSequences st ++ [((currentRow st - 1)%nat, label)];
               edgeVector := edges |}
      end
    end.

Fixpoint load_lines (st : load_state) (lines : list string)
    : load_error + load_state :=
  match lines with
  | [] => inr st
  | line :: rest =>
    match load_line st line with
    | inl e => inl e
    | inr st' => load_lines st' rest
    end
  end.

(** [loadFromTxt] on the lines of the file, up to the hand-over of the
    edge vector to [initEdges] and the two closing assertions. *)
Definition loadFromTxt (lines : list string) : load_error + load_state :=
  match load_lines {| currentRow := 0; totalVertices := 0;
                      vertexSequences := []; edgeVector := [] |} lines with
  | inl e => inl e
  | inr st =>
    if (0 <? totalVertices st)%nat && (0 <? length (edgeVector st))%nat
    then inr st else inl Assert_failed
  end.

(** The edges one vertex line contributes, as the source records them:
    the neighbour ids as written. *)
Definition line_edges (from : nat) (line : string) : list (nat * nat) :=
  omap (λ t, (λ n, (from, to_VertexIdType n)) <$> stoi t)
       (neighbor_tokens (tokens_of line)).

(** The reading under which neighbour ids are 1-based on the wire and
    rebased: the line of vertex [i] (line [i] of the file, the header
    being line 0) with a neighbour token of value [n] records the edge
    [(i - 1, n - 1)]. *)
Definition rebases_neighbors (lines : list string) : Prop :=
  ∀ st i line t n,
    loadFromTxt lines = inr st →
    (1 ≤ i)%nat → lines !! i = Some line →
    t ∈ neighbor_tokens (tokens_of line) → stoi t = Some n →
    ((i - 1)%nat, Z.to_nat (n - 1)) ∈ edgeVector st.

(** ** [align_vectorized.hpp]: the SIMD kernels *)

(** [#define DUMMY 'B'], and the two block sizes. *)
Definition DUMMY : ascii := "B"%char.
Definition blockWidth : nat := 8.
Definition blockHeight : nat := 16.

(** The three instances of [SimdInst]. *)
Inductive SimdType := Int8 | Int16 | Int32.

Definition lane_bits (t : SimdType) : Z :=
  match t with Int8 => 8 | Int16 => 16 | Int32 => 32 end.

(** [numSeqs = SIMD_REG_SIZE / (8 * sizeof(type))] *)
Definition numSeqs (t : SimdType) : nat :=
  match t with Int8 => 64 | Int16 => 32 | Int32 => 16 end.

(** [colValuesPerRegister] and [colRegistersCountPerBatch]. *)
Definition colValuesPerRegister : nat := 16.
Definition colRegistersCountPerBatch (t : SimdType) : nat :=
  (numSeqs t / colValuesPerRegister)%nat.

(** Two's-complement wrap-around to [bits] bits. *)
Definition wrap (bits : Z) (z : Z) : Z :=
  (z + 2 ^ (bits - 1)) mod 2 ^ bits - 2 ^ (bits - 1).

(** A character as a [char], signed on the target. *)
Definition char_code (c : ascii) : Z := wrap 8 (Z.of_N (N_of_ascii c)).

(** *** The operations a kernel is generic in

    The kernels are templates over [SIMD]; the model is generic in the
    same operations.  [vec] is a register of scores, rows or characters,
    [mask] a comparison mask, [cols] the registers of 32-bit column
    values of one batch taken together. *)
Record SimdOps := {
  vec : Type;
  mask : Type;
  cols : Type;
  vec_inhabited : Inhabited vec;
  s_lanes : nat;
  s_zero : vec;
  s_set1 : Z → vec;
  s_add : vec → vec → vec;
  s_max : vec → vec → vec;
  s_cmpeq : vec → vec → mask;
  s_blend : mask → vec → vec → vec;
  s_mask_set1 : vec → mask → Z → vec;
  s_load : list Z → nat → vec;
  m_and : mask → mask → mask;
  c_zero : cols;
  c_mask_set1_32 : cols → mask → Z → cols;
  c_cmpeq_32 : cols → Z → mask
}.

#[global] Existing Instance vec_inhabited.

(** [n] lanes computed one by one, as the instruction set describes its
    operations. *)
Definition lanes {A} (n : nat) (f : nat → A) : list A := f <$> seq 0 n.

(** Bit [i] of a mask given by its bits, lowest first; the bits past
    the end are 0. *)
Definition mask_bit (k : list bool) (i : nat) : bool := default false (k !! i).

(** [mask >> s] and [mask << s]. *)
Definition mask_shr (k : list bool) (s : nat) : list bool := drop s k.
Definition mask_shl (k : list bool) (s : nat) : list bool :=
  replicate s false ++ k.
Definition mask_or (a b : list bool) (n : nat) : list bool :=
  lanes n (λ i : nat, mask_bit a i || mask_bit b i).

(** The 512-bit instances: a register is the list of its lanes.  The
    column values fill [colRegistersCountPerBatch] registers of 16 lanes
    each; register [c] is updated under [updated >> c * 16].  In the
    comparison the 16-bit mask of register [c] is shifted left by
    [c * 16] and the shifted masks are or-ed, all as promoted [int]s of
    32 bits; the result is then converted to the mask type of the lanes,
    which for the 64-bit mask of [int8_t] repeats bit 31 in the bits 32
    to 63.  For [int8_t] the shifts of the third and fourth mask, by 32
    and 48, are as wide as [int] or wider and have no defined result in
    C++; the model gives them no bit, which is what the optimising
    compiler makes of them.  Only the reverse kernel at [int8_t] reaches
    these two cases. *)
Definition vec_ops (t : SimdType) : SimdOps :=
  let n := numSeqs t in
  let w := lane_bits t in
  {| vec := list Z;
     mask := list bool;
     cols := list (list Z);
     vec_inhabited := _;
     s_lanes := n;
     s_zero := lanes n (λ _ : nat, 0);
     s_set1 := λ x, lanes n (λ _ : nat, wrap w x);
     s_add := λ a b : list Z, lanes n (λ i : nat, wrap w (a !!! i + b !!! i));
     s_max := λ a b : list Z, lanes n (λ i : nat, Z.max (a !!! i) (b !!! i));
     s_cmpeq := λ a b : list Z, lanes n (λ i : nat, a !!! i =? b !!! i);
     s_blend := λ (k : list bool) (a b : list Z), lanes n (λ i : nat, if mask_bit k i then b !!! i else a !!! i);
     s_mask_set1 := λ (a : list Z) (k : list bool) x, lanes n (λ i : nat, if mask_bit k i then wrap w x else a !!! i);
     s_load := λ (mem : list Z) l, lanes n (λ i : nat, mem !!! (l * n + i)%nat);
     m_and := λ a b : list bool, lanes n (λ i : nat, mask_bit a i && mask_bit b i);
     c_zero := replicate (colRegistersCountPerBatch t)
                         (lanes colValuesPerRegister (λ _ : nat, 0));
     c_mask_set1_32 := λ (cs : list (list Z)) (k : list bool) x,
       lanes (colRegistersCountPerBatch t) (λ c : nat,
         lanes colValuesPerRegister
           (λ i : nat, if mask_bit (mask_shr k (c * colValuesPerRegister)) i
                       then wrap 32 x else (cs !!! c) !!! i));
     c_cmpeq_32 := λ (cs : list (list Z)) x,
       let promoted :=
         foldr (λ m acc, mask_or m acc 32) []
           (lanes (colRegistersCountPerBatch t) (λ c : nat,
              if (c * colValuesPerRegister <? 32)%nat
              then mask_shl (lanes colValuesPerRegister
                               (λ i : nat, (cs !!! c) !!! i =? wrap 32 x))
                            (c * colValuesPerRegister)
              else [])) in
       lanes n (λ i : nat,
                  mask_bit promoted (if (i <? 32)%nat then i else 31%nat))
  |}.

(** A two-dimensional buffer of registers, [buffer[r][j]]. *)
Definition bget {A} `{Inhabited A} (b : list (list A)) (r j : nat) : A :=
  (b !!! r) !!! j.

Definition bset {A} (b : list (list A)) (r j : nat) (x : A) : list (list A) :=
  <[r := <[j := x]> (b !!! r)]> b.

(** *** [computeLongHops], forward and reverse *)

(** [to_pos - from_pos >= blockWidth]: the difference of two vertex ids,
    compared as a [size_t]. *)
Definition hop_at_least_blockWidth (to_pos from_pos : nat) : bool :=
  Z.of_nat blockWidth <=? (Z.of_nat to_pos - Z.of_nat from_pos) mod 2 ^ 64.

(** [Phase1_Vectorized::computeLongHops]: over the in-edges of every
    vertex [i], mark [from_pos]. *)
Definition computeLongHops (g : CSR_char_container) : list bool :=
  foldl (λ withLongHop i,
           foldl (λ withLongHop from_pos,
                    if hop_at_least_blockWidth i from_pos
                    then <[from_pos := true]> withLongHop else withLongHop)
                 withLongHop (in_neighbors g i))
        (replicate (numVertices g) false) (seq 0 (numVertices g)).

(** [Phase1_Rev_Vectorized::computeLongHops]: the same loops, marking
    [to_pos]. *)
Definition computeLongHops_rev (g : CSR_char_container) : list bool :=
  foldl (λ withLongHop i,
           foldl (λ withLongHop from_pos,
                    if hop_at_least_blockWidth i from_pos
                    then <[i := true]> withLongHop else withLongHop)
                 withLongHop (in_neighbors g i))
        (replicate (numVertices g) false) (seq 0 (numVertices g)).

(** The reading under which the reverse pass marks the source of a long
    edge: [v] is marked exactly when some out-edge [v -> u] has
    [u - v >= blockWidth]. *)
Definition rev_marks_sources (g : CSR_char_container) : Prop :=
  ∀ v, (v < numVertices g)%nat →
       computeLongHops_rev g !!! v = true
       ↔ ∃ u, u ∈ out_neighbors g v ∧ (blockWidth ≤ u - v)%nat.

(** *** The kernel of one batch, forward or reverse *)

(** [k & (blockWidth - 1)] *)
Definition nearby_slot (k : nat) : nat := Nat.land k (blockWidth - 1).

(** [a - b < blockWidth] on vertex ids, compared as a [size_t]. *)
Definition hop_is_short (a b : nat) : bool :=
  (Z.of_nat a - Z.of_nat b) mod 2 ^ 64 <? Z.of_nat blockWidth.

Section Kernel.
Context (O : SimdOps) (sc : SCORE) (g : CSR_char_container).
Context (withLongHop : list bool).

(** The buffers of a worker and the running best of the batch it is
    processing.  [cells] is the history of the kernel: row, vertex and
    value of every cell, in the order computed; the code keeps no such
    list. *)
Record kstate := {
  nearbyColumns : list (list (vec O));
  fartherColumns : list (list (vec O));
  lastBatchRow : list (list (vec O));
  bestScores512 : vec O;
  bestRows512 : vec O;
  bestCols512 : cols O;
  cells : list (nat * nat * vec O)
}.

(** The forward kernel, or the reverse kernel with the end points the
    forward pass found. *)
Inductive pass :=
  | Forward
  | Reverse (fwdBestRows512 : vec O) (fwdBestCols512 : cols O).

Definition match512 : vec O := s_set1 O (score_match sc).
Definition mismatch512 : vec O := s_set1 O (score_mismatch sc).
Definition del512 : vec O := s_set1 O (score_del sc).
Definition ins512 : vec O := s_set1 O (score_ins sc).

(** Forward: the in-neighbours of [k], in topological order of the
    vertices.  Reverse: the out-neighbours, in reverse order. *)
Definition pass_neighbors (P : pass) (k : nat) : list nat :=
  match P with
  | Forward => in_neighbors g k
  | Reverse _ _ => out_neighbors g k
  end.

Definition pass_vertices (P : pass) : list nat :=
  match P with
  | Forward => seq 0 (numVertices g)
  | Reverse _ _ => reverse (seq 0 (numVertices g))
  end.

(** The stored column of neighbour [p] of [k]: in the rolling window when
    the hop is shorter than [blockWidth], in the side store otherwise.
    (The side store has a column only for the vertices marked long; for
    the others the source holds a null pointer.) *)
Definition neighbor_column (P : pass) (st : kstate) (k p : nat)
    : list (vec O) :=
  let short :=
    match P with
    | Forward => hop_is_short k p
    | Reverse _ _ => hop_is_short p k
    end in
  if short then nearbyColumns st !!! nearby_slot p
  else fartherColumns st !!! p.

(** The body of the innermost loop: cell (row [j + l], vertex [k]).
    [loopJ] is the index of the row block, [j = loopJ * blockHeight]. *)
Definition kernel_cell (P : pass) (readCharsInt : list Z) (loopJ j k : nat)
    (acc : kstate * vec O) (l : nat) : kstate * vec O :=
  let st := acc.1 in
  let readChars := s_load O readCharsInt l in
  let graphChar := s_set1 O (char_code (vertex_label g !!! k)) in
  let currentMax512 := s_zero O in
  let compareChar := s_cmpeq O readChars graphChar in
  let sub512 := s_blend O compareChar mismatch512 match512 in
  let currentMax512 := s_max O currentMax512 sub512 in
  let currentMax512 :=
    if (l =? 0)%nat then
      let currentMax512 :=
        foldl (λ currentMax512 p,
                 let substEdit :=
                   s_add O (bget (lastBatchRow st) (prev_row loopJ) p) sub512 in
                 let currentMax512 := s_max O currentMax512 substEdit in
                 let delEdit :=
                   s_add O (neighbor_column P st k p !!! l) del512 in
                 s_max O currentMax512 delEdit)
              currentMax512 (pass_neighbors P k) in
      let insEdit :=
        s_add O (bget (lastBatchRow st) (prev_row loopJ) k) ins512 in
      s_max O currentMax512 insEdit
    else
      let currentMax512 :=
        foldl (λ currentMax512 p,
                 let substEdit :=
                   s_add O (neighbor_column P st k p !!! (l - 1)%nat) sub512 in
                 let delEdit :=
                   s_add O (neighbor_column P st k p !!! l) del512 in
                 let currentMax512 := s_max O currentMax512 substEdit in
                 s_max O currentMax512 delEdit)
              currentMax512 (pass_neighbors P k) in
      let insEdit :=
        s_add O (bget (nearbyColumns st) (nearby_slot k) (l - 1)) ins512 in
      s_max O currentMax512 insEdit in
  let bestScores512' := s_max O currentMax512 (bestScores512 st) in
  let updated := s_cmpeq O currentMax512 bestScores512' in
  let bestRows512' :=
    s_mask_set1 O (bestRows512 st) updated (Z.of_nat (j + l)) in
  let bestCols512' :=
    c_mask_set1_32 O (bestCols512 st) updated (Z.of_nat k) in
  let stored :=
    match P with
    | Forward => currentMax512
    | Reverse fwdBestRows512 fwdBestCols512 =>
      let currentRow := s_set1 O (Z.of_nat (j + l)) in
      let compareCell :=
        m_and O (s_cmpeq O fwdBestRows512 currentRow)
                (c_cmpeq_32 O fwdBestCols512 (Z.of_nat k)) in
      s_mask_set1 O currentMax512 compareCell (score_match sc + 1)
    end in
  ({| nearbyColumns := bset (nearbyColumns st) (nearby_slot k) l stored;
      fartherColumns :=
        if (withLongHop !!! k : bool) then bset (fartherColumns st) k l stored
        else fartherColumns st;
      lastBatchRow := lastBatchRow st;
      bestScores512 := bestScores512';
      bestRows512 := bestRows512';
      bestCols512 := bestCols512';
      cells := cells st ++ [((j + l)%nat, k, currentMax512)] |},
   stored).

(** One vertex of one row block: [blockHeight] cells, then the last of
    them goes to [lastBatchRow[loopJ & 1][k]]. *)
Definition kernel_vertex (P : pass) (readCharsInt : list Z) (loopJ j : nat)
    (st : kstate) (k : nat) : kstate :=
  let '(st', currentMax512) :=
    foldl (kernel_cell P readCharsInt loopJ j k) (st, s_zero O)
          (seq 0 blockHeight) in
  {| nearbyColumns := nearbyColumns st';
     fartherColumns := fartherColumns st';
     lastBatchRow := bset (lastBatchRow st') (cur_row loopJ) k currentMax512;
     bestScores512 := bestScores512 st';
     bestRows512 := bestRows512 st';
     bestCols512 := bestCols512 st';
     cells := cells st' |}.

(** One row block: the characters of the block are copied out of the
    struct-of-arrays buffer, then every vertex is visited. *)
Definition kernel_block (P : pass) (readSetSOA : list ascii) (offset : nat)
    (st : kstate) (loopJ : nat) : kstate :=
  let j := (loopJ * blockHeight)%nat in
  let readCharsInt :=
    (λ k, char_code (readSetSOA !!! (offset + j * s_lanes O + k)%nat))
      <$> seq 0 (s_lanes O * blockHeight) in
  foldl (kernel_vertex P readCharsInt loopJ j) st (pass_vertices P).

(** One batch.  The rolling window and the side store are those of the
    worker, with whatever the previous batch left in them; the rest is
    reset.  The row counter [j] and [qryBatchLength] are [int32_t] in the
    source and natural numbers here: the model is that of reads of fewer
    than 2^31 characters. *)
Definition kernel_batch (P : pass) (readSetSOA : list ascii) (offset : nat)
    (qryBatchLength : nat)
    (nearby0 farther0 : list (list (vec O))) : kstate :=
  foldl (kernel_block P readSetSOA offset)
        {| nearbyColumns := nearby0;
           fartherColumns := farther0;
           lastBatchRow := replicate 2 (replicate (numVertices g) (s_zero O));
           bestScores512 := s_zero O;
           bestRows512 := s_zero O;
           bestCols512 := c_zero O;
           cells := [] |}
        (seq 0 (qryBatchLength / blockHeight)).

End Kernel.

(** *** The read batcher *)

#[global] Instance read_inhabited : Inhabited string := populate ""%string.

(** [std::greater<std::pair<size_t, size_t>>]: by length, then by index,
    both decreasing. *)
Definition pair_ge (a b : nat * nat) : Prop :=
  (b.1 < a.1)%nat ∨ (b.1 = a.1 ∧ b.2 ≤ a.2)%nat.

#[global] Instance pair_ge_dec a b : Decision (pair_ge a b).
Proof. unfold pair_ge. apply _. Defined.

(** [sortReadsForLoadBalance]: the (length, index) pairs of the reads in
    decreasing order.  The pairs are distinct, so the order [std::sort]
    leaves them in is the sorted one. *)
Definition sortReadsForLoadBalance (readSet : list string) : list (nat * nat) :=
  merge_sort pair_ge (imap (λ i read, (String.length read, i)) readSet).

Definition sortedReadOrder (readSet : list string) : list nat :=
  (sortReadsForLoadBalance readSet).*2.

(** [len += blockHeight - 1 - (len - 1) % blockHeight] in [size_t]. *)
Definition round_up (len : nat) : nat :=
  Z.to_nat (Z.of_nat len + (Z.of_nat blockHeight - 1
            - ((Z.of_nat len - 1) mod 2 ^ 64) mod Z.of_nat blockHeight)).

(** [std::ceil(readCount * 1.0 / numSeqs)] *)
Definition countReadBatches (t : SimdType) (readCount : nat) : nat :=
  ((readCount + numSeqs t - 1) / numSeqs t)%nat.

Section Batcher.
Context (t : SimdType) (readSet : list string).

Definition read_of_slot (pos : nat) : string :=
  readSet !!! (sortedReadOrder readSet !!! pos).

(** The padded length of the batch that starts at sorted position [i]. *)
Definition batchLength (i : nat) : nat :=
  round_up (String.length (read_of_slot i)).

(** The characters of that batch: row after row, lane after lane. *)
Definition soa_batch (i : nat) : list ascii :=
  seq 0 (batchLength i) ≫= λ j,
    (λ k, if (i + k <? length readSet)%nat
             && (j <? String.length (read_of_slot (i + k)))%nat
          then char_at (read_of_slot (i + k)) j
          else DUMMY) <$> seq 0 (numSeqs t).

(** [convertToSOA] past its opening assertions: [readSetSOA] and
    [readSetSOAPrefixSum].  The first assertion, [readSet.size() > 0],
    stops the program on an empty read set, where this definition has no
    counterpart in the source; the other two hold as the constructor
    calls the function, [sortedReadOrder] having one entry per read and
    [readSetSOA] being empty. *)
Definition convertToSOA : list ascii * list nat :=
  foldl (λ '(readSetSOA, readSetSOAPrefixSum) b,
           let readSetSOA := readSetSOA ++ soa_batch (b * numSeqs t) in
           (readSetSOA, readSetSOAPrefixSum ++ [length readSetSOA]))
        ([], [0%nat])
        (seq 0 (countReadBatches t (length readSet))).

End Batcher.

(** *** The forward and reverse passes and their wrappers *)

(** The fields of [BestScoreInfo] the vectorized code uses. *)
Record BestScoreInfoV := {
  v_score : Z;
  refColumnEnd : Z;
  refColumnStart : Z;
  qryRowEnd : Z;
  qryRowStart : Z
}.

#[global] Instance BestScoreInfoV_inhabited : Inhabited BestScoreInfoV :=
  populate {| v_score := 0; refColumnEnd := 0; refColumnStart := 0;
              qryRowEnd := 0; qryRowStart := 0 |}.

(** What a worker finds in its rolling window and side store when it
    starts a batch: left by the batches it ran before, which the dynamic
    schedule decides.  [stale b] stands for the content at the start of
    batch [b]. *)
Definition stale_buffers := nat → list (list (list Z)) * list (list (list Z)).

(** The buffers as a worker allocates them: [blockWidth] columns in the
    window, one column per vertex in the side store, all zero. *)
Definition fresh_buffers (t : SimdType) (g : CSR_char_container)
    : stale_buffers :=
  λ _, (replicate blockWidth (replicate blockHeight (s_zero (vec_ops t))),
        replicate (numVertices g) (replicate blockHeight (s_zero (vec_ops t)))).

(** Buffers of the right shape, whatever the registers in them hold. *)
Definition buffers_shaped (g : CSR_char_container) {A}
    (nearby farther : list (list A)) : Prop :=
  length nearby = blockWidth
  ∧ (∀ c, (c < blockWidth)%nat → length (nearby !!! c) = blockHeight)
  ∧ length farther = numVertices g
  ∧ (∀ v, (v < numVertices g)%nat → length (farther !!! v) = blockHeight).

Section Passes.
Context (t : SimdType) (sc : SCORE) (g : CSR_char_container).
Context (readSet : list string) (stale : stale_buffers).

Local Notation n := (numSeqs t).

(** Batch [b] of [alignToDAGLocal_Phase1_vectorized]. *)
Definition forward_batch (b : nat) : kstate (vec_ops t) :=
  let '(readSetSOA, readSetSOAPrefixSum) := convertToSOA t readSet in
  kernel_batch (vec_ops t) sc g (computeLongHops g) (Forward (vec_ops t))
    readSetSOA (readSetSOAPrefixSum !!! b)
    (batchLength readSet (b * n)) (stale b).1 (stale b).2.

(** [alignToDAGLocal_Phase1_vectorized_wrapper]: the lanes of every
    batch go to the entries of their reads. *)
Definition alignToDAGLocal_Phase1_vectorized_wrapper
    (outputBestScoreVector : list BestScoreInfoV) : list BestScoreInfoV :=
  foldl (λ out i,
    let r := forward_batch i in
    let storeScores : list Z := bestScores512 _ r in
    let storeRows : list Z := bestRows512 _ r in
    let storeCols : list Z := concat (bestCols512 _ r) in
    foldl (λ out j,
      if (i * n + j <? length readSet)%nat then
        let originalReadId := sortedReadOrder readSet !!! (i * n + j)%nat in
        <[originalReadId :=
            {| v_score := storeScores !!! j;
               refColumnEnd := storeCols !!! j;
               refColumnStart := refColumnStart (out !!! originalReadId);
               qryRowEnd := storeRows !!! j;
               qryRowStart := qryRowStart (out !!! originalReadId) |}]> out
      else out) out (seq 0 n))
    outputBestScoreVector (seq 0 (countReadBatches t (length readSet))).

(** The end points of the forward pass for the lanes of batch [b], as
    the reverse kernel loads them; lanes past the last read hold 0. *)
Definition fwdBestRows (out : list BestScoreInfoV) (b : nat) : list Z :=
  lanes n (λ j : nat,
    if (b * n + j <? length readSet)%nat then
      let originalReadId := sortedReadOrder readSet !!! (b * n + j)%nat in
      wrap (lane_bits t)
        (Z.of_nat (String.length (readSet !!! originalReadId)) - 1
         - qryRowEnd (out !!! originalReadId))
    else 0).

Definition fwdBestCols (out : list BestScoreInfoV) (b : nat) : list Z :=
  lanes n (λ j : nat,
    if (b * n + j <? length readSet)%nat then
      let originalReadId := sortedReadOrder readSet !!! (b * n + j)%nat in
      wrap 32 (refColumnEnd (out !!! originalReadId))
    else 0).

(** Batch [b] of [alignToDAGLocal_Phase1_rev_vectorized]. *)
Definition reverse_batch (out : list BestScoreInfoV) (b : nat)
    : kstate (vec_ops t) :=
  let '(readSetSOA, readSetSOAPrefixSum) := convertToSOA t readSet in
  let fwdBestRows512 := fwdBestRows out b in
  let fwdBestCols512 :=
    (λ c, lanes colValuesPerRegister
            (λ i : nat, fwdBestCols out b !!! (c * colValuesPerRegister + i)%nat))
      <$> seq 0 (colRegistersCountPerBatch t) in
  kernel_batch (vec_ops t) sc g (computeLongHops_rev g)
    (Reverse (vec_ops t) fwdBestRows512 fwdBestCols512)
    readSetSOA (readSetSOAPrefixSum !!! b)
    (batchLength readSet (b * n)) (stale b).1 (stale b).2.

(** [alignToDAGLocal_Phase1_rev_vectorized_wrapper]; [None] when the
    assertion [score == storeScores[j] - 1] fails. *)
Definition alignToDAGLocal_Phase1_rev_vectorized_wrapper
    (outputBestScoreVector : list BestScoreInfoV)
    : option (list BestScoreInfoV) :=
  foldl (λ out i,
    let r := reverse_batch outputBestScoreVector i in
    let storeScores : list Z := bestScores512 _ r in
    let storeRows : list Z := bestRows512 _ r in
    let storeCols : list Z := concat (bestCols512 _ r) in
    foldl (λ out j,
      out ← out;
      if (i * n + j <? length readSet)%nat then
        let originalReadId := sortedReadOrder readSet !!! (i * n + j)%nat in
        let info : BestScoreInfoV := out !!! originalReadId in
        if v_score info =? storeScores !!! j - 1 then
          Some (<[originalReadId :=
                    {| v_score := v_score info;
                       refColumnEnd := refColumnEnd info;
                       refColumnStart := storeCols !!! j;
                       qryRowEnd := qryRowEnd info;
                       qryRowStart :=
                         Z.of_nat (String.length (readSet !!! originalReadId))
                         - 1 - storeRows !!! j |}]> out)
        else None
      else Some out) out (seq 0 n))
    (Some outputBestScoreVector)
    (seq 0 (countReadBatches t (length readSet))).

End Passes.

(** match = 1 and mismatch = ins = del = -1: the constants with which
    the sums of the vector kernels charge one for each edit. *)
Definition unit_scores : SCORE :=
  {| score_match := 1; score_mismatch := -1; score_ins := -1; score_del := -1 |}.

(** *** Batch invariance, as a statement *)

(** Score, end row and end column reported for a read. *)
Definition reported (r : BestScoreInfoV) : Z * Z * Z :=
  (v_score r, qryRowEnd r, refColumnEnd r).

(** The forward wrapper reports for read [rid] of [readSet] what it
    reports for that read alone. *)
Definition batch_invariant (t : SimdType) (sc : SCORE)
    (g : CSR_char_container) (readSet : list string)
    (stale stale' : stale_buffers) (out out' : list BestScoreInfoV)
    (rid : nat) : Prop :=
  reported (alignToDAGLocal_Phase1_vectorized_wrapper t sc g readSet stale out
              !!! rid)
  = reported (alignToDAGLocal_Phase1_vectorized_wrapper t sc g
                [readSet !!! rid] stale' out' !!! 0%nat).

(** An output vector as the caller allocates it. *)
Definition output_init (readCount : nat) : list BestScoreInfoV :=
  replicate readCount inhabitant.

(** ** Example graphs *)

(** Nine vertices and the single edge 0 -> 8. *)
Definition long_edge_graph : CSR_char_container :=
  graph_of_edges "AAAAAAAAA" [(0%nat, 8%nat)].

(** ** Best-score tracking of the vector kernel, lane by lane *)

(** The cells of a batch in the order the kernel visits them: row block
    after row block, in a block vertex after vertex, for a vertex the
    [blockHeight] rows of the block. *)
Definition scan_order (g : CSR_char_container) (qryBatchLength : nat)
    : list (nat * nat) :=
  seq 0 (qryBatchLength / blockHeight) ≫= λ loopJ,
    seq 0 (numVertices g) ≫= λ k,
      (λ l, ((loopJ * blockHeight + l)%nat, k)) <$> seq 0 blockHeight.

(** The history of one lane: row, vertex and value of its cells. *)
Definition lane_history (ℓ : nat) (h : list (nat * nat * list Z))
    : list (nat * nat * Z) :=
  (λ c, (c.1, c.2 !!! ℓ)) <$> h.

(** The largest value of a history, and 0 for none. *)
Definition running_max (h : list (nat * nat * Z)) : Z :=
  foldl (λ b c, Z.max c.2 b) 0 h.

(** The reading of the tie policy by vertex first: among the cells of the
    read that attain the score reported, the end point reported has the
    largest vertex, and among those of that vertex the largest row. *)
Definition largest_vertex_then_row_wins (t : SimdType) (sc : SCORE)
    (g : CSR_char_container) (read : string) : Prop :=
  let stale := fresh_buffers t g in
  let h := lane_history 0 (cells _ (forward_batch t sc g [read] stale 0)) in
  let res := alignToDAGLocal_Phase1_vectorized_wrapper t sc g [read] stale
               (output_init 1) !!! 0%nat in
  ∀ r v, (r, v, v_score res) ∈ h →
         Z.of_nat v < refColumnEnd res
         ∨ (Z.of_nat v = refColumnEnd res ∧ Z.of_nat r ≤ qryRowEnd res).

(** Two vertices A and G without an edge. *)
Definition two_vertices : CSR_char_container := graph_of_edges "AG" [].

(** ** One lane of the forward kernel, as a recurrence *)

Section Lane_Reference.
Context (t : SimdType) (sc : SCORE) (g : CSR_char_container).

(** [chars r]: the character of the lane in row [r], as the kernel loads
    it. *)
Context (chars : nat → Z).

Local Notation w := (lane_bits t).

(** The lane of [sub512]. *)
Definition lane_sub (r k : nat) : Z :=
  if chars r =? wrap w (char_code (vertex_label g !!! k))
  then wrap w (score_match sc) else wrap w (score_mismatch sc).

(** The lane of [currentMax512] for cell (row [r], vertex [k]), from the
    row above and the part of the row computed so far. *)
Definition lane_cell (above cur : list Z) (r k : nat) : Z :=
  let sub := lane_sub r k in
  Z.max
    (foldl (λ m p, Z.max (Z.max m (wrap w (above !!! p + sub)))
                         (wrap w (cur !!! p + wrap w (score_del sc))))
           (Z.max 0 sub) (in_neighbors g k))
    (wrap w (above !!! k + wrap w (score_ins sc))).

Definition lane_row (above : list Z) (r : nat) : list Z :=
  foldl (λ cur k, cur ++ [lane_cell above cur r k]) [] (seq 0 (numVertices g)).

(** The row above row [r]: zeros above the first. *)
Fixpoint lane_above (r : nat) : list Z :=
  match r with
  | O => replicate (numVertices g) 0
  | S r' => lane_row (lane_above r') r'
  end.

Definition lane_value (r k : nat) : Z := lane_above (S r) !!! k.

End Lane_Reference.

(** The character of lane [ℓ] in row [r] of the batch at [offset]. *)
Definition soa_char (t : SimdType) (readSetSOA : list ascii) (offset ℓ : nat)
    (r : nat) : Z :=
  char_code (readSetSOA !!! (offset + r * numSeqs t + ℓ)%nat).

(** The characters of a read followed by the padding. *)
Definition padded_char (read : string) (r : nat) : Z :=
  if (r <? String.length read)%nat then char_code (char_at read r)
  else char_code DUMMY.

(** *** What the buffers hold while a batch is computed *)

Section Kernel_Invariant.
Context (t : SimdType) (sc : SCORE) (g : CSR_char_container).
Context (withLongHop : list bool) (chars : nat → Z) (ℓ : nat).

Local Notation M := (lane_value t sc g chars).
Local Notation ks := (kstate (vec_ops t)).

(** Lane [ℓ] of a register of a buffer. *)
Definition lane_at (b : list (list (list Z))) (r j : nat) : Z :=
  bget b r j !!! ℓ.

Definition kernel_shape (st : ks) : Prop :=
  length (nearbyColumns _ st) = blockWidth
  ∧ (∀ s, (s < blockWidth)%nat →
          length (nearbyColumns _ st !!! s) = blockHeight)
  ∧ length (fartherColumns _ st) = numVertices g
  ∧ (∀ v, (v < numVertices g)%nat →
          length (fartherColumns _ st !!! v) = blockHeight)
  ∧ length (lastBatchRow _ st) = 2%nat
  ∧ (∀ i, (i < 2)%nat → length (lastBatchRow _ st !!! i) = numVertices g).

(** The cells of the history hold the values of the recurrence. *)
Definition history_ok (st : ks) : Prop :=
  Forall (λ c : nat * nat * Z, c.2 = M c.1.1 c.1.2)
         (lane_history ℓ (cells _ st)).

(** Between two vertices of row block [loopJ], the vertices below [k]
    done: the window holds the columns of the last [blockWidth] of them,
    the side store those of the vertices marked, and [lastBatchRow] the
    last row of this block so far and that of the block before. *)
Definition vertex_inv (loopJ k : nat) (st : ks) : Prop :=
  let j := (loopJ * blockHeight)%nat in
  kernel_shape st
  ∧ (∀ p l, (p < k)%nat → (k ≤ p + blockWidth)%nat → (l < blockHeight)%nat →
            lane_at (nearbyColumns _ st) (nearby_slot p) l = M (j + l)%nat p)
  ∧ (∀ p l, (p < k)%nat → withLongHop !!! p = true → (l < blockHeight)%nat →
            lane_at (fartherColumns _ st) p l = M (j + l)%nat p)
  ∧ (∀ p, (p < k)%nat →
          lane_at (lastBatchRow _ st) (cur_row loopJ) p
          = M (j + blockHeight - 1)%nat p)
  ∧ (∀ p, (p < numVertices g)%nat →
          lane_at (lastBatchRow _ st) (prev_row loopJ) p
          = lane_above t sc g chars j !!! p)
  ∧ history_ok st.

(** Inside vertex [k], the rows below [l] of the block done. *)
Definition cell_inv (loopJ k l : nat) (acc : ks * list Z) : Prop :=
  let st := acc.1 in
  let j := (loopJ * blockHeight)%nat in
  kernel_shape st
  ∧ (∀ p l', (p < k)%nat → (k < p + blockWidth)%nat → (l' < blockHeight)%nat →
             lane_at (nearbyColumns _ st) (nearby_slot p) l' = M (j + l')%nat p)
  ∧ (∀ l', (l' < l)%nat →
           lane_at (nearbyColumns _ st) (nearby_slot k) l' = M (j + l')%nat k)
  ∧ (∀ p l', (p < k)%nat → withLongHop !!! p = true → (l' < blockHeight)%nat →
             lane_at (fartherColumns _ st) p l' = M (j + l')%nat p)
  ∧ (withLongHop !!! k = true → ∀ l', (l' < l)%nat →
       lane_at (fartherColumns _ st) k l' = M (j + l')%nat k)
  ∧ (∀ p, (p < k)%nat →
          lane_at (lastBatchRow _ st) (cur_row loopJ) p
          = M (j + blockHeight - 1)%nat p)
  ∧ (∀ p, (p < numVertices g)%nat →
          lane_at (lastBatchRow _ st) (prev_row loopJ) p
          = lane_above t sc g chars j !!! p)
  ∧ (∀ l', l = S l' → acc.2 !!! ℓ = M (j + l')%nat k)
  ∧ history_ok st.

End Kernel_Invariant.

(** The cells of a batch with the values of the recurrence. *)
Definition lane_reference (t : SimdType) (sc : SCORE) (g : CSR_char_container)
    (chars : nat → Z) (qryBatchLength : nat) : list (nat * nat * Z) :=
  (λ c : nat * nat, (c, lane_value t sc g chars c.1 c.2))
    <$> scan_order g qryBatchLength.

(** ** [graphLoad.hpp]: the vg ingest path *)










(** ** The constants of the two kernels *)

(** The scalar code subtracts [SCORE::mismatch], [SCORE::ins] and
    [SCORE::del]; the vector kernels add them.  [as_scores sc] has the
    penalties of [sc] negated: the constants with which the vector
    kernels charge what the scalar code charges with [sc]. *)
Definition as_scores (sc : SCORE) : SCORE :=
  {| score_match := score_match sc;
     score_mismatch := - score_mismatch sc;
     score_ins := - score_ins sc;
     score_del := - score_del sc |}.

(** * Part II: properties *)

(** ** Helpers *)

Lemma topo_sortedb_spec g : topo_sortedb g = true ↔ topo_sorted g.
Proof.
  unfold topo_sortedb, topo_sorted. rewrite forallb_forall. split.
  - intros H k p Hk Hp. specialize (H k).
    rewrite forallb_forall in H.
    apply Nat.ltb_lt, H; [apply in_seq; lia | by apply list_elem_of_In].
  - intros H k Hk. apply in_seq in Hk. apply forallb_forall.
    intros p Hp. apply Nat.ltb_lt, H; [lia | by apply list_elem_of_In].
Qed.

Lemma prev_row_0 : prev_row 0 = 1%nat.
Proof. reflexivity. Qed.

Lemma prev_row_S i : prev_row (S i) = cur_row i.
Proof.
  unfold prev_row, cur_row.
  rewrite Z.mod_mod_divide by (by exists (2 ^ 63)).
  replace (Z.of_nat (S i) - 1) with (Z.of_nat i) by lia.
  rewrite <- (Nat2Z.id (i mod 2)). f_equal.
  by rewrite Nat2Z.inj_mod.
Qed.

Lemma prev_row_ne i : prev_row i ≠ cur_row i.
Proof.
  destruct i as [|i]; [done |].
  rewrite prev_row_S. unfold cur_row.
  replace (S i) with (1 + i)%nat by lia.
  intros H.
  pose proof (Nat.Div0.add_mod 1 i 2) as E.
  pose proof (Nat.mod_upper_bound i 2).
  destruct (i mod 2)%nat as [|[|?]] eqn:Ei; simpl in *; lia.
Qed.

Lemma cur_row_lt i : (cur_row i < 2)%nat.
Proof. apply Nat.mod_upper_bound. lia. Qed.

Lemma prev_row_lt i : (prev_row i < 2)%nat.
Proof.
  destruct i; [rewrite prev_row_0; lia | rewrite prev_row_S; apply cur_row_lt].
Qed.

Lemma max_of_ge_head l : ∀ x, x ≤ max_of x l.
Proof.
  unfold max_of. induction l as [|y l IH]; intros x; simpl; [lia |].
  etrans; [| apply IH]. lia.
Qed.

Lemma max_of_ge l : ∀ x y, y ∈ l → y ≤ max_of x l.
Proof.
  unfold max_of. induction l as [|z l IH]; intros x y Hy; simpl.
  - by apply elem_of_nil in Hy.
  - apply elem_of_cons in Hy as [-> | Hy]; [| by apply IH].
    etrans; [| apply (max_of_ge_head l)]. lia.
Qed.

Lemma max_of_attained l : ∀ x, max_of x l = x ∨ max_of x l ∈ l.
Proof.
  unfold max_of. induction l as [|z l IH]; intros x; simpl; [by left |].
  destruct (IH (Z.max x z)) as [E | E].
  - rewrite E. destruct (Z.max_spec x z) as [[_ ->] | [_ ->]];
      [right; apply elem_of_cons; by left | by left].
  - right. apply elem_of_cons. by right.
Qed.

Lemma max_of_le l x b : x ≤ b → (∀ y, y ∈ l → y ≤ b) → max_of x l ≤ b.
Proof.
  intros Hx Hl. destruct (max_of_attained l x) as [-> | H]; auto.
Qed.

Lemma max_of_unique l x m :
  (m = x ∨ m ∈ l) → x ≤ m → (∀ y, y ∈ l → y ≤ m) → max_of x l = m.
Proof.
  intros Hin Hx Hl. apply Z.le_antisymm.
  - by apply max_of_le.
  - destruct Hin as [-> | Hin]; [apply max_of_ge_head | by apply max_of_ge].
Qed.

Lemma foldl_max_map {A} (f : A → Z) (l : list A) (a : Z) :
  foldl (λ acc k, Z.max acc (f k)) a l = max_of a (f <$> l).
Proof.
  unfold max_of. revert a. induction l as [|k l IH]; intros a; simpl; [done |].
  apply IH.
Qed.

Lemma max_of_max_l a b l : max_of (Z.max a b) l = Z.max a (max_of b l).
Proof.
  unfold max_of. revert a b. induction l as [|x l IH]; intros a b; simpl; [done |].
  rewrite <- IH. f_equal. lia.
Qed.

Lemma max_of_app x l1 l2 : max_of x (l1 ++ l2) = max_of (max_of x l1) l2.
Proof. apply foldl_app. Qed.

Lemma mget_mset_eq n w m r j x :
  wf_matrix n w m → (r < n)%nat → (j < w)%nat → mget (mset m r j x) r j = x.
Proof.
  intros [Hl Hr] ??. unfold mget, mset.
  rewrite list_lookup_total_insert_eq by lia.
  rewrite list_lookup_total_insert_eq; [done | rewrite Hr; lia].
Qed.

Lemma mget_mset_ne m r j x r' j' :
  (r ≠ r' ∨ j ≠ j') → mget (mset m r j x) r' j' = mget m r' j'.
Proof.
  intros H. unfold mget, mset.
  destruct (decide (r = r')) as [<- | Hne].
  - destruct (decide (r < length m)%nat).
    + rewrite list_lookup_total_insert_eq by done.
      rewrite list_lookup_total_insert_ne; [done | by destruct H].
    + rewrite list_insert_ge by lia. done.
  - by rewrite list_lookup_total_insert_ne.
Qed.

Lemma wf_matrix_mset n w m r j x :
  wf_matrix n w m → wf_matrix n w (mset m r j x).
Proof.
  intros [Hl Hr]. unfold mset. split; [by rewrite length_insert |].
  intros r' Hr'. destruct (decide (r = r')) as [<- | Hne].
  - rewrite list_lookup_total_insert_eq by lia.
    rewrite length_insert. by apply Hr.
  - rewrite list_lookup_total_insert_ne by done. by apply Hr.
Qed.

Lemma wf_matrix_zero n w : wf_matrix n w (replicate n (replicate w 0)).
Proof.
  split; [apply length_replicate |]. intros r Hr.
  rewrite lookup_total_replicate_2 by done. apply length_replicate.
Qed.

Lemma mget_zero n w r j :
  (r < n)%nat → (j < w)%nat → mget (replicate n (replicate w 0)) r j = 0.
Proof.
  intros ??. unfold mget.
  rewrite lookup_total_replicate_2 by done.
  by rewrite lookup_total_replicate_2.
Qed.

(** ** Phase 1, scalar kernel: the recurrence *)

Lemma sw_recurrence_unfold sc sub preds up row v :
  sw_recurrence sc sub preds up row v =
  Z.max (Z.max (up v - score_ins sc) (max_of sub ((λ p, up p + sub) <$> preds)))
        (Z.max (max_of (-1) ((λ p, row p - score_del sc) <$> preds)) 0).
Proof.
  unfold sw_recurrence.
  change (max_of 0 (sub :: ?l)) with (max_of (Z.max 0 sub) l).
  rewrite !max_of_app. change (max_of ?x [?y]) with (Z.max x y).
  rewrite max_of_max_l.
  set (A := max_of sub _).
  replace (Z.max 0 A) with (Z.max (Z.max 0 A) (-1)) by lia.
  rewrite max_of_max_l.
  set (B := max_of (-1) _). lia.
Qed.

Section Phase1_Recurrence.
Context (sc : SCORE) (g : CSR_char_container).
Context (read : string) (best0 : BestScoreInfo).

Local Notation W := (numVertices g).
Local Notation before := (phase1_before sc g read best0).
Local Notation rows := (phase1_rows sc g read best0).
Local Notation H := (cell sc g read best0).
Local Notation up := (up_row sc g read best0).

Lemma phase1_before_0 i : before i 0%nat = rows i.
Proof. done. Qed.

Lemma phase1_before_S i j :
  before i (S j) = phase1_cell sc g read i (before i j) j.
Proof.
  unfold phase1_before. by rewrite seq_S, foldl_snoc.
Qed.

Lemma phase1_rows_S i : rows (S i) = before i W.
Proof.
  unfold phase1_rows at 1. by rewrite seq_S, foldl_snoc.
Qed.

Lemma phase1_cell_matrix i st j :
  (phase1_cell sc g read i st j).1 =
  mset st.1 (cur_row i) j (phase1_value sc g read st.1 i j).
Proof. by destruct st. Qed.

Lemma phase1_cell_best i st j :
  (phase1_cell sc g read i st j).2 =
  if score st.2 <? phase1_value sc g read st.1 i j
  then {| score := phase1_value sc g read st.1 i j; vid := j;
          vertexSeqOffset := 0; refColumn := j; qryRow := i |}
  else st.2.
Proof. by destruct st. Qed.

Lemma wf_before i j : wf_matrix 2 W (before i j).1.
Proof.
  revert j. induction i as [|i IHi]; intros j.
  - induction j as [|j IHj]; [apply wf_matrix_zero |].
    rewrite phase1_before_S, phase1_cell_matrix. by apply wf_matrix_mset.
  - induction j as [|j IHj].
    + rewrite phase1_before_0, phase1_rows_S. apply IHi.
    + rewrite phase1_before_S, phase1_cell_matrix. by apply wf_matrix_mset.
Qed.

(** Within row [i], the columns already written hold their cells. *)
Lemma before_cur_row i j c :
  (c < j)%nat → mget (before i j).1 (cur_row i) c = H i c.
Proof.
  induction j as [|j IHj]; intros Hc; [lia |].
  rewrite phase1_before_S, phase1_cell_matrix.
  destruct (decide (c = j)) as [-> | Hne].
  - unfold cell, phase1_after.
    by rewrite phase1_before_S, phase1_cell_matrix.
  - rewrite mget_mset_ne by (right; congruence). apply IHj. lia.
Qed.

(** Row [i] never touches the other buffer row. *)
Lemma before_prev_row i j c :
  mget (before i j).1 (prev_row i) c = mget (rows i).1 (prev_row i) c.
Proof.
  induction j as [|j IHj]; [done |].
  rewrite phase1_before_S, phase1_cell_matrix.
  rewrite mget_mset_ne; [apply IHj |].
  left. intros E. by apply (prev_row_ne i).
Qed.

Lemma rows_prev_row i c :
  (c < W)%nat → mget (rows i).1 (prev_row i) c = up i c.
Proof.
  intros Hc. destruct i as [|i]; unfold up_row.
  - apply mget_zero; [apply prev_row_lt | done].
  - rewrite prev_row_S, phase1_rows_S. by apply before_cur_row.
Qed.

Lemma cell_value i j :
  (j < W)%nat → H i j = phase1_value sc g read (before i j).1 i j.
Proof.
  intros Hj. unfold cell, phase1_after.
  rewrite phase1_before_S, phase1_cell_matrix.
  apply (mget_mset_eq 2 W); [apply wf_before | apply cur_row_lt | done].
Qed.

Lemma phase1_value_recurrence i j :
  topo_sorted g → (j < W)%nat →
  phase1_value sc g read (before i j).1 i j =
  sw_recurrence sc (sub_score sc g read i j) (in_neighbors g j)
                (up i) (H i) j.
Proof.
  intros Htopo Hj.
  rewrite sw_recurrence_unfold. unfold phase1_value.
  rewrite !foldl_max_map.
  unfold getNeighborOffsets, matchScore, curChar, sub_score.
  replace (-1 * score_mismatch sc) with (- score_mismatch sc) by lia.
  set (ms := if Ascii.eqb _ _ then _ else _).
  rewrite before_prev_row, rows_prev_row by done.
  f_equal; [f_equal |].
  - f_equal. apply list_fmap_ext. intros n k Hk.
    rewrite before_prev_row, rows_prev_row; [done |].
    apply list_elem_of_lookup_2 in Hk.
    specialize (Htopo _ _ Hj Hk). lia.
  - f_equal. f_equal. apply list_fmap_ext. intros n k Hk.
    apply list_elem_of_lookup_2 in Hk.
    rewrite before_cur_row; [done | by apply (Htopo j)].
Qed.

End Phase1_Recurrence.

(** C1.  On a topologically sorted graph the scalar Phase-1 kernel
    [alignToDAGLocal_Phase1_Score] stores, for every row r of the read and
    every vertex v, the value
    max(0, sub, max_p cell(r-1,p)+sub, max_p cell(r,p)-del, cell(r-1,v)-ins)
    over the in-neighbours p of v, where sub is match when read[r] equals
    the label of v and -mismatch otherwise, and the cells of row r-1 count
    as 0 when r = 0. *)
Theorem phase1_cell_recurrence sc g read best0 r v :
  topo_sorted g → (r < String.length read)%nat → (v < numVertices g)%nat →
  cell sc g read best0 r v =
  sw_recurrence sc (sub_score sc g read r v) (in_neighbors g v)
    (λ p, match r with O => 0 | S r' => cell sc g read best0 r' p end)
    (cell sc g read best0 r) v.
Proof.
  intros Htopo _ Hv.
  rewrite cell_value by done.
  by rewrite phase1_value_recurrence.
Qed.

(** ** Phase 1, scalar kernel: score bounds *)

Section Phase1_Bounds.
Context (sc : SCORE) (g : CSR_char_container).
Context (read : string) (best0 : BestScoreInfo).

Local Notation W := (numVertices g).
Local Notation before := (phase1_before sc g read best0).
Local Notation rows := (phase1_rows sc g read best0).
Local Notation H := (cell sc g read best0).
Local Notation up := (up_row sc g read best0).

(** Induction along the scan order of the kernel. *)
Lemma scan_ind (P : nat → nat → Prop) :
  P 0%nat 0%nat →
  (∀ i j, (j < W)%nat → P i j → P i (S j)) →
  (∀ i, P i W → P (S i) 0%nat) →
  ∀ i j, (j ≤ W)%nat → P i j.
Proof.
  intros H0 Hstep Hrow. induction i as [|i IHi].
  - induction j as [|j IHj]; intros Hj; [done |].
    apply Hstep; [lia | apply IHj; lia].
  - induction j as [|j IHj]; intros Hj.
    + apply Hrow, IHi. lia.
    + apply Hstep; [lia | apply IHj; lia].
Qed.

Lemma cell_nonneg i j : (j < W)%nat → 0 ≤ H i j.
Proof.
  intros Hj. rewrite cell_value by done. unfold phase1_value. lia.
Qed.

Lemma best_score_step i j :
  (j < W)%nat →
  score (before i (S j)).2 = Z.max (score (before i j).2) (H i j).
Proof.
  intros Hj. rewrite cell_value by done.
  rewrite phase1_before_S, phase1_cell_best.
  destruct (Z.ltb_spec (score (before i j).2)
              (phase1_value sc g read (before i j).1 i j)); simpl; lia.
Qed.

Lemma best_score_row i : score (before (S i) 0).2 = score (before i W).2.
Proof. by rewrite phase1_before_0, phase1_rows_S. Qed.

(** The running best score dominates every cell scanned so far. *)
Lemma best_ge_cells i j :
  (j ≤ W)%nat →
  score best0 ≤ score (before i j).2 ∧
  ∀ i' j', (j' < W)%nat → scanned_before i' j' i j →
           H i' j' ≤ score (before i j).2.
Proof.
  revert i j. apply scan_ind.
  - split; [done |]. intros i' j' _ [? | [_ ?]]; lia.
  - intros i j Hj [IH0 IH]. rewrite best_score_step by done.
    split; [lia |]. intros i' j' Hj' [Hlt | [-> Hlt]].
    + specialize (IH i' j' Hj' (or_introl Hlt)). lia.
    + destruct (decide (j' = j)) as [-> | Hne]; [lia |].
      assert (scanned_before i j' i j) as Hb by (right; lia).
      specialize (IH i j' Hj' Hb). lia.
  - intros i [IH0 IH]. rewrite best_score_row. split; [done |].
    intros i' j' Hj' [Hlt | [_ Hlt]]; [| lia].
    apply IH; [done |]. unfold scanned_before. lia.
Qed.

(** It is bounded by whatever bounds the initial score and the cells. *)
Lemma best_le_bound (B : Z) i j :
  (j ≤ W)%nat →
  score best0 ≤ B →
  (∀ i' j', (j' < W)%nat → scanned_before i' j' i j → H i' j' ≤ B) →
  score (before i j).2 ≤ B.
Proof.
  intros Hj HB. revert i j Hj. apply (scan_ind (λ i j,
    (∀ i' j', (j' < W)%nat → scanned_before i' j' i j → H i' j' ≤ B) →
    score (before i j).2 ≤ B)).
  - done.
  - intros i j Hj IH Hc. rewrite best_score_step by done.
    apply Z.max_lub.
    + apply IH. intros i' j' Hj' [? | [-> ?]]; apply Hc; try done;
        unfold scanned_before; lia.
    + apply Hc; [done | right; lia].
  - intros i IH Hc. rewrite best_score_row. apply IH.
    intros i' j' Hj' [? | [-> ?]]; apply Hc; try done;
      unfold scanned_before; lia.
Qed.

Context (Htopo : topo_sorted g).
Context (Hmatch : 0 ≤ score_match sc) (Hmismatch : 0 ≤ score_mismatch sc).
Context (Hins : 0 ≤ score_ins sc) (Hdel : 0 ≤ score_del sc).

Lemma sub_score_le i j : sub_score sc g read i j ≤ score_match sc.
Proof. unfold sub_score. destruct (Ascii.eqb _ _); lia. Qed.

(** A path into cell (i, j) has at most [i + 1] rows and [j + 1] columns
    to collect matches from. *)
Lemma cell_upper i :
  ∀ j, (j < W)%nat →
       H i j ≤ Z.of_nat (S i) * score_match sc ∧
       H i j ≤ Z.of_nat (S j) * score_match sc.
Proof.
  induction i as [|i IHi].
  - intros j. induction (lt_wf j) as [j _ IHj]. intros Hj.
    rewrite cell_value, phase1_value_recurrence by done.
    pose proof (sub_score_le 0 j) as Hs.
    split; apply max_of_le; try nia; intros y Hy;
      rewrite elem_of_cons, !elem_of_app, !list_elem_of_fmap, list_elem_of_singleton in Hy;
      destruct Hy as [-> | [(p & -> & Hp) | [(p & -> & Hp) | ->]]];
      simpl; try nia;
      specialize (Htopo j p Hj Hp);
      destruct (IHj p Htopo ltac:(lia)) as [Hr Hc]; nia.
  - intros j. induction (lt_wf j) as [j _ IHj]. intros Hj.
    rewrite cell_value, phase1_value_recurrence by done.
    pose proof (sub_score_le (S i) j) as Hs.
    destruct (IHi j Hj) as [Hur Huc].
    split; apply max_of_le; try nia; intros y Hy;
      rewrite elem_of_cons, !elem_of_app, !list_elem_of_fmap, list_elem_of_singleton in Hy;
      destruct Hy as [-> | [(p & -> & Hp) | [(p & -> & Hp) | ->]]];
      simpl; try nia;
      specialize (Htopo j p Hj Hp);
      try (destruct (IHj p Htopo ltac:(lia)) as [Hr Hc]; nia);
      destruct (IHi p ltac:(lia)) as [Hr Hc]; nia.
Qed.

Lemma cell_le_min i j :
  (i < String.length read)%nat → (j < W)%nat →
  H i j ≤ Z.of_nat (W `min` String.length read) * score_match sc.
Proof.
  intros Hi Hj. destruct (cell_upper i j Hj) as [Hr Hc].
  destruct (Nat.min_spec W (String.length read)) as [[_ ->] | [_ ->]]; nia.
Qed.

End Phase1_Bounds.

(** C9.  On a topologically sorted graph, with non-negative score
    constants and the best score initialised to 0: right after the scalar
    Phase-1 kernel has computed cell (r, v), every cell (r', v') computed
    so far (that one included) satisfies
    0 <= cell <= bestScore <= min(|V|, |read|) * match. *)
Theorem phase1_score_bounds sc g read best0 r v r' v' :
  topo_sorted g →
  0 ≤ score_match sc → 0 ≤ score_mismatch sc →
  0 ≤ score_ins sc → 0 ≤ score_del sc →
  score best0 = 0 →
  (r < String.length read)%nat → (v < numVertices g)%nat →
  (v' < numVertices g)%nat →
  (r' < r ∨ r' = r ∧ v' ≤ v)%nat →
  0 ≤ cell sc g read best0 r' v'
  ∧ cell sc g read best0 r' v' ≤ score (best_after sc g read best0 r v)
  ∧ score (best_after sc g read best0 r v)
      ≤ Z.of_nat (numVertices g `min` String.length read) * score_match sc.
Proof.
  intros Htopo Hm Hmm Hi Hd Hb0 Hr Hv Hv' Hscan.
  unfold best_after, phase1_after. split; [| split].
  - by apply cell_nonneg.
  - apply best_ge_cells; [lia | done |].
    unfold scanned_before. lia.
  - apply best_le_bound; [lia | rewrite Hb0; lia |].
    intros i' j' Hj' Hsc. apply cell_le_min; try done.
    unfold scanned_before in Hsc. lia.
Qed.

(** ** Phase 4: the traceback walk terminates *)

Section Traceback_Termination.
Context (sc : SCORE) (g : CSR_char_container).
Context (read : string) (j0 reducedWidth : nat).
Context (completeMatrixLog : list (list Z)).

Local Notation body := (tb_body sc g read j0 reducedWidth completeMatrixLog).
Local Notation loop := (tb_loop sc g read j0 reducedWidth completeMatrixLog).

Lemma tb_fromMatch_pos above ms pos :
  (tb_fromMatch g j0 above ms pos).2 = pos
  ∨ (tb_fromMatch g j0 above ms pos).2 ∈ getNeighborOffsets g pos.
Proof.
  unfold tb_fromMatch.
  set (F := λ '(fromMatch, fromMatchPos) k, _).
  enough (∀ l init, l ⊆ getNeighborOffsets g pos →
            (init.2 = pos ∨ init.2 ∈ getNeighborOffsets g pos) →
            (foldl F init l).2 = pos
            ∨ (foldl F init l).2 ∈ getNeighborOffsets g pos) as Hgen.
  { apply Hgen; [done | by left]. }
  induction l as [|k l IH]; intros [fm fp] Hsub Hinit; simpl; [done |].
  apply IH; [set_solver |].
  destruct (_ && _); simpl; [right; set_solver | done].
Qed.

Lemma tb_fromDeletion_pos cur pos k :
  (tb_fromDeletion sc g j0 cur pos).2 = Some k →
  k ∈ getNeighborOffsets g pos.
Proof.
  unfold tb_fromDeletion.
  set (F := λ '(fromDeletion, fromDeletionPos) k, _).
  enough (∀ l init, l ⊆ getNeighborOffsets g pos →
            (∀ k, init.2 = Some k → k ∈ getNeighborOffsets g pos) →
            (foldl F init l).2 = Some k →
            k ∈ getNeighborOffsets g pos) as Hgen.
  { apply Hgen; [done | done]. }
  induction l as [|x l IH]; intros [fd fp] Hsub Hinit; simpl; [by apply Hinit |].
  apply IH; [set_solver |].
  destruct (_ && _); simpl; [| done].
  intros k' [= <-]. set_solver.
Qed.

(** Each pass that continues moves to a smaller column, a smaller row, or
    both. *)
Lemma tb_body_continue pos row cur cigar pos' row' cur' cigar' :
  topo_sorted g → (pos < numVertices g)%nat →
  body pos row cur cigar = TB_continue pos' row' cur' cigar' →
  (pos' < pos)%nat ∧ row' = Z.of_nat row - 1
  ∨ (pos' < pos)%nat ∧ row' = Z.of_nat row
  ∨ pos' = pos ∧ row' = Z.of_nat row - 1.
Proof.
  intros Htopo Hpos. unfold tb_body.
  destruct (_ <=? 0); [done |].
  pose proof (tb_fromMatch_pos (aboveRow reducedWidth completeMatrixLog cur row)
    (matchScore sc (curChar g pos) (char_at read row)) pos) as HM.
  destruct (tb_fromMatch _ _ _ _ _) as [fm fmp].
  pose proof (tb_fromDeletion_pos cur pos) as HD.
  destruct (tb_fromDeletion _ _ _ _ _) as [fd fdp].
  simpl in HM, HD.
  destruct (_ =? fm).
  - destruct (Nat.eqb_spec fmp pos) as [-> | Hne]; [done |].
    intros [= <- <- <- <-]. left. split; [| done].
    destruct HM as [-> | HM]; [done |]. by apply (Htopo pos).
  - destruct (_ =? fd).
    + destruct fdp as [k |]; [| done].
      intros [= <- <- <- <-]. right; left. split; [| done].
      apply (Htopo pos); [done |]. by apply HD.
    + destruct (_ =? _); [| done].
      intros [= <- <- <- <-]. right; right. done.
Qed.

Lemma tb_loop_terminates n :
  topo_sorted g →
  ∀ pos row cur cigar,
    (pos < numVertices g)%nat → -1 ≤ row →
    (pos + Z.to_nat (row + 1) ≤ n)%nat →
    ∃ r, r ≠ TB_out_of_fuel ∧
         ∀ fuel, (n < fuel)%nat → loop fuel pos row cur cigar = r.
Proof.
  intros Htopo. induction n as [n IH] using lt_wf_ind.
  intros pos row cur cigar Hpos Hrow Hn.
  destruct ((0 <=? Z.of_nat pos - Z.of_nat j0) && (0 <=? row)) eqn:Eg.
  - destruct (body pos (Z.to_nat row) cur cigar) as [c | pos' row' cur' c | r] eqn:Eb.
    + exists (TB_cigar c). split; [done |].
      intros [|fuel] Hf; [lia |]. simpl. by rewrite Eg, Eb.
    + pose proof Eg as Eg'. apply andb_prop in Eg' as [_ Hr%Z.leb_le].
      apply tb_body_continue in Eb as Hstep; [| done | done].
      rewrite Z2Nat.id in Hstep by done.
      assert (pos' + Z.to_nat (row' + 1) < pos + Z.to_nat (row + 1))%nat
        as Hdec by lia.
      destruct (IH (pos' + Z.to_nat (row' + 1))%nat ltac:(lia)
                   pos' row' cur' c ltac:(lia) ltac:(lia) ltac:(lia))
        as (r & Hr' & Hfuel).
      exists r. split; [done |].
      intros [|fuel] Hf; [lia |]. simpl. rewrite Eg, Eb.
      apply Hfuel. lia.
    + destruct r.
      * exists (TB_cigar cigar0). split; [done |].
        intros [|fuel] Hf; [lia |]. simpl. by rewrite Eg, Eb.
      * exists TB_assert_failed. split; [done |].
        intros [|fuel] Hf; [lia |]. simpl. by rewrite Eg, Eb.
      * exists TB_unset_position. split; [done |].
        intros [|fuel] Hf; [lia |]. simpl. by rewrite Eg, Eb.
      * exfalso. unfold tb_body in Eb.
        repeat (lazymatch type of Eb with
                | context [if ?c then _ else _] => destruct c
                | context [let '(_, _) := ?p in _] => destruct p
                | context [match ?o with Some _ => _ | None => _ end] => destruct o
                end; try done).
  - exists (TB_cigar cigar). split; [done |].
    intros [|fuel] Hf; [lia |]. simpl. by rewrite Eg.
Qed.

End Traceback_Termination.

(** C10.  On a topologically sorted graph the traceback loop of Phase 4
    terminates from every state: started at column [pos] and row [row],
    it returns the same result, which is not "out of fuel", for every
    fuel above [pos + row + 1]; each pass that continues goes to a
    strictly smaller column or a strictly smaller row. *)
Theorem traceback_terminates sc g read j0 reducedWidth log pos row cur cigar :
  topo_sorted g → (pos < numVertices g)%nat → -1 ≤ row →
  ∃ r, r ≠ TB_out_of_fuel ∧
       ∀ fuel, (pos + Z.to_nat (row + 1) < fuel)%nat →
               tb_loop sc g read j0 reducedWidth log fuel pos row cur cigar = r.
Proof.
  intros Htopo Hpos Hrow.
  by apply (tb_loop_terminates sc g read j0 reducedWidth log
              (pos + Z.to_nat (row + 1)) Htopo).
Qed.

(** ** Phase 3: the slab obeys the same recurrence *)

Lemma foldl_guarded_max (P : nat → bool) (f : nat → Z) (l : list nat) (a : Z) :
  foldl (λ acc k, if P k then Z.max acc (f k) else acc) a l
  = max_of a (f <$> filter (λ k, P k = true) l).
Proof.
  unfold max_of. revert a. induction l as [|k l IH]; intros a; simpl; [done |].
  rewrite filter_cons. destruct (P k) eqn:E.
  - rewrite decide_True by done. simpl. apply IH.
  - rewrite decide_False by congruence. apply IH.
Qed.

Lemma filter_leb_le j0 (l : list nat) :
  filter (λ k, (j0 <=? k)%nat = true) l = filter (λ k, (j0 ≤ k)%nat) l.
Proof.
  apply list_filter_iff. intros k. apply Nat.leb_le.
Qed.

Section Phase3_Slab.
Context (sc : SCORE) (g : CSR_char_container).
Context (read : string) (j0 w h : nat).

Local Notation before := (phase3_before sc g read j0 w h).
Local Notation rows := (phase3_rows sc g read j0 w h).
Local Notation S3 := (slab_cell sc g read j0 w h).
Local Notation up := (up_slab sc g read j0 w h).

Lemma phase3_before_0 i : before i 0%nat = rows i.
Proof. done. Qed.

Lemma phase3_before_S i j :
  before i (S j) = phase3_cell sc g read j0 i (before i j) j.
Proof. unfold phase3_before. by rewrite seq_S, foldl_snoc. Qed.

Lemma phase3_rows_S i : rows (S i) = before i w.
Proof. unfold phase3_rows at 1. by rewrite seq_S, foldl_snoc. Qed.

Lemma phase3_cell_matrix i st j :
  (phase3_cell sc g read j0 i st j).1 =
  mset st.1 (cur_row i) j (phase3_value sc g read j0 st.1 i j).
Proof. by destruct st. Qed.

Lemma phase3_cell_log i st j :
  (phase3_cell sc g read j0 i st j).2 =
  let m' := mset st.1 (cur_row i) j (phase3_value sc g read j0 st.1 i j) in
  mset st.2 i j (int8 (mget m' (cur_row i) j - mget m' (prev_row i) j)).
Proof. by destruct st. Qed.

(** Induction along the scan order of Phase 3. *)
Lemma scan3_ind (P : nat → nat → Prop) :
  P 0%nat 0%nat →
  (∀ i j, (j < w)%nat → P i j → P i (S j)) →
  (∀ i, P i w → P (S i) 0%nat) →
  ∀ i j, (j ≤ w)%nat → P i j.
Proof.
  intros H0 Hstep Hrow. induction i as [|i IHi].
  - induction j as [|j IHj]; intros Hj; [done |].
    apply Hstep; [lia | apply IHj; lia].
  - induction j as [|j IHj]; intros Hj.
    + apply Hrow, IHi. lia.
    + apply Hstep; [lia | apply IHj; lia].
Qed.

Lemma wf3_before i j :
  (j ≤ w)%nat →
  wf_matrix 2 w (before i j).1 ∧ wf_matrix h w (before i j).2.
Proof.
  revert i j. apply scan3_ind.
  - split; apply wf_matrix_zero.
  - intros i j Hj [IH1 IH2].
    rewrite phase3_before_S, phase3_cell_matrix, phase3_cell_log.
    split; by apply wf_matrix_mset.
  - intros i IH. by rewrite phase3_before_0, phase3_rows_S.
Qed.

Lemma slab_before_cur_row i j c :
  (c < j)%nat → mget (before i j).1 (cur_row i) c = S3 i c.
Proof.
  induction j as [|j IHj]; intros Hc; [lia |].
  rewrite phase3_before_S, phase3_cell_matrix.
  destruct (decide (c = j)) as [-> | Hne].
  - unfold slab_cell. by rewrite phase3_before_S, phase3_cell_matrix.
  - rewrite mget_mset_ne by (right; congruence). apply IHj. lia.
Qed.

Lemma slab_before_prev_row i j c :
  mget (before i j).1 (prev_row i) c = mget (rows i).1 (prev_row i) c.
Proof.
  induction j as [|j IHj]; [done |].
  rewrite phase3_before_S, phase3_cell_matrix.
  rewrite mget_mset_ne; [apply IHj |].
  left. intros E. by apply (prev_row_ne i).
Qed.

Lemma slab_rows_prev_row i c :
  (c < w)%nat → mget (rows i).1 (prev_row i) c = up i c.
Proof.
  intros Hc. destruct i as [|i]; unfold up_slab.
  - apply mget_zero; [apply prev_row_lt | done].
  - rewrite prev_row_S, phase3_rows_S. by apply slab_before_cur_row.
Qed.

Lemma slab_value i j :
  (j < w)%nat → S3 i j = phase3_value sc g read j0 (before i j).1 i j.
Proof.
  intros Hj. unfold slab_cell.
  rewrite phase3_before_S, phase3_cell_matrix.
  apply (mget_mset_eq 2 w); [apply wf3_before; lia | apply cur_row_lt | done].
Qed.

(** Slab columns of the predecessors are left of the column itself. *)
Lemma slab_preds_lt j p :
  topo_sorted g → (j0 + j < numVertices g)%nat →
  p ∈ slab_preds g j0 j →
  (p < j)%nat ∧ (j0 + p)%nat ∈ in_neighbors g (j0 + j).
Proof.
  intros Htopo Hj. unfold slab_preds.
  rewrite list_elem_of_fmap. intros (k & -> & Hk).
  apply list_elem_of_filter in Hk as [Hle Hk].
  specialize (Htopo _ _ Hj Hk).
  replace (j0 + (k - j0))%nat with k by lia. split; [lia | done].
Qed.

Lemma slab_recurrence i j :
  topo_sorted g → (j < w)%nat → (j0 + j < numVertices g)%nat →
  S3 i j = sw_recurrence sc (sub_score sc g read i (j0 + j))
             (slab_preds g j0 j) (up i) (S3 i) j.
Proof.
  intros Htopo Hj HjV. rewrite slab_value by done.
  rewrite sw_recurrence_unfold. unfold phase3_value.
  rewrite !foldl_guarded_max, !filter_leb_le.
  unfold getNeighborOffsets, matchScore, curChar, sub_score, slab_preds.
  replace (-1 * score_mismatch sc) with (- score_mismatch sc) by lia.
  set (ms := if Ascii.eqb _ _ then _ else _).
  rewrite <- !list_fmap_compose.
  rewrite slab_before_prev_row, slab_rows_prev_row by done.
  f_equal; [f_equal |].
  - f_equal. apply list_fmap_ext. intros n k Hk. simpl.
    apply list_elem_of_lookup_2, list_elem_of_filter in Hk as [Hle Hk].
    specialize (Htopo _ _ HjV Hk).
    rewrite slab_before_prev_row, slab_rows_prev_row; [done | lia].
  - f_equal. f_equal. apply list_fmap_ext. intros n k Hk. simpl.
    apply list_elem_of_lookup_2, list_elem_of_filter in Hk as [Hle Hk].
    specialize (Htopo _ _ HjV Hk).
    rewrite slab_before_cur_row; [done | lia].
Qed.

Lemma slab_nonneg i j : (j < w)%nat → 0 ≤ S3 i j.
Proof. intros Hj. rewrite slab_value by done. unfold phase3_value. lia. Qed.

Lemma up_slab_nonneg i j : (j < w)%nat → 0 ≤ up i j.
Proof. intros Hj. destruct i as [|i]; [done |]. by apply slab_nonneg. Qed.

(** The rows of the log, once written, stay. *)
Lemma log_written i j :
  (j ≤ w)%nat →
  ∀ i' j', (i' < h)%nat → (j' < w)%nat →
    ((i' < i)%nat ∨ (i' = i ∧ j' < j)%nat) →
    mget (before i j).2 i' j' = int8 (S3 i' j' - up i' j').
Proof.
  revert i j. apply (scan3_ind (λ i j, ∀ i' j', (i' < h)%nat → (j' < w)%nat →
    ((i' < i)%nat ∨ (i' = i ∧ j' < j)%nat) →
    mget (before i j).2 i' j' = int8 (S3 i' j' - up i' j'))).
  - intros i' j' _ _ [? | [_ ?]]; lia.
  - intros i j Hj IH i' j' Hi' Hj' Hsc.
    rewrite phase3_before_S, phase3_cell_log. cbv zeta.
    destruct (decide (i' = i ∧ j' = j)) as [[-> ->] | Hne].
    + rewrite (mget_mset_eq h w); [| apply wf3_before; lia | done | done].
      rewrite (mget_mset_eq 2 w); [| apply wf3_before; lia | apply cur_row_lt | done].
      rewrite mget_mset_ne by (left; intros E; by apply (prev_row_ne i)).
      rewrite slab_before_prev_row, slab_rows_prev_row by done.
      by rewrite <- slab_value.
    + rewrite mget_mset_ne by (destruct (decide (i = i')); [right | left]; naive_solver).
      apply IH; [done | done | lia].
  - intros i IH i' j' Hi' Hj' [Hlt | [_ ?]]; [| lia].
    rewrite phase3_before_0, phase3_rows_S. apply IH; [done | done | lia].
Qed.

End Phase3_Slab.

(** ** The recurrence as a least upper bound *)

Section Recurrence_Facts.
Context (sc : SCORE) (sub : Z) (preds : list nat) (up row : nat → Z) (v : nat).

Local Notation R := (sw_recurrence sc sub preds up row v).

Lemma sw_recurrence_elem y :
  y ∈ sub :: ((λ p, up p + sub) <$> preds)
         ++ ((λ p, row p - score_del sc) <$> preds) ++ [up v - score_ins sc]
  ↔ y = sub ∨ (∃ p, p ∈ preds ∧ y = up p + sub)
    ∨ (∃ p, p ∈ preds ∧ y = row p - score_del sc) ∨ y = up v - score_ins sc.
Proof.
  rewrite elem_of_cons, !elem_of_app, !list_elem_of_fmap, list_elem_of_singleton.
  naive_solver.
Qed.

Lemma sw_recurrence_nonneg : 0 ≤ R.
Proof. apply max_of_ge_head. Qed.

Lemma sw_recurrence_ge_sub : sub ≤ R.
Proof. apply max_of_ge, sw_recurrence_elem. by left. Qed.

Lemma sw_recurrence_ge_match p : p ∈ preds → up p + sub ≤ R.
Proof. intros Hp. apply max_of_ge, sw_recurrence_elem. right; left. eauto. Qed.

Lemma sw_recurrence_ge_del p : p ∈ preds → row p - score_del sc ≤ R.
Proof.
  intros Hp. apply max_of_ge, sw_recurrence_elem. right; right; left. eauto.
Qed.

Lemma sw_recurrence_ge_ins : up v - score_ins sc ≤ R.
Proof. apply max_of_ge, sw_recurrence_elem. by do 3 right. Qed.

Lemma sw_recurrence_le B :
  0 ≤ B → sub ≤ B →
  (∀ p, p ∈ preds → up p + sub ≤ B) →
  (∀ p, p ∈ preds → row p - score_del sc ≤ B) →
  up v - score_ins sc ≤ B →
  R ≤ B.
Proof.
  intros H0 Hs Hm Hd Hi. apply max_of_le; [done |].
  intros y Hy. apply sw_recurrence_elem in Hy.
  destruct Hy as [-> | [(p & Hp & ->) | [(p & Hp & ->) | ->]]]; auto.
Qed.

Lemma sw_recurrence_cases :
  R = 0 ∨ R = sub ∨ (∃ p, p ∈ preds ∧ R = up p + sub)
  ∨ (∃ p, p ∈ preds ∧ R = row p - score_del sc) ∨ R = up v - score_ins sc.
Proof.
  destruct (max_of_attained
    (sub :: ((λ p, up p + sub) <$> preds)
         ++ ((λ p, row p - score_del sc) <$> preds) ++ [up v - score_ins sc]) 0)
    as [E | E].
  - by left.
  - right. by apply sw_recurrence_elem in E.
Qed.

End Recurrence_Facts.

(** ** Phase 3 against Phase 1 *)

Section Slab_vs_Full.
Context (sc : SCORE) (g : CSR_char_container).
Context (read : string) (best0 : BestScoreInfo) (j0 w h : nat).
Context (Htopo : topo_sorted g).

Local Notation V := (numVertices g).
Local Notation H := (cell sc g read best0).
Local Notation upH := (up_row sc g read best0).
Local Notation S3 := (slab_cell sc g read j0 w h).
Local Notation upS := (up_slab sc g read j0 w h).

Lemma cell_recurrence i c :
  (c < V)%nat →
  H i c = sw_recurrence sc (sub_score sc g read i c) (in_neighbors g c)
            (upH i) (H i) c.
Proof.
  intros Hc. rewrite cell_value by done. by apply phase1_value_recurrence.
Qed.

(** Restricting the predecessors can only lower a cell. *)
Lemma slab_le_full i :
  ∀ j, (j < w)%nat → (j0 + j < V)%nat → S3 i j ≤ H i (j0 + j).
Proof.
  induction i as [|i IHi]; intros j; induction (lt_wf j) as [j _ IHj];
    intros Hj HjV;
    rewrite slab_recurrence, (cell_recurrence _ (j0 + j)) by done;
    (apply sw_recurrence_le;
     [ apply sw_recurrence_nonneg
     | apply sw_recurrence_ge_sub
     | intros p Hp; apply slab_preds_lt in Hp as [Hlt Hin]; [| done | done];
       etrans; [| apply sw_recurrence_ge_match, Hin]
     | intros p Hp; apply slab_preds_lt in Hp as [Hlt Hin]; [| done | done];
       etrans; [| apply sw_recurrence_ge_del, Hin];
       specialize (IHj p Hlt ltac:(lia) ltac:(lia)); lia
     | etrans; [| apply sw_recurrence_ge_ins] ]).
  - done.
  - done.
  - unfold up_slab, up_row. specialize (IHi p ltac:(lia) ltac:(lia)). lia.
  - unfold up_slab, up_row. specialize (IHi j Hj HjV). lia.
Qed.

Context (Hmatch : 0 ≤ score_match sc) (Hmismatch : 0 ≤ score_mismatch sc).
Context (Hins : 0 ≤ score_ins sc) (Hdel : 0 < score_del sc).

Local Notation need := (columns_needed sc g read best0).

Lemma back_path_le v0 s c :
  (v0 < V)%nat → back_path g v0 s c → (c ≤ v0)%nat.
Proof.
  intros Hv. induction 1 as [|s c p _ IH Hp]; [done |].
  specialize (Htopo c p ltac:(lia) Hp). lia.
Qed.

Lemma columns_needed_ge i c : (c < V)%nat → Z.of_nat (S i) ≤ need i c.
Proof.
  intros Hc. unfold columns_needed.
  destruct (cell_upper sc g read best0 Htopo Hmatch Hmismatch Hins
              ltac:(lia) i c Hc) as [Hr _].
  assert (0 ≤ (Z.of_nat (S i) * score_match sc - H i c) / score_del sc)
    by (apply Z.div_pos; lia).
  lia.
Qed.

(** A match step up and left needs one column less. *)
Lemma columns_needed_match i c p :
  H (S i) c ≤ H i p + score_match sc → need i p ≤ need (S i) c - 1.
Proof.
  intros Hle. unfold columns_needed.
  assert ((Z.of_nat (S i) * score_match sc - H i p) / score_del sc
          ≤ (Z.of_nat (S (S i)) * score_match sc - H (S i) c) / score_del sc)
    by (apply Z.div_le_mono; lia).
  lia.
Qed.

(** A deletion step left needs one column less. *)
Lemma columns_needed_del i c p :
  H i c = H i p - score_del sc → need i p = need i c - 1.
Proof.
  intros E. unfold columns_needed. rewrite E.
  replace (Z.of_nat (S i) * score_match sc - H i p)
    with (Z.of_nat (S i) * score_match sc - (H i p - score_del sc)
          + (-1) * score_del sc) by lia.
  rewrite Z.div_add by lia. lia.
Qed.

(** An insertion step up needs no more columns. *)
Lemma columns_needed_ins i c :
  H (S i) c = H i c - score_ins sc → need i c ≤ need (S i) c - 1.
Proof.
  intros E. unfold columns_needed.
  assert ((Z.of_nat (S i) * score_match sc - H i c) / score_del sc
          ≤ (Z.of_nat (S (S i)) * score_match sc - H (S i) c) / score_del sc)
    by (apply Z.div_le_mono; lia).
  lia.
Qed.

Context (v0 maxHops : nat).
Context (Hv0 : (v0 < V)%nat) (Hw : w = (v0 - j0 + 1)%nat).
Context (Hleft : ∀ s c, back_path g v0 s c → (s + 1 ≤ maxHops)%nat → (j0 ≤ c)%nat).

Lemma slab_pred_in c p :
  (j0 ≤ c)%nat → (j0 ≤ p)%nat → p ∈ in_neighbors g c →
  (p - j0)%nat ∈ slab_preds g j0 (c - j0).
Proof.
  intros Hc Hp Hin. unfold slab_preds. apply list_elem_of_fmap.
  exists p. split; [done |]. apply list_elem_of_filter. split; [done |].
  by replace (j0 + (c - j0))%nat with c by lia.
Qed.

Lemma slab_covers_pre r c s :
  back_path g v0 s c →
  Z.of_nat s + need r c ≤ Z.of_nat maxHops →
  (c ≤ v0)%nat ∧ (j0 ≤ c)%nat ∧ (c - j0 < w)%nat ∧ (j0 + (c - j0) = c)%nat
  ∧ S3 r (c - j0) ≤ H r c.
Proof.
  intros Hpath Hbudget.
  pose proof (back_path_le _ _ _ Hv0 Hpath) as Hcv.
  pose proof (columns_needed_ge r c ltac:(lia)) as Hn.
  assert (j0 ≤ c)%nat as Hjc by (apply (Hleft s c Hpath); lia).
  assert (c - j0 < w)%nat as Hjw by lia.
  assert (j0 + (c - j0) = c)%nat as Ec by lia.
  repeat split; try done.
  pose proof (slab_le_full r (c - j0)%nat Hjw ltac:(lia)) as Hle.
  by rewrite Ec in Hle.
Qed.

(** Inside the column budget the slab holds the cells of the full
    matrix. *)
Lemma slab_covers i :
  ∀ c s, back_path g v0 s c →
         Z.of_nat s + need i c ≤ Z.of_nat maxHops →
         S3 i (c - j0) = H i c.
Proof.
  induction i as [|i IHi]; intros c; induction (lt_wf c) as [c _ IHc];
    intros s Hpath Hbudget.
  all: destruct (slab_covers_pre _ c s Hpath Hbudget)
         as (Hcv & Hjc & Hjw & Ec & Hle).
  all: apply Z.le_antisymm; [done |].
  - (* first row *)
    rewrite slab_recurrence by (done || lia). rewrite Ec.
    set (RS := sw_recurrence _ _ (slab_preds _ _ _) _ _ _).
    pose proof (cell_recurrence 0 c ltac:(lia)) as EH.
    destruct (sw_recurrence_cases sc (sub_score sc g read 0 c) (in_neighbors g c)
                (upH 0) (H 0) c) as [E | [E | [(p & Hp & E) | [(p & Hp & E) | E]]]];
      rewrite <- EH in E; rewrite E.
    + apply sw_recurrence_nonneg.
    + apply sw_recurrence_ge_sub.
    + simpl. apply sw_recurrence_ge_sub.
    + pose proof (Htopo c p ltac:(lia) Hp) as Hpc.
      assert (back_path g v0 (S s) p) as Hpath' by (by eapply back_path_step).
      pose proof (columns_needed_ge 0 p ltac:(lia)) as Hnp.
      pose proof (columns_needed_del 0 c p E) as Hnd.
      assert (j0 ≤ p)%nat as Hjp by (apply (Hleft (S s) p Hpath'); lia).
      rewrite <- (IHc p Hpc (S s) Hpath' ltac:(lia)).
      apply (sw_recurrence_ge_del sc _ (slab_preds g j0 (c - j0)) _ (S3 0)).
      by apply slab_pred_in.
    + simpl. pose proof (sw_recurrence_nonneg sc (sub_score sc g read 0 c)
        (slab_preds g j0 (c - j0)) (upS 0) (S3 0) (c - j0)%nat) as Hnn.
      fold RS in Hnn. lia.
  - (* later rows *)
    rewrite slab_recurrence by (done || lia). rewrite Ec.
    pose proof (cell_recurrence (S i) c ltac:(lia)) as EH.
    destruct (sw_recurrence_cases sc (sub_score sc g read (S i) c) (in_neighbors g c)
                (upH (S i)) (H (S i)) c) as [E | [E | [(p & Hp & E) | [(p & Hp & E) | E]]]];
      rewrite <- EH in E; rewrite E.
    + apply sw_recurrence_nonneg.
    + apply sw_recurrence_ge_sub.
    + pose proof (Htopo c p ltac:(lia) Hp) as Hpc.
      assert (back_path g v0 (S s) p) as Hpath' by (by eapply back_path_step).
      pose proof (columns_needed_ge i p ltac:(lia)) as Hnp.
      pose proof (sub_score_le sc g read Hmatch Hmismatch (S i) c) as Hsub.
      unfold up_row in E |- *.
      pose proof (columns_needed_match i c p ltac:(lia)) as Hnm.
      assert (j0 ≤ p)%nat as Hjp by (apply (Hleft (S s) p Hpath'); lia).
      rewrite <- (IHi p (S s) Hpath' ltac:(lia)).
      apply (sw_recurrence_ge_match sc _ (slab_preds g j0 (c - j0)) (upS (S i))).
      by apply slab_pred_in.
    + pose proof (Htopo c p ltac:(lia) Hp) as Hpc.
      assert (back_path g v0 (S s) p) as Hpath' by (by eapply back_path_step).
      pose proof (columns_needed_ge (S i) p ltac:(lia)) as Hnp.
      pose proof (columns_needed_del (S i) c p E) as Hnd.
      assert (j0 ≤ p)%nat as Hjp by (apply (Hleft (S s) p Hpath'); lia).
      rewrite <- (IHc p Hpc (S s) Hpath' ltac:(lia)).
      apply (sw_recurrence_ge_del sc _ (slab_preds g j0 (c - j0)) _ (S3 (S i))).
      by apply slab_pred_in.
    + unfold up_row in E |- *.
      pose proof (columns_needed_ins i c E) as Hni.
      rewrite <- (IHi c s Hpath ltac:(lia)).
      apply (sw_recurrence_ge_ins sc _ (slab_preds g j0 (c - j0)) (upS (S i))).
Qed.

End Slab_vs_Full.

(** ** Phase 2: the left-most reachable vertex *)

Section LeftMost.
Context (g : CSR_char_container).

Local Notation path_from := (path_from g).

Lemma path_from_snoc v s c p :
  path_from v s c → p ∈ in_neighbors g c → path_from v (S s) p.
Proof.
  induction 1 as [c | v q s c Hq _ IH]; intros Hp.
  - eapply path_from_step; [done | constructor].
  - eapply path_from_step; [done | by apply IH].
Qed.

Lemma back_path_from v s c : back_path g v s c → path_from v s c.
Proof.
  induction 1 as [| s c p _ IH Hp]; [constructor |].
  by eapply path_from_snoc.
Qed.

Lemma reach_back_frontier F n c : c ∈ F → c ∈ reach_back g F n.
Proof. destruct n; simpl; set_solver. Qed.

Lemma reach_back_path v s c :
  path_from v s c →
  ∀ F n, v ∈ F → (s ≤ n)%nat → c ∈ reach_back g F n.
Proof.
  induction 1 as [c | v p s c Hp _ IH]; intros F n HF Hn.
  - by apply reach_back_frontier.
  - destruct n as [|n]; [lia |]. simpl.
    apply elem_of_app. right. apply IH; [| lia].
    apply list_elem_of_bind. eauto.
Qed.

Lemma foldr_min_le (l : list nat) (v : nat) :
  (foldr Nat.min v l ≤ v)%nat ∧ ∀ c, c ∈ l → (foldr Nat.min v l ≤ c)%nat.
Proof.
  induction l as [|x l [IH1 IH2]]; simpl.
  - split; [done |]. intros c Hc. by apply elem_of_nil in Hc.
  - split; [lia |]. intros c [-> | Hc]%elem_of_cons; [lia |].
    specialize (IH2 c Hc). lia.
Qed.

Lemma leftMost_le_start v maxHops :
  (computeLeftMostReachableVertex g v maxHops ≤ v)%nat.
Proof.
  unfold computeLeftMostReachableVertex.
  by destruct (foldr_min_le (reach_back g [v] (maxHops - 1)) v).
Qed.

(** No vertex on a backward path of at most [maxHops] characters lies
    left of the result. *)
Lemma leftMost_le_path v maxHops s c :
  back_path g v s c → (s + 1 ≤ maxHops)%nat →
  (computeLeftMostReachableVertex g v maxHops ≤ c)%nat.
Proof.
  intros Hpath Hs. unfold computeLeftMostReachableVertex.
  destruct (foldr_min_le (reach_back g [v] (maxHops - 1)) v) as [_ Hmin].
  apply Hmin.
  apply (reach_back_path v s c); [by apply back_path_from | set_solver | lia].
Qed.

End LeftMost.

(** ** Phase 1: where the best score comes from *)

Section Phase1_Best.
Context (sc : SCORE) (g : CSR_char_container).
Context (read : string) (best0 : BestScoreInfo).

Local Notation W := (numVertices g).
Local Notation before := (phase1_before sc g read best0).
Local Notation H := (cell sc g read best0).

Lemma phase1_best_cases i j :
  (j ≤ W)%nat →
  (before i j).2 = best0
  ∨ ∃ i' j', scanned_before i' j' i j ∧ (j' < W)%nat
             ∧ (before i j).2 = {| score := H i' j'; vid := j';
                                   vertexSeqOffset := 0; refColumn := j';
                                   qryRow := i' |}.
Proof.
  revert i j. apply scan_ind.
  - by left.
  - intros i j Hj IH.
    rewrite phase1_before_S, phase1_cell_best, <- cell_value by done.
    destruct (_ <? _).
    + right. exists i, j. split; [right; lia | done].
    + destruct IH as [IH | (i' & j' & Hsc & Hj' & IH)]; [by left |].
      right. exists i', j'. split; [| done].
      destruct Hsc as [? | [-> ?]]; [by left | right; lia].
  - intros i IH. rewrite phase1_before_0, phase1_rows_S.
    destruct IH as [IH | (i' & j' & Hsc & Hj' & IH)]; [by left |].
    right. exists i', j'. split; [| done].
    destruct Hsc as [? | [-> ?]]; left; lia.
Qed.

End Phase1_Best.

(** The end point Phase 1 reports, started from [best_init]. *)
Lemma phase1_best_spec sc g read :
  (0 < numVertices g)%nat → (0 < String.length read)%nat →
  let best := alignToDAGLocal_Phase1_Score sc g read best_init in
  (qryRow best < String.length read)%nat ∧ (vid best < numVertices g)%nat
  ∧ refColumn best = vid best
  ∧ cell sc g read best_init (qryRow best) (vid best) = score best
  ∧ ∀ i c, (i < String.length read)%nat → (c < numVertices g)%nat →
           cell sc g read best_init i c ≤ score best.
Proof.
  intros HW HL best.
  assert (best = (phase1_before sc g read best_init (String.length read) 0).2)
    as Eb by done.
  destruct (best_ge_cells sc g read best_init (String.length read) 0 ltac:(lia))
    as [Hge0 Hge].
  rewrite <- Eb in Hge0, Hge.
  assert (∀ i c, (i < String.length read)%nat → (c < numVertices g)%nat →
                 cell sc g read best_init i c ≤ score best)
    as Hall by (intros i c Hi Hc; apply Hge; [done | by left]).
  destruct (phase1_best_cases sc g read best_init (String.length read) 0 ltac:(lia))
    as [E | (i' & j' & Hsc & Hj' & E)]; rewrite <- Eb in E.
  - specialize (Hall 0%nat 0%nat HL HW) as H00.
    pose proof (cell_nonneg sc g read best_init 0 0 HW).
    rewrite E in *. simpl in *. repeat split; try done. lia.
  - destruct Hsc as [Hi' | [_ ?]]; [| lia].
    rewrite E in *. simpl. repeat split; done.
Qed.

(** ** Phase 3 reproduces the best score *)

Lemma max_element_unique (l : list Z) (m : Z) :
  m ∈ l → (∀ y, y ∈ l → y ≤ m) → max_element l = m.
Proof.
  destruct l as [|x t]; intros Hin Hle; [by apply elem_of_nil in Hin |].
  simpl. apply max_of_unique.
  - apply elem_of_cons in Hin as [-> | Hin]; [by left | by right].
  - apply Hle. by left.
  - intros y Hy. apply Hle. by right.
Qed.

Lemma phase3_finalRow sc g read best u :
  let w := totalRefLength_between u (vid best) in
  let h := (qryRow best + 1)%nat in
  let r := alignToDAGLocal_Phase3 sc g read best u in
  length (finalRow r) = w
  ∧ ∀ j, (j < w)%nat →
         finalRow r !!! j = slab_cell sc g read u w h (qryRow best) j.
Proof.
  intros w h r. subst r. unfold alignToDAGLocal_Phase3. simpl.
  fold w. fold h.
  replace (h - 1)%nat with (qryRow best) by (unfold h; lia).
  replace (phase3_rows sc g read u w h h)
    with (phase3_before sc g read u w h (qryRow best) w)
    by (unfold h; by rewrite Nat.add_1_r, phase3_rows_S).
  destruct (wf3_before sc g read u w h (qryRow best) w ltac:(lia)) as [[_ Hlen] _].
  split; [apply Hlen, cur_row_lt |].
  intros j Hj. by apply slab_before_cur_row.
Qed.

Lemma ceil_div_ge a b : 0 < b → a / b ≤ ceil_div a b.
Proof. intros Hb. unfold ceil_div. apply Z.div_le_mono; lia. Qed.

(** The two assertions of Phase 3, on the Phase-1 result. *)
Lemma phase3_recomputed sc g read :
  topo_sorted g → (0 < numVertices g)%nat → (0 < String.length read)%nat →
  0 ≤ score_match sc → 0 ≤ score_mismatch sc →
  0 ≤ score_ins sc → 0 < score_del sc →
  let best := alignToDAGLocal_Phase1_Score sc g read best_init in
  let leftMostReachable :=
    computeLeftMostReachableVertex g (vid best) (maxDistance sc read) in
  let r := alignToDAGLocal_Phase3 sc g read best leftMostReachable in
  bestScoreReComputed r = score best
  ∧ bestScoreReComputed r = finalRow r !!! (refColumn best - p3_j0 r)%nat
  ∧ phase3_asserts best r = true.
Proof.
  intros Htopo HV HL Hm Hmm Hi Hd best u r.
  destruct (phase1_best_spec sc g read HV HL)
    as (Hq & Hv & Href & Hbest & Hall).
  fold best in Hq, Hv, Href, Hbest, Hall.
  pose proof (leftMost_le_start g (vid best) (maxDistance sc read)) as Hu.
  fold u in Hu.
  destruct (phase3_finalRow sc g read best u) as [Hlen Hrow].
  fold r in Hlen, Hrow.
  set (w := totalRefLength_between u (vid best)) in *.
  set (h := (qryRow best + 1)%nat) in *.
  assert (w = (vid best - u + 1)%nat) as Ew by done.
  (* the end point keeps its score in the slab *)
  assert (finalRow r !!! (vid best - u)%nat = score best) as Hend.
  { rewrite Hrow by lia. rewrite <- Hbest.
    apply (slab_covers sc g read best_init u w h Htopo Hm Hmm Hi Hd
             (vid best) (maxDistance sc read) Hv Ew) with (s := 0%nat).
    - intros s c Hp Hs. by apply leftMost_le_path with (s := s).
    - constructor.
    - unfold columns_needed, maxDistance. rewrite Hbest.
      pose proof (cell_nonneg sc g read best_init (qryRow best) (vid best) Hv) as Hnn.
      rewrite Hbest in Hnn.
      set (L := String.length read) in *.
      assert ((Z.of_nat (S (qryRow best)) * score_match sc - score best)
                / score_del sc
              ≤ ceil_div (Z.of_nat L * score_match sc) (score_del sc)) as Hdiv.
      { etrans; [| by apply ceil_div_ge]. apply Z.div_le_mono; [lia | nia]. }
      assert (0 ≤ ceil_div (Z.of_nat L * score_match sc) (score_del sc)).
      { unfold ceil_div. apply Z.div_pos; nia. }
      lia. }
  (* no slab cell of the last row exceeds it *)
  assert (∀ y, y ∈ finalRow r → y ≤ score best) as Hle.
  { intros y Hy. apply list_elem_of_lookup in Hy as [j Hj].
    pose proof (lookup_lt_Some _ _ _ Hj) as Hjw. rewrite Hlen in Hjw.
    apply list_lookup_total_correct in Hj. rewrite <- Hj, Hrow by done.
    etrans; [apply (slab_le_full sc g read best_init u w h Htopo); [done | lia] |].
    apply Hall; [done | lia]. }
  assert (bestScoreReComputed r = score best) as Hmax.
  { apply max_element_unique; [| done].
    rewrite <- Hend. apply list_elem_of_lookup_total_2.
    change (vid best - u < length (finalRow r))%nat. rewrite Hlen. lia. }
  assert (p3_j0 r = u) as Ej0 by done.
  rewrite Ej0, Href, Hend.
  split; [done |]. split; [done |].
  unfold phase3_asserts. rewrite Ej0, Href, Hend, Hmax.
  by rewrite Z.eqb_refl.
Qed.

(** C4.  On a topologically sorted graph with non-negative match,
    mismatch and insertion constants and a positive deletion penalty, for
    every non-empty read: the slab that Phase 3 recomputes from the
    left-most vertex reachable backward from the Phase-1 end point within
    read.length() + ceil(read.length() * match / del) characters
    reproduces the Phase-1 best score.  The maximum of its final row is
    best.score, and it stands at column best.refColumn - j0: both
    assertions of Phase 3 hold. *)
Theorem phase3_reproduces_best sc g read :
  topo_sorted g → (0 < numVertices g)%nat → (0 < String.length read)%nat →
  0 ≤ score_match sc → 0 ≤ score_mismatch sc →
  0 ≤ score_ins sc → 0 < score_del sc →
  let best := alignToDAGLocal_Phase1_Score sc g read best_init in
  let leftMostReachable :=
    computeLeftMostReachableVertex g (vid best) (maxDistance sc read) in
  let r := alignToDAGLocal_Phase3 sc g read best leftMostReachable in
  bestScoreReComputed r = score best
  ∧ bestScoreReComputed r = finalRow r !!! (refColumn best - p3_j0 r)%nat
  ∧ phase3_asserts best r = true.
Proof. apply phase3_recomputed. Qed.


(** ** Phase 3: the vertical differences fit in [int8_t] *)

Lemma int8_small z : -128 ≤ z ≤ 127 → int8 z = z.
Proof. intros Hz. unfold int8. rewrite Z.mod_small; lia. Qed.

Section Slab_Differences.
Context (sc : SCORE) (g : CSR_char_container).
Context (read : string) (j0 w h : nat).
Context (Htopo : topo_sorted g).
Context (Hmatch : 0 ≤ score_match sc) (Hmismatch : 0 ≤ score_mismatch sc).
Context (Hins : 0 ≤ score_ins sc) (Hdel : 0 ≤ score_del sc).

Local Notation V := (numVertices g).
Local Notation S3 := (slab_cell sc g read j0 w h).
Local Notation upS := (up_slab sc g read j0 w h).

Lemma slab_diff_lower i j :
  (j < w)%nat → (j0 + j < V)%nat → upS i j - score_ins sc ≤ S3 i j.
Proof.
  intros Hj HjV. rewrite slab_recurrence by done. apply sw_recurrence_ge_ins.
Qed.

(** A deletion moves a score one column to the right at cost [del]. *)
Lemma slab_del_right i j p :
  (j < w)%nat → (j0 + j < V)%nat → p ∈ slab_preds g j0 j →
  S3 i p - score_del sc ≤ S3 i j.
Proof.
  intros Hj HjV Hp. rewrite (slab_recurrence _ _ _ _ _ _ i j) by done.
  by apply sw_recurrence_ge_del.
Qed.

Lemma slab_diff_upper i :
  ∀ j, (j < w)%nat → (j0 + j < V)%nat →
       S3 i j ≤ upS i j + score_match sc + score_del sc.
Proof.
  induction i as [|i IHi]; intros j; induction (lt_wf j) as [j _ IHj];
    intros Hj HjV.
  - rewrite slab_recurrence by done.
    pose proof (sub_score_le sc g read Hmatch Hmismatch 0 (j0 + j)).
    apply sw_recurrence_le; simpl; try lia.
    intros p Hp. apply slab_preds_lt in Hp as [Hlt Hin]; [| done | done].
    specialize (IHj p Hlt ltac:(lia) ltac:(lia)). simpl in IHj. lia.
  - pose proof (slab_nonneg sc g read j0 w h i j Hj) as Hnn.
    rewrite slab_recurrence by done.
    pose proof (sub_score_le sc g read Hmatch Hmismatch (S i) (j0 + j)).
    apply sw_recurrence_le; unfold up_slab; try lia.
    + intros p Hp. pose proof (slab_del_right i j p Hj HjV Hp). lia.
    + intros p Hp. pose proof (slab_del_right i j p Hj HjV Hp).
      apply slab_preds_lt in Hp as [Hlt Hin]; [| done | done].
      specialize (IHj p Hlt ltac:(lia) ltac:(lia)). unfold up_slab in IHj. lia.
Qed.

Context (Hins8 : score_ins sc ≤ 128).
Context (Hmd8 : score_match sc + score_del sc ≤ 127).

(** What Phase 3 leaves in [completeMatrixLog]. *)
Lemma log_exact i j :
  (i < h)%nat → (j < w)%nat → (j0 + j < V)%nat →
  mget (phase3_rows sc g read j0 w h h).2 i j = S3 i j - upS i j.
Proof.
  intros Hi Hj HjV.
  rewrite <- phase3_before_0, (log_written _ _ _ _ _ _ h 0) by (done || lia).
  apply int8_small.
  pose proof (slab_diff_lower i j Hj HjV).
  pose proof (slab_diff_upper i j Hj HjV). lia.
Qed.

End Slab_Differences.

(** ** Phase 4: the walk follows the recurrence *)

(** A fold that keeps the first strict maximum and where it was found. *)
Lemma foldl_argmax {X} (P : nat → bool) (f : nat → Z) (inj : nat → X)
    (l : list nat) (a0 : Z) (p0 : X) :
  let F := λ '(a, p) k,
             if P k && (a <? f k) then (f k, inj k) else (a, p) in
  (foldl F (a0, p0) l).1 = max_of a0 (f <$> filter (λ k, P k = true) l)
  ∧ (foldl F (a0, p0) l = (a0, p0)
     ∨ ∃ k, k ∈ l ∧ P k = true ∧ foldl F (a0, p0) l = (f k, inj k)).
Proof.
  intros F. revert a0 p0. induction l as [|k l IH]; intros a0 p0; simpl.
  - split; [done | by left].
  - rewrite filter_cons. unfold max_of in *.
    destruct (decide (P k = true)) as [EP | EP]; simpl.
    + rewrite EP. simpl.
      destruct (Z.ltb_spec a0 (f k)) as [Hlt | Hge].
      * destruct (IH (f k) (inj k)) as [IH1 IH2].
        split; [rewrite IH1; f_equal; lia |].
        right. destruct IH2 as [-> | (k' & Hk' & HP & ->)].
        -- exists k. split; [by left | done].
        -- exists k'. split; [by right | done].
      * destruct (IH a0 p0) as [IH1 IH2].
        split; [rewrite IH1; f_equal; lia |].
        destruct IH2 as [-> | (k' & Hk' & HP & ->)]; [by left |].
        right. exists k'. split; [by right | done].
    + destruct (P k); [done |]. simpl.
      destruct (IH a0 p0) as [IH1 IH2]. split; [done |].
      destruct IH2 as [-> | (k' & Hk' & HP & ->)]; [by left |].
      right. exists k'. split; [by right | done].
Qed.

Lemma ops_score_app sc l1 l2 :
  ops_score sc (l1 ++ l2) = ops_score sc l1 + ops_score sc l2.
Proof. unfold ops_score. induction l1 as [|c l1 IH]; simpl; lia. Qed.

Lemma forallb_is_op_snoc l c :
  forallb is_op l = true → is_op c = true → forallb is_op (l ++ [c]) = true.
Proof. intros Hl Hc. rewrite forallb_app, Hl. simpl. by rewrite Hc. Qed.

Lemma fmap_seq_lookup_total (f : nat → Z) (n j : nat) :
  (j < n)%nat → (f <$> seq 0 n) !!! j = f j.
Proof.
  intros Hj. rewrite list_lookup_total_alt, list_lookup_fmap.
  by rewrite lookup_seq_lt.
Qed.

Section Traceback_Correct.
Context (sc : SCORE) (g : CSR_char_container).
Context (read : string) (u v0 q : nat).
Context (Htopo : topo_sorted g).
Context (Hmatch : 0 ≤ score_match sc) (Hmismatch : 0 ≤ score_mismatch sc).
Context (Hins : 0 ≤ score_ins sc) (Hdel : 0 ≤ score_del sc).
Context (Hins8 : score_ins sc ≤ 128).
Context (Hmd8 : score_match sc + score_del sc ≤ 127).
Context (Hu : (u ≤ v0)%nat) (Hv0 : (v0 < numVertices g)%nat).

Local Notation w := (v0 - u + 1)%nat.
Local Notation h := (q + 1)%nat.
Local Notation log := (phase3_rows sc g read u w h h).2.
Local Notation S3 := (slab_cell sc g read u w h).
Local Notation upS := (up_slab sc g read u w h).
Local Notation row_of := (slab_row sc g read u w h).
Local Notation up_row_of := (up_slab_row sc g read u w h).
Local Notation body := (tb_body sc g read u w log).
Local Notation loop := (tb_loop sc g read u w log).

Lemma slab_row_lookup i j : (j < w)%nat → row_of i !!! j = S3 i j.
Proof.
  intros Hj. unfold slab_row. by apply fmap_seq_lookup_total.
Qed.

Lemma up_slab_row_lookup i j : (j < w)%nat → up_row_of i !!! j = upS i j.
Proof.
  intros Hj. unfold up_slab_row. by apply fmap_seq_lookup_total.
Qed.

Lemma up_slab_row_S i : up_row_of (S i) = row_of i.
Proof. done. Qed.

Lemma aboveRow_slab i :
  (i < h)%nat → aboveRow w log (row_of i) i = up_row_of i.
Proof.
  intros Hi. unfold aboveRow, up_slab_row.
  apply list_fmap_ext. intros n j Hj.
  apply lookup_seq in Hj as [-> Hn]. simpl.
  rewrite slab_row_lookup by done.
  rewrite (log_exact sc g read u w h) by (done || lia). lia.
Qed.

Lemma tb_fromMatch_spec i pos ms :
  (u ≤ pos ≤ v0)%nat →
  (tb_fromMatch g u (up_row_of i) ms pos).1
  = max_of ms ((λ p, upS i p + ms) <$> slab_preds g u (pos - u))
  ∧ (tb_fromMatch g u (up_row_of i) ms pos = (ms, pos)
     ∨ ∃ k, (u ≤ k < pos)%nat
            ∧ tb_fromMatch g u (up_row_of i) ms pos = (upS i (k - u) + ms, k)).
Proof.
  intros Hpos. unfold tb_fromMatch.
  pose proof (foldl_argmax (λ k, (u <=? k)%nat)
              (λ k, up_row_of i !!! (k - u)%nat + ms) (λ k, k)
              (getNeighborOffsets g pos) ms pos) as HA.
  cbv beta zeta in HA. destruct HA as [E1 E2].
  split.
  - rewrite E1, filter_leb_le. unfold slab_preds, getNeighborOffsets.
    replace (u + (pos - u))%nat with pos by lia.
    rewrite <- list_fmap_compose. f_equal.
    apply list_fmap_ext. intros n k Hk. simpl.
    apply list_elem_of_lookup_2, list_elem_of_filter in Hk as [Hle Hk].
    pose proof (Htopo pos k ltac:(lia) Hk).
    rewrite up_slab_row_lookup; [done | lia].
  - destruct E2 as [E2 | (k & Hk & HP & E2)]; [by left |].
    right. exists k. apply Nat.leb_le in HP.
    pose proof (Htopo pos k ltac:(lia) Hk).
    split; [lia |]. rewrite E2. simpl.
    rewrite up_slab_row_lookup; [done | lia].
Qed.

Lemma tb_fromDeletion_spec i pos :
  (u ≤ pos ≤ v0)%nat →
  (tb_fromDeletion sc g u (row_of i) pos).1
  = max_of (-1) ((λ p, S3 i p - score_del sc) <$> slab_preds g u (pos - u))
  ∧ (tb_fromDeletion sc g u (row_of i) pos = (-1, None)
     ∨ ∃ k, (u ≤ k < pos)%nat
            ∧ tb_fromDeletion sc g u (row_of i) pos
              = (S3 i (k - u) - score_del sc, Some k)).
Proof.
  intros Hpos. unfold tb_fromDeletion.
  pose proof (foldl_argmax (λ k, (u <=? k)%nat)
              (λ k, row_of i !!! (k - u)%nat - score_del sc) Some
              (getNeighborOffsets g pos) (-1) None) as HA.
  cbv beta zeta in HA. destruct HA as [E1 E2].
  split.
  - rewrite E1, filter_leb_le. unfold slab_preds, getNeighborOffsets.
    replace (u + (pos - u))%nat with pos by lia.
    rewrite <- list_fmap_compose. f_equal.
    apply list_fmap_ext. intros n k Hk. simpl.
    apply list_elem_of_lookup_2, list_elem_of_filter in Hk as [Hle Hk].
    pose proof (Htopo pos k ltac:(lia) Hk).
    rewrite slab_row_lookup; [done | lia].
  - destruct E2 as [E2 | (k & Hk & HP & E2)]; [by left |].
    right. exists k. apply Nat.leb_le in HP.
    pose proof (Htopo pos k ltac:(lia) Hk).
    split; [lia |]. rewrite E2. simpl.
    rewrite slab_row_lookup; [done | lia].
Qed.

(** The slab cell as the walk re-evaluates it. *)
Lemma slab_cell_branches i pos :
  (u ≤ pos ≤ v0)%nat →
  S3 i (pos - u)
  = Z.max (Z.max (upS i (pos - u) - score_ins sc)
                 (tb_fromMatch g u (up_row_of i)
                    (matchScore sc (curChar g pos) (char_at read i)) pos).1)
          (Z.max (tb_fromDeletion sc g u (row_of i) pos).1 0).
Proof.
  intros Hpos.
  destruct (tb_fromMatch_spec i pos
              (matchScore sc (curChar g pos) (char_at read i)) Hpos) as [-> _].
  destruct (tb_fromDeletion_spec i pos Hpos) as [-> _].
  rewrite slab_recurrence by (done || lia).
  rewrite sw_recurrence_unfold.
  replace (u + (pos - u))%nat with pos by lia.
  unfold sub_score, matchScore, curChar.
  by replace (-1 * score_mismatch sc) with (- score_mismatch sc) by lia.
Qed.

Context (T : Z).

Local Notation walk_inv := (walk_inv sc g read u v0 q T).

Lemma matchScore_op c r :
  let ms := matchScore sc c r in
  op_score sc (if ms =? score_match sc then "="%char else "X"%char) = ms.
Proof.
  simpl. destruct (Z.eqb_spec (matchScore sc c r) (score_match sc)) as [E | E].
  - by rewrite E.
  - unfold matchScore in *. destruct (Ascii.eqb c r); simpl; [done | lia].
Qed.

Lemma tb_body_inv pos row cur cigar :
  walk_inv pos row cur cigar → 0 ≤ row →
  match body pos (Z.to_nat row) cur cigar with
  | TB_break c => ops_score sc c = T ∧ forallb is_op c = true
  | TB_continue pos' row' cur' c => walk_inv pos' row' cur' c
  | TB_abort _ => False
  end.
Proof.
  intros (Hpos & Hrow & Hcur & Hops & Hcig) Hrow0.
  set (i := Z.to_nat row).
  assert (Z.to_nat (row + 1) = S i) as Ei by lia.
  rewrite Ei, up_slab_row_S in Hcur. subst cur.
  assert (i < h)%nat as Hih by lia.
  assert (pos - u < w)%nat as Hcol by lia.
  rewrite slab_row_lookup in Hops by done.
  unfold tb_body.
  rewrite slab_row_lookup by done.
  rewrite aboveRow_slab by done.
  rewrite up_slab_row_lookup by done.
  pose proof (slab_nonneg sc g read u w h i (pos - u) Hcol) as Hnn.
  pose proof (slab_cell_branches i pos Hpos) as Hcell.
  set (ms := matchScore sc (curChar g pos) (char_at read i)) in *.
  destruct (Z.leb_spec (S3 i (pos - u)) 0) as [Hz | Hz].
  { split; [lia | done]. }
  destruct (tb_fromMatch_spec i pos ms Hpos) as [_ HM].
  destruct (tb_fromDeletion_spec i pos Hpos) as [_ HD].
  destruct (tb_fromMatch g u (up_row_of i) ms pos) as [fm fmp].
  destruct (tb_fromDeletion sc g u (row_of i) pos) as [fd fdp].
  simpl in Hcell.
  pose proof (matchScore_op (curChar g pos) (char_at read i)) as Hop.
  simpl in Hop. fold ms in Hop.
  assert (is_op (if ms =? score_match sc then "="%char else "X"%char) = true)
    as Hisop by (by destruct (ms =? score_match sc)).
  destruct (Z.eqb_spec (S3 i (pos - u)) fm) as [Efm | Nfm].
  - (* match or mismatch *)
    destruct (Nat.eqb_spec fmp pos) as [Ep | Np].
    + destruct HM as [[= -> _] | (k & Hk & [= -> ->])]; [| lia].
      split; [| apply forallb_is_op_snoc; [exact Hcig | exact Hisop]].
      rewrite ops_score_app. simpl. lia.
    + destruct HM as [[= _ ->] | (k & Hk & [= -> ->])]; [done |].
      unfold walk_inv. split; [lia |]. split; [lia |].
      replace (Z.to_nat (Z.of_nat i - 1 + 1)) with i by lia.
      split; [done |]. split; [| apply forallb_is_op_snoc; [exact Hcig | exact Hisop]].
      rewrite ops_score_app, up_slab_row_lookup by lia. simpl. lia.
  - destruct (Z.eqb_spec (S3 i (pos - u)) fd) as [Efd | Nfd].
    + (* deletion *)
      destruct HD as [[= -> _] | (k & Hk & [= -> ->])]; [lia |].
      unfold walk_inv. split; [lia |]. split; [lia |].
      replace (Z.to_nat (Z.of_nat i + 1)) with (S i) by lia.
      split; [done |]. split; [| apply forallb_is_op_snoc; [exact Hcig | done]].
      rewrite ops_score_app, slab_row_lookup by lia. simpl. lia.
    + (* insertion *)
      destruct (Z.eqb_spec (S3 i (pos - u)) (upS i (pos - u) - score_ins sc))
        as [Ein | Nin]; [| lia].
      unfold walk_inv. split; [lia |]. split; [lia |].
      replace (Z.to_nat (Z.of_nat i - 1 + 1)) with i by lia.
      split; [done |]. split; [| apply forallb_is_op_snoc; [exact Hcig | done]].
      rewrite ops_score_app, up_slab_row_lookup by lia. simpl. lia.
Qed.

Lemma up_slab_row_0_lookup j : (j < w)%nat → up_row_of 0 !!! j = 0.
Proof. intros Hj. by rewrite up_slab_row_lookup. Qed.

Lemma tb_loop_correct fuel :
  ∀ pos row cur cigar,
    walk_inv pos row cur cigar →
    loop fuel pos row cur cigar = TB_out_of_fuel
    ∨ ∃ c, loop fuel pos row cur cigar = TB_cigar c
           ∧ ops_score sc c = T ∧ forallb is_op c = true.
Proof.
  induction fuel as [|fuel IH]; intros pos row cur cigar Hinv; [by left |].
  simpl.
  destruct ((0 <=? Z.of_nat pos - Z.of_nat u) && (0 <=? row)) eqn:Eg.
  - apply andb_prop in Eg as [_ Hr%Z.leb_le].
    pose proof (tb_body_inv pos row cur cigar Hinv Hr) as Hb.
    destruct (body pos (Z.to_nat row) cur cigar) as [c | pos' row' cur' c | r].
    + right. exists c. by destruct Hb.
    + by apply IH.
    + done.
  - right. exists cigar. split; [done |].
    destruct Hinv as (Hpos & Hrow & Hcur & Hops & Hcig).
    split; [| done].
    apply andb_false_iff in Eg as [Eg | Eg]; [apply Z.leb_gt in Eg; lia |].
    apply Z.leb_gt in Eg.
    replace (Z.to_nat (row + 1)) with 0%nat in Hcur by lia.
    rewrite Hcur, up_slab_row_0_lookup in Hops by lia. lia.
Qed.

End Traceback_Correct.

(** ** The compacted CIGAR keeps the score *)

Lemma digit_value_is_op c : is_op c = true → digit_value c = None.
Proof.
  destruct c as [[] [] [] [] [] [] [] []]; simpl; congruence.
Qed.

Lemma cigar_replay_digits sc d :
  ∀ rest count total,
    cigar_replay sc
      (list_ascii_of_string (NilEmpty.string_of_uint d) ++ rest) count total
    = cigar_replay sc rest (Nat.of_uint_acc d count) total.
Proof.
  induction d as [| d IH | d IH | d IH | d IH | d IH | d IH | d IH | d IH
                  | d IH | d IH]; intros rest count total; simpl; [done | ..];
    rewrite IH; do 2 f_equal; rewrite Nat.tail_mul_spec; lia.
Qed.

Lemma cigar_replay_run sc n c rest total :
  digit_value c = None →
  cigar_replay sc
    ((list_ascii_of_string (NilEmpty.string_of_uint (Nat.to_uint n)) ++ [c])
       ++ rest) 0 total
  = cigar_replay sc rest 0 (total + Z.of_nat n * op_score sc c).
Proof.
  intros Hc. rewrite <- app_assoc, cigar_replay_digits. simpl. rewrite Hc.
  change (Nat.of_uint_acc (Nat.to_uint n) 0) with (Nat.of_uint (Nat.to_uint n)).
  by rewrite Unsigned.of_to.
Qed.

Lemma cigar_replay_runs sc runs :
  ∀ total,
    Forall (λ '(n, c), is_op c = true) runs →
    cigar_replay sc
      (runs ≫= λ '(n, c),
         list_ascii_of_string (NilEmpty.string_of_uint (Nat.to_uint n)) ++ [c])
      0 total
    = total + runs_score sc runs.
Proof.
  induction runs as [|[n c] runs IH]; intros total Hops; simpl; [lia |].
  apply Forall_cons in Hops as [Hc Hops].
  rewrite cigar_replay_run by (by apply digit_value_is_op).
  rewrite IH by done. lia.
Qed.

Lemma run_lengths_score sc l : runs_score sc (run_lengths l) = ops_score sc l.
Proof.
  induction l as [|c t IH]; [done |]. simpl.
  destruct (run_lengths t) as [|[n c'] rest]; simpl in *; [lia |].
  destruct (Ascii.eqb_spec c c') as [-> | Hne]; simpl; lia.
Qed.

Lemma run_lengths_ops l :
  forallb is_op l = true → Forall (λ '(n, c), is_op c = true) (run_lengths l).
Proof.
  induction l as [|c t IH]; [constructor |]. simpl.
  intros [Hc Ht]%andb_prop. specialize (IH Ht).
  destruct (run_lengths t) as [|[n c'] rest]; [by repeat constructor |].
  apply Forall_cons in IH as [Hc' Hrest].
  destruct (Ascii.eqb c c'); by repeat constructor.
Qed.

Lemma cigarScore_compact sc l :
  forallb is_op l = true → cigarScore sc (cigarCompact l) = ops_score sc l.
Proof.
  intros Hl. unfold cigarScore, cigarCompact.
  rewrite list_ascii_of_string_of_list_ascii.
  rewrite cigar_replay_runs by (by apply run_lengths_ops).
  rewrite run_lengths_score. lia.
Qed.

Lemma ops_score_reverse sc l : ops_score sc (reverse l) = ops_score sc l.
Proof.
  induction l as [|c l IH]; [done |].
  rewrite reverse_cons, ops_score_app, IH. simpl. lia.
Qed.

Lemma forallb_is_op_reverse l :
  forallb is_op l = true → forallb is_op (reverse l) = true.
Proof.
  rewrite !forallb_forall. intros Hl c Hc. apply Hl.
  by apply list_elem_of_In, elem_of_reverse, list_elem_of_In.
Qed.

(** ** The whole pipeline *)

Lemma length_reverseComplement read :
  String.length (reverseComplement read) = String.length read.
Proof.
  unfold reverseComplement.
  rewrite <- (string_of_list_ascii_of_string read) at 2.
  generalize (list_ascii_of_string read). intros l.
  assert (∀ l : list ascii, String.length (string_of_list_ascii l) = length l)
    as Hlen by (induction l0 as [|? ? IH]; simpl; [done | by rewrite IH]).
  by rewrite !Hlen, length_reverse, length_fmap.
Qed.

(** Phases 2 to 4 on a Phase-1 result go through, and the replayed CIGAR
    gives the best score. *)
Lemma trace_aligned sc g read strand :
  topo_sorted g → (0 < numVertices g)%nat → (0 < String.length read)%nat →
  0 ≤ score_match sc → 0 ≤ score_mismatch sc →
  0 ≤ score_ins sc ≤ 128 → 0 < score_del sc →
  score_match sc + score_del sc ≤ 127 →
  let best := alignToDAGLocal_Phase1_Score sc g read best_init in
  ∃ cigar, alignToDAGLocal_trace sc g read best strand = Aligned best strand cigar
           ∧ cigarScore sc cigar = score best.
Proof.
  intros Htopo HV HL Hm Hmm [Hi Hi8] Hd Hmd best.
  destruct (phase3_recomputed sc g read Htopo HV HL Hm Hmm Hi Hd)
    as (Hmax & Hat & Hasserts).
  destruct (phase1_best_spec sc g read HV HL) as (Hq & Hv & Href & _ & _).
  fold best in Hmax, Hat, Hasserts, Hq, Hv, Href.
  unfold alignToDAGLocal_trace.
  set (u := computeLeftMostReachableVertex g (vid best) (maxDistance sc read)) in *.
  set (r := alignToDAGLocal_Phase3 sc g read best u) in *.
  rewrite Hasserts. simpl.
  pose proof (leftMost_le_start g (vid best) (maxDistance sc read)) as Hu.
  fold u in Hu.
  (* the final row is the last slab row *)
  destruct (phase3_finalRow sc g read best u) as [Hlen Hrow].
  fold r in Hlen, Hrow.
  assert (finalRow r = slab_row sc g read u (vid best - u + 1) (qryRow best + 1)
                         (qryRow best)) as Efinal.
  { apply list_eq_same_length with (vid best - u + 1)%nat.
    - unfold slab_row. by rewrite length_fmap, length_seq.
    - exact Hlen.
    - intros j x y Hj Hx Hy.
      apply list_lookup_total_correct in Hx, Hy.
      rewrite <- Hx, <- Hy, (Hrow j Hj).
      symmetry. by apply slab_row_lookup. }
  assert (walk_inv sc g read u (vid best) (qryRow best) (score best)
            (vid best) (Z.of_nat (qryRow best)) (finalRow r) []) as Hinv.
  { unfold walk_inv. split; [lia |]. split; [lia |].
    replace (Z.to_nat (Z.of_nat (qryRow best) + 1)) with (S (qryRow best)) by lia.
    split; [done |]. split; [| done].
    change (ops_score sc []) with 0.
    rewrite <- Hmax, Hat, Href. done. }
  unfold alignToDAGLocal_Phase4.
  change (p3_j0 r) with u.
  change (p3_reducedWidth r) with (vid best - u + 1)%nat.
  change (completeMatrixLog r)
    with (phase3_rows sc g read u (vid best - u + 1) (qryRow best + 1)
            (qryRow best + 1)).2.
  destruct (tb_loop_terminates sc g read u (vid best - u + 1)%nat
              (phase3_rows sc g read u (vid best - u + 1) (qryRow best + 1)
                 (qryRow best + 1)).2
              (vid best + Z.to_nat (Z.of_nat (qryRow best) + 1)) Htopo
              (vid best) (Z.of_nat (qryRow best)) (finalRow r) []
              Hv ltac:(lia) ltac:(lia)) as (res & Hres & Hfuel).
  specialize (Hfuel (vid best + qryRow best + 2)%nat ltac:(lia)).
  destruct (tb_loop_correct sc g read u (vid best) (qryRow best) Htopo
              Hm Hmm Hi ltac:(lia) Hi8 Hmd Hu Hv (score best)
              (vid best + qryRow best + 2) _ _ _ _ Hinv)
    as [Hout | (c & Hc & Hscore & Hops)].
  { rewrite Hfuel in Hout. done. }
  rewrite Hc.
  assert (cigarScore sc (cigarCompact (reverse c)) = score best) as Hcs.
  { rewrite cigarScore_compact by (by apply forallb_is_op_reverse).
    by rewrite ops_score_reverse. }
  rewrite Hcs, Z.eqb_refl. eauto.
Qed.

(** C5.  On a topologically sorted graph, with score constants that are
    non-negative (del positive) and small enough for the 8-bit vertical
    differences (ins <= 128, match + del <= 127), every non-empty read
    completes the pipeline of [alignToDAGLocal], and replaying its
    compacted CIGAR gives exactly the reported best score: the final
    assertion [cigarScore(cigar) == best.score] holds. *)
Theorem cigar_score_law sc g read :
  topo_sorted g → (0 < numVertices g)%nat → (0 < String.length read)%nat →
  0 ≤ score_match sc → 0 ≤ score_mismatch sc →
  0 ≤ score_ins sc ≤ 128 → 0 < score_del sc →
  score_match sc + score_del sc ≤ 127 →
  ∃ best strand cigar,
    alignToDAGLocal sc g read = Aligned best strand cigar
    ∧ cigarScore sc cigar = score best.
Proof.
  intros Htopo HV HL Hm Hmm Hi Hd Hmd. unfold alignToDAGLocal.
  destruct (_ <? _).
  - destruct (trace_aligned sc g read "+"%char Htopo HV HL Hm Hmm Hi Hd Hmd)
      as (cigar & E & Hs). eauto.
  - destruct (trace_aligned sc g (reverseComplement read) "-"%char Htopo HV
                ltac:(by rewrite length_reverseComplement) Hm Hmm Hi Hd Hmd)
      as (cigar & E & Hs). eauto.
Qed.

(** ** The scalar pipeline on the chain A -> C -> G -> T -> A *)

(** Side conditions on concrete inputs. *)
Ltac by_computation :=
  first [ lia | simpl; lia | vm_compute; lia | vm_compute; reflexivity
        | vm_compute; intros; discriminate
        | vm_compute; split; intros; discriminate ].

Lemma example_chain_sorted : topo_sorted (chain_graph "ACGTA").
Proof. apply topo_sortedb_spec. vm_compute. reflexivity. Defined.

Lemma phase1_cell_recurrence_witness :
  topo_sorted (chain_graph "ACGTA")
  ∧ cell unit_costs (chain_graph "ACGTA") "ACGTA" best_init 2 2
    = sw_recurrence unit_costs
        (sub_score unit_costs (chain_graph "ACGTA") "ACGTA" 2 2)
        (in_neighbors (chain_graph "ACGTA") 2)
        (λ p, cell unit_costs (chain_graph "ACGTA") "ACGTA" best_init 1 p)
        (cell unit_costs (chain_graph "ACGTA") "ACGTA" best_init 2) 2.
Proof.
  split; [exact example_chain_sorted |].
  apply (phase1_cell_recurrence unit_costs (chain_graph "ACGTA") "ACGTA"
           best_init 2 2 example_chain_sorted); by_computation.
Defined.

Lemma phase1_score_bounds_witness :
  topo_sorted (chain_graph "ACGTA")
  ∧ 0 ≤ cell unit_costs (chain_graph "ACGTA") "ACGTA" best_init 0 4
  ∧ cell unit_costs (chain_graph "ACGTA") "ACGTA" best_init 0 4
      ≤ score (best_after unit_costs (chain_graph "ACGTA") "ACGTA" best_init 1 2)
  ∧ score (best_after unit_costs (chain_graph "ACGTA") "ACGTA" best_init 1 2)
      ≤ Z.of_nat (numVertices (chain_graph "ACGTA") `min` String.length "ACGTA")
        * score_match unit_costs.
Proof.
  split; [exact example_chain_sorted |].
  apply (phase1_score_bounds unit_costs (chain_graph "ACGTA") "ACGTA"
           best_init 1 2 0 4 example_chain_sorted); by_computation.
Defined.

Lemma traceback_terminates_witness :
  topo_sorted (chain_graph "ACGTA")
  ∧ ∃ r, r ≠ TB_out_of_fuel ∧
         ∀ fuel, (4 + Z.to_nat (4 + 1) < fuel)%nat →
                 tb_loop unit_costs (chain_graph "ACGTA") "ACGTA" 0 5
                   [[1; 0; 0; 0; 1]; [-1; 2; 1; 0; -1]; [0; -1; 2; 2; 1];
                    [0; -1; -1; 2; 2]; [1; 0; -1; -1; 2]]
                   fuel 4 4 [1; 0; 1; 3; 5] [] = r.
Proof.
  split; [exact example_chain_sorted |].
  apply (traceback_terminates unit_costs (chain_graph "ACGTA") "ACGTA" 0 5
           _ 4 4 [1; 0; 1; 3; 5] [] example_chain_sorted); by_computation.
Defined.

Lemma phase3_reproduces_best_witness :
  topo_sorted (chain_graph "ACGTA")
  ∧ let best := alignToDAGLocal_Phase1_Score unit_costs (chain_graph "ACGTA")
                  "ACTA" best_init in
    let r := alignToDAGLocal_Phase3 unit_costs (chain_graph "ACGTA") "ACTA" best
               (computeLeftMostReachableVertex (chain_graph "ACGTA") (vid best)
                  (maxDistance unit_costs "ACTA")) in
    bestScoreReComputed r = score best
    ∧ bestScoreReComputed r = finalRow r !!! (refColumn best - p3_j0 r)%nat
    ∧ phase3_asserts best r = true.
Proof.
  split; [exact example_chain_sorted |].
  apply (phase3_reproduces_best unit_costs (chain_graph "ACGTA") "ACTA"
           example_chain_sorted); by_computation.
Defined.

Lemma cigar_score_law_witness :
  topo_sorted (chain_graph "ACGTA")
  ∧ ∃ best strand cigar,
      alignToDAGLocal unit_costs (chain_graph "ACGTA") "ACTA"
      = Aligned best strand cigar
      ∧ cigarScore unit_costs cigar = score best.
Proof.
  split; [exact example_chain_sorted |].
  apply (cigar_score_law unit_costs (chain_graph "ACGTA") "ACTA"
           example_chain_sorted); by_computation.
Defined.

(** ** [loadFromTxt]: neighbour ids are taken as written *)

Lemma push_edges_spec from toks :
  ∀ edges edges',
    push_edges from toks edges = inr edges' →
    edges' = edges ++ omap (λ t, (λ n, (from, to_VertexIdType n)) <$> stoi t) toks.
Proof.
  induction toks as [|t toks IH]; intros edges edges'; simpl.
  - intros [= <-]. by rewrite app_nil_r.
  - destruct (stoi t) as [n|]; [| done]. simpl.
    intros E. rewrite (IH _ _ E), <- app_assoc. done.
Qed.

Lemma load_line_spec st line st' :
  (1 ≤ currentRow st)%nat →
  load_line st line = inr st' →
  currentRow st' = S (currentRow st)
  ∧ totalVertices st' = totalVertices st
  ∧ edgeVector st' = edgeVector st ++ line_edges (currentRow st - 1) line.
Proof.
  intros Hrow. unfold load_line.
  destruct (Nat.eqb_spec (currentRow st) 0) as [? | _]; [lia |].
  destruct (_ <? _)%nat; [done |].
  destruct (last _); [| done].
  destruct (push_edges _ _ _) as [e | edges] eqn:E; [done |].
  intros [= <-]. simpl. repeat split.
  by apply push_edges_spec in E.
Qed.

Lemma load_lines_spec lines :
  ∀ st st',
    (1 ≤ currentRow st)%nat →
    load_lines st lines = inr st' →
    totalVertices st' = totalVertices st
    ∧ edgeVector st'
      = edgeVector st
        ++ concat (imap (λ i line, line_edges (currentRow st - 1 + i) line) lines).
Proof.
  induction lines as [|line lines IH]; intros st st' Hrow; simpl.
  - intros [= <-]. by rewrite app_nil_r.
  - destruct (load_line st line) as [e | st1] eqn:E1; [done |].
    apply load_line_spec in E1 as (Hr1 & Ht1 & He1); [| done].
    intros E. apply IH in E as [Ht He]; [| lia].
    split; [congruence |].
    rewrite He, He1, <- app_assoc. f_equal.
    rewrite Nat.add_0_r. f_equal. f_equal.
    apply imap_ext. intros i x _. simpl. f_equal. lia.
Qed.

(** C8, as the code has it.  Whenever [loadFromTxt] accepts a file, the
    edge vector it hands to the graph is, line after line, the edge
    (i - 1, t) for each neighbour token of value t on the line of vertex
    i (1-based line number): the row is rebased, the neighbour id is
    not. *)
Theorem loadFromTxt_edges header body st :
  loadFromTxt (header :: body) = inr st →
  edgeVector st = concat (imap (λ i line, line_edges i line) body).
Proof.
  unfold loadFromTxt. simpl.
  destruct (load_lines _ body) as [e | st1] eqn:E; [done |].
  destruct (_ && _); [| done]. intros [= <-].
  apply load_lines_spec in E as [_ E]; [| simpl; lia].
  simpl in E. rewrite E. f_equal.
Qed.

Lemma loadFromTxt_edges_witness :
  (∃ st, loadFromTxt ["3"; "1 2 A"; "2 C"; "G"]%string = inr st
         ∧ edgeVector st
           = concat (imap (λ i line, line_edges i line)
                          ["1 2 A"; "2 C"; "G"]%string))
  ∧ (∃ st, loadFromTxt ["+2"; "1 A"; "C"]%string = inr st
           ∧ edgeVector st = [(0%nat, 1%nat)]).
Proof.
  split.
  - eexists. split; [vm_compute; reflexivity |].
    apply (loadFromTxt_edges "3" ["1 2 A"; "2 C"; "G"]%string).
    vm_compute. reflexivity.
  - eexists. split; [vm_compute; reflexivity |].
    etrans; [apply (loadFromTxt_edges "+2" ["1 A"; "C"]%string) |];
      vm_compute; reflexivity.
Defined.

(** C8, as stated, fails.  The file "2 / 1 A / C": the line of vertex 1
    names neighbour 1, and the edge recorded is (0, 1), not (0, 0). *)
Lemma loadFromTxt_not_rebased :
  ¬ rebases_neighbors ["2"; "1 A"; "C"]%string.
Proof.
  intros Hc.
  specialize (Hc _ 1%nat "1 A"%string ["1"%char] 1 eq_refl ltac:(lia) eq_refl).
  simpl in Hc. vm_compute in Hc.
  specialize (Hc ltac:(by apply list_elem_of_here) eq_refl).
  apply elem_of_cons in Hc as [Hc | Hc]; [discriminate |].
  by apply elem_of_nil in Hc.
Qed.

(** ** [computeLongHops]: which end of a long edge is marked *)

Lemma lookup_total_insert_true (l : list bool) (i v : nat) :
  <[i := true]> l !!! v = true ↔ l !!! v = true ∨ (v = i ∧ (i < length l)%nat).
Proof.
  destruct (decide (i = v)) as [<- | Hne].
  - destruct (decide (i < length l)%nat).
    + rewrite list_lookup_total_insert_eq by done. naive_solver.
    + rewrite list_insert_ge by lia. naive_solver lia.
  - rewrite list_lookup_total_insert_ne by done. naive_solver.
Qed.

Section LongHops.
Context (g : CSR_char_container).

(** The inner loop of the reverse classification, at vertex [i]. *)
Lemma mark_target_inner i (l : list nat) :
  ∀ wl : list bool,
    let wl' := foldl (λ wl from_pos,
                        if hop_at_least_blockWidth i from_pos
                        then <[i := true]> wl else wl) wl l in
    length wl' = length wl
    ∧ ∀ v, wl' !!! v = true
           ↔ wl !!! v = true
             ∨ (v = i ∧ (i < length wl)%nat
                ∧ ∃ u, u ∈ l ∧ hop_at_least_blockWidth i u = true).
Proof.
  induction l as [|p l IH]; intros wl; simpl.
  - split; [done |]. intros v. split; [by left |].
    intros [? | (_ & _ & u & Hu & _)]; [done | by apply elem_of_nil in Hu].
  - destruct (IH (if hop_at_least_blockWidth i p then <[i:=true]> wl else wl))
      as [Hlen Hiff].
    destruct (hop_at_least_blockWidth i p) eqn:Hp.
    + rewrite length_insert in *. split; [done |].
      intros v. rewrite Hiff, lookup_total_insert_true. set_solver.
    + split; [done |]. intros v. rewrite Hiff.
      split; [set_solver |].
      intros [? | (-> & Hi & u & Hu & Hhop)]; [by left |].
      apply elem_of_cons in Hu as [-> | Hu]; [congruence |].
      right. eauto 6.
Qed.

(** The inner loop of the forward classification, at vertex [i]. *)
Lemma mark_source_inner i (l : list nat) :
  ∀ wl : list bool,
    let wl' := foldl (λ wl from_pos,
                        if hop_at_least_blockWidth i from_pos
                        then <[from_pos := true]> wl else wl) wl l in
    length wl' = length wl
    ∧ ∀ v, wl' !!! v = true
           ↔ wl !!! v = true
             ∨ ((v < length wl)%nat ∧ v ∈ l
                ∧ hop_at_least_blockWidth i v = true).
Proof.
  induction l as [|p l IH]; intros wl; simpl.
  - split; [done |]. intros v. split; [by left |].
    intros [? | (_ & Hu & _)]; [done | by apply elem_of_nil in Hu].
  - destruct (IH (if hop_at_least_blockWidth i p then <[p:=true]> wl else wl))
      as [Hlen Hiff].
    destruct (hop_at_least_blockWidth i p) eqn:Hp.
    + rewrite length_insert in *. split; [done |].
      intros v. rewrite Hiff, lookup_total_insert_true. set_solver.
    + split; [done |]. intros v. rewrite Hiff.
      split; [set_solver |].
      intros [? | (Hv & Hu & Hhop)]; [by left |].
      apply elem_of_cons in Hu as [-> | Hu]; [congruence |].
      right. eauto.
Qed.

Lemma mark_target_outer (vs : list nat) :
  ∀ wl : list bool,
    let wl' := foldl (λ wl i,
                 foldl (λ wl from_pos,
                          if hop_at_least_blockWidth i from_pos
                          then <[i := true]> wl else wl) wl (in_neighbors g i))
                 wl vs in
    length wl' = length wl
    ∧ ∀ v, wl' !!! v = true
           ↔ wl !!! v = true
             ∨ (v ∈ vs ∧ (v < length wl)%nat
                ∧ ∃ u, u ∈ in_neighbors g v ∧ hop_at_least_blockWidth v u = true).
Proof.
  induction vs as [|i vs IH]; intros wl; simpl.
  - split; [done |]. intros v. split; [by left |].
    intros [? | (Hv & _)]; [done | by apply elem_of_nil in Hv].
  - destruct (mark_target_inner i (in_neighbors g i) wl) as [Hlen1 Hiff1].
    simpl in Hlen1, Hiff1.
    destruct (IH (foldl (λ wl from_pos,
                           if hop_at_least_blockWidth i from_pos
                           then <[i := true]> wl else wl) wl (in_neighbors g i)))
      as [Hlen Hiff].
    simpl in Hlen, Hiff. rewrite Hlen1 in *. split; [done |].
    intros v. rewrite Hiff, Hiff1. clear. set_solver.
Qed.

Lemma mark_source_outer (vs : list nat) :
  ∀ wl : list bool,
    let wl' := foldl (λ wl i,
                 foldl (λ wl from_pos,
                          if hop_at_least_blockWidth i from_pos
                          then <[from_pos := true]> wl else wl) wl
                       (in_neighbors g i))
                 wl vs in
    length wl' = length wl
    ∧ ∀ v, wl' !!! v = true
           ↔ wl !!! v = true
             ∨ ((v < length wl)%nat
                ∧ ∃ i, i ∈ vs ∧ v ∈ in_neighbors g i
                       ∧ hop_at_least_blockWidth i v = true).
Proof.
  induction vs as [|i vs IH]; intros wl; simpl.
  - split; [done |]. intros v. split; [by left |].
    intros [? | (_ & i & Hi & _)]; [done | by apply elem_of_nil in Hi].
  - destruct (mark_source_inner i (in_neighbors g i) wl) as [Hlen1 Hiff1].
    simpl in Hlen1, Hiff1.
    destruct (IH (foldl (λ wl from_pos,
                           if hop_at_least_blockWidth i from_pos
                           then <[from_pos := true]> wl else wl) wl
                        (in_neighbors g i)))
      as [Hlen Hiff].
    simpl in Hlen, Hiff. rewrite Hlen1 in *. split; [done |].
    intros v. rewrite Hiff, Hiff1. clear. set_solver.
Qed.

(** The reverse classification marks the targets of the long edges. *)
Lemma computeLongHops_rev_spec v :
  (v < numVertices g)%nat →
  computeLongHops_rev g !!! v = true
  ↔ ∃ u, u ∈ in_neighbors g v ∧ hop_at_least_blockWidth v u = true.
Proof.
  intros Hv. unfold computeLongHops_rev.
  destruct (mark_target_outer (seq 0 (numVertices g))
              (replicate (numVertices g) false)) as [_ Hiff].
  simpl in Hiff. rewrite Hiff, lookup_total_replicate_2, length_replicate by done.
  split.
  - intros [? | (_ & _ & Hu)]; done.
  - intros Hu. right. split; [apply elem_of_seq; lia | done].
Qed.

(** The forward classification marks their sources. *)
Lemma computeLongHops_spec v :
  (v < numVertices g)%nat →
  computeLongHops g !!! v = true
  ↔ ∃ i, (i < numVertices g)%nat ∧ v ∈ in_neighbors g i
         ∧ hop_at_least_blockWidth i v = true.
Proof.
  intros Hv. unfold computeLongHops.
  destruct (mark_source_outer (seq 0 (numVertices g))
              (replicate (numVertices g) false)) as [_ Hiff].
  simpl in Hiff. rewrite Hiff, lookup_total_replicate_2, length_replicate by done.
  split.
  - intros [? | (_ & i & Hi & Hin & Hhop)]; [done |].
    apply elem_of_seq in Hi. exists i. split; [lia | done].
  - intros (i & Hi & Hin & Hhop). right. split; [done |].
    exists i. split; [apply elem_of_seq; lia | done].
Qed.

Lemma length_computeLongHops : length (computeLongHops g) = numVertices g.
Proof.
  unfold computeLongHops.
  destruct (mark_source_outer (seq 0 (numVertices g))
              (replicate (numVertices g) false)) as [Hlen _].
  simpl in Hlen. by rewrite Hlen, length_replicate.
Qed.

End LongHops.

Lemma hop_at_least_blockWidth_sorted (v u : nat) :
  (u < v)%nat → Z.of_nat v < 2 ^ 31 →
  hop_at_least_blockWidth v u = true ↔ (blockWidth ≤ v - u)%nat.
Proof.
  intros Huv Hv. unfold hop_at_least_blockWidth.
  rewrite Z.mod_small by lia. rewrite Z.leb_le. lia.
Qed.

(** C7, as the code has it.  On a topologically sorted graph (vertex ids
    fit [int32_t]), the reverse-pass classification marks vertex v
    exactly when some in-edge arrives at v from some u with
    v - u >= blockWidth: the mark is on the target of the long edge, the
    larger id, whose column the reverse kernel reads from the side
    store. *)
Theorem computeLongHops_rev_marks_targets g v :
  topo_sorted g → Z.of_nat (numVertices g) ≤ 2 ^ 31 →
  (v < numVertices g)%nat →
  computeLongHops_rev g !!! v = true
  ↔ ∃ u, u ∈ in_neighbors g v ∧ (blockWidth ≤ v - u)%nat.
Proof.
  intros Htopo HV Hv. rewrite computeLongHops_rev_spec by done.
  split; intros (u & Hu & Hhop); exists u; (split; [done |]);
    pose proof (Htopo v u Hv Hu) as Huv;
    by apply (hop_at_least_blockWidth_sorted v u Huv ltac:(lia)).
Qed.

Lemma long_edge_graph_sorted : topo_sorted long_edge_graph.
Proof. apply topo_sortedb_spec. vm_compute. reflexivity. Defined.

Lemma computeLongHops_rev_marks_targets_witness :
  topo_sorted long_edge_graph
  ∧ (computeLongHops_rev long_edge_graph !!! 8%nat = true
     ↔ ∃ u, u ∈ in_neighbors long_edge_graph 8 ∧ (blockWidth ≤ 8 - u)%nat).
Proof.
  split; [exact long_edge_graph_sorted |].
  apply (computeLongHops_rev_marks_targets long_edge_graph 8
           long_edge_graph_sorted); by_computation.
Defined.

(** C7, as stated, fails.  On the graph with the single edge 0 -> 8 the
    source 0 of the long edge stays unmarked, although its out-edge spans
    [blockWidth] vertices. *)
Lemma computeLongHops_rev_not_sources : ¬ rev_marks_sources long_edge_graph.
Proof.
  intros Hc. specialize (Hc 0%nat ltac:(vm_compute; lia)).
  destruct Hc as [_ Hc].
  assert (computeLongHops_rev long_edge_graph !!! 0%nat = true) as E.
  { apply Hc. exists 8%nat. split; [| vm_compute; lia].
    vm_compute. apply list_elem_of_here. }
  vm_compute in E. discriminate.
Qed.

(** ** The vector passes on small inputs *)

(** C3, at a failing input.  One vertex labelled A and the single read
    "A" (its own reverse), 32-bit lanes.  The forward pass reports score 1
    at row 0, column 0.  The reverse pass overwrites that cell with
    match + 1 only after it has updated its best score with the cell's own
    value, and nothing extends a one-cell alignment: its best score is 1
    again, not 2, and the assertion of the reverse wrapper fails.  This is
    so with the penalties given as negative scores and with the penalties
    given as positive costs. *)
Theorem reverse_assertion_fails_on_single_match :
  let g := chain_graph "A" in
  let readSet := ["A"%string] in
  let run sc :=
    let fwd := alignToDAGLocal_Phase1_vectorized_wrapper Int32 sc g readSet
                 (fresh_buffers Int32 g) (output_init 1) in
    (v_score (fwd !!! 0%nat),
     bestScores512 _ (reverse_batch Int32 sc g readSet (fresh_buffers Int32 g)
                        fwd 0) !!! 0%nat,
     alignToDAGLocal_Phase1_rev_vectorized_wrapper Int32 sc g readSet
       (fresh_buffers Int32 g) fwd) in
  run unit_scores = (1, 1, None) ∧ run unit_costs = (16, 16, None).
Proof. vm_compute. done. Qed.

(** Where the alignment has more than one cell the two passes agree: the
    chain A -> C -> G -> T -> A with the reads ACGTA and CGT, reversed for
    the reverse pass. *)
Lemma reverse_assertion_holds_on_chain :
  let g := chain_graph "ACGTA" in
  let fwd := alignToDAGLocal_Phase1_vectorized_wrapper Int32 unit_scores g
               ["ACGTA"; "CGT"]%string (fresh_buffers Int32 g) (output_init 2) in
  alignToDAGLocal_Phase1_rev_vectorized_wrapper Int32 unit_scores g
    ["ATGCA"; "TGC"]%string (fresh_buffers Int32 g) fwd
  = Some [ {| v_score := 5; refColumnEnd := 4; refColumnStart := 0;
              qryRowEnd := 4; qryRowStart := 0 |};
           {| v_score := 3; refColumnEnd := 3; refColumnStart := 1;
              qryRowEnd := 2; qryRowStart := 0 |} ].
Proof. vm_compute. done. Qed.

(** C2, as stated, fails.  A read that matches nothing has best score 0,
    and every cell ties with it: the end point reported is the last cell
    of the batch, which depends on the padded length of the batch.  The
    read "C" against one vertex A ends at row 15 alone and at row 31 next
    to a read of length 17. *)
Lemma batch_changes_endpoint :
  let g := chain_graph "A" in
  let readSet := ["C"; "CCCCCCCCCCCCCCCCC"]%string in
  ¬ batch_invariant Int32 unit_scores g readSet
      (fresh_buffers Int32 g) (fresh_buffers Int32 g)
      (output_init 2) (output_init 1) 0.
Proof. vm_compute. intros [=]. Qed.

(** ** Registers as lists of lanes *)

Lemma length_lanes {A} (n : nat) (f : nat → A) : length (lanes n f) = n.
Proof. unfold lanes. by rewrite length_fmap, length_seq. Qed.

Lemma lanes_lookup {A} (n : nat) (f : nat → A) (i : nat) :
  (i < n)%nat → lanes n f !! i = Some (f i).
Proof.
  intros Hi. unfold lanes. rewrite list_lookup_fmap, lookup_seq_lt by done.
  done.
Qed.

Lemma lanes_lookup_total {A} `{Inhabited A} (n : nat) (f : nat → A) (i : nat) :
  (i < n)%nat → lanes n f !!! i = f i.
Proof. intros Hi. apply list_lookup_total_correct, lanes_lookup, Hi. Qed.

Lemma mask_bit_lanes (n : nat) (f : nat → bool) (i : nat) :
  (i < n)%nat → mask_bit (lanes n f) i = f i.
Proof. intros Hi. unfold mask_bit. by rewrite lanes_lookup. Qed.

Lemma mask_bit_shr (k : list bool) (s i : nat) :
  mask_bit (mask_shr k s) i = mask_bit k (s + i).
Proof. unfold mask_bit, mask_shr. by rewrite lookup_drop. Qed.

(** Registers of equal length, stored one after the other. *)
Lemma concat_lookup_uniform {A} `{Inhabited A} (m : nat) (l : list (list A))
    (c i : nat) :
  (∀ x, x ∈ l → length x = m) → (c < length l)%nat → (i < m)%nat →
  concat l !!! (c * m + i)%nat = (l !!! c) !!! i.
Proof.
  revert c. induction l as [|x l IH]; intros c Hl Hc Hi; simpl in *; [lia|].
  assert (length x = m) as Hx by (apply Hl; left).
  destruct c as [|c].
  - simpl. rewrite lookup_total_app_l by lia. done.
  - rewrite lookup_total_app_r by lia.
    replace (S c * m + i - length x)%nat with (c * m + i)%nat by lia.
    simpl. apply IH; [|lia|done].
    intros y Hy. apply Hl. by right.
Qed.

Lemma bind_singleton_fmap {A B} (f : A → B) (l : list A) :
  l ≫= (λ x, [f x]) = f <$> l.
Proof. induction l; simpl; [done|]. by f_equal. Qed.

(** ** Loops as folds *)

Lemma foldl_inv {A B} (Q : A → Prop) (f : A → B → A) (l : list B) (a : A) :
  Q a → (∀ a b, Q a → Q (f a b)) → Q (foldl f a l).
Proof.
  intros Ha Hf. revert a Ha. induction l; simpl; intros; [done|].
  apply IHl. by apply Hf.
Qed.

Lemma foldl_trace {A B C} (f : A → B → A) (tr : A → list C)
    (e : B → list C) (l : list B) (a : A) :
  (∀ a b, tr (f a b) = tr a ++ e b) →
  tr (foldl f a l) = tr a ++ (l ≫= e).
Proof.
  intros Hf. revert a. induction l as [|b l IH]; intros a; simpl.
  - by rewrite app_nil_r.
  - rewrite IH, Hf. by rewrite <- app_assoc.
Qed.

(** ** What the kernel does to the running best, whatever the cell *)

Section Tracking.
Context (O : SimdOps) (sc : SCORE) (g : CSR_char_container).
Context (withLongHop : list bool).
Context (Inv : list (nat * nat * vec O) → vec O → vec O → cols O → Prop).

Local Notation holds st :=
  (Inv (cells O st) (bestScores512 O st) (bestRows512 O st) (bestCols512 O st)).

Hypothesis Inv_step : ∀ h b r c row k cur,
  Inv h b r c →
  Inv (h ++ [(row, k, cur)]) (s_max O cur b)
      (s_mask_set1 O r (s_cmpeq O cur (s_max O cur b)) (Z.of_nat row))
      (c_mask_set1_32 O c (s_cmpeq O cur (s_max O cur b)) (Z.of_nat k)).

Lemma kernel_cell_track P rc loopJ j k acc l :
  holds acc.1 → holds (kernel_cell O sc g withLongHop P rc loopJ j k acc l).1.
Proof. intros Hacc. unfold kernel_cell. simpl. by apply Inv_step. Qed.

Lemma kernel_vertex_track P rc loopJ j st k :
  holds st → holds (kernel_vertex O sc g withLongHop P rc loopJ j st k).
Proof.
  intros Hst. unfold kernel_vertex.
  pose proof (foldl_inv (λ acc : kstate O * vec O, holds acc.1)
                (kernel_cell O sc g withLongHop P rc loopJ j k)
                (seq 0 blockHeight) (st, s_zero O) Hst) as Hf.
  destruct (foldl _ _ _) as [st' cur]. simpl.
  apply Hf. intros. by apply kernel_cell_track.
Qed.

Lemma kernel_block_track P soa offset st loopJ :
  holds st → holds (kernel_block O sc g withLongHop P soa offset st loopJ).
Proof.
  intros Hst. unfold kernel_block.
  apply (foldl_inv (λ st, holds st)); [done|].
  intros. by apply kernel_vertex_track.
Qed.

Lemma kernel_batch_track P soa offset qbl nb fb :
  Inv [] (s_zero O) (s_zero O) (c_zero O) →
  holds (kernel_batch O sc g withLongHop P soa offset qbl nb fb).
Proof.
  intros H0. unfold kernel_batch.
  apply (foldl_inv (λ st, holds st)); [done|].
  intros. by apply kernel_block_track.
Qed.

End Tracking.

(** ** The order of the cells *)

Section Scan_Order.
Context (O : SimdOps) (sc : SCORE) (g : CSR_char_container).
Context (withLongHop : list bool).

Lemma kernel_vertex_cells rc loopJ j st k :
  (cells O (kernel_vertex O sc g withLongHop (Forward O) rc loopJ j st k)).*1
  = (cells O st).*1 ++ ((λ l, ((j + l)%nat, k)) <$> seq 0 blockHeight).
Proof.
  unfold kernel_vertex.
  pose proof (foldl_trace (kernel_cell O sc g withLongHop (Forward O) rc loopJ j k)
                (λ acc, (cells O acc.1).*1) (λ l, [((j + l)%nat, k)])
                (seq 0 blockHeight) (st, s_zero O)) as Hf.
  rewrite bind_singleton_fmap in Hf.
  destruct (foldl _ _ _) as [st' cur]. simpl.
  apply Hf.
  intros a b. unfold kernel_cell. simpl. by rewrite fmap_app.
Qed.

Lemma kernel_block_cells soa offset st loopJ :
  (cells O (kernel_block O sc g withLongHop (Forward O) soa offset st loopJ)).*1
  = (cells O st).*1
    ++ (seq 0 (numVertices g) ≫= λ k,
          (λ l, ((loopJ * blockHeight + l)%nat, k)) <$> seq 0 blockHeight).
Proof.
  unfold kernel_block.
  apply (foldl_trace _ (λ st, (cells O st).*1)).
  intros. apply kernel_vertex_cells.
Qed.

Lemma kernel_batch_cells soa offset qbl nb fb :
  (cells O (kernel_batch O sc g withLongHop (Forward O) soa offset qbl nb fb)).*1
  = scan_order g qbl.
Proof.
  unfold kernel_batch, scan_order.
  rewrite (foldl_trace _ (λ st, (cells O st).*1)
             (λ loopJ, seq 0 (numVertices g) ≫= λ k,
                (λ l, ((loopJ * blockHeight + l)%nat, k)) <$> seq 0 blockHeight)).
  - done.
  - intros. apply kernel_block_cells.
Qed.

End Scan_Order.

(** ** One lane *)

Lemma running_max_snoc h c : running_max (h ++ [c]) = Z.max c.2 (running_max h).
Proof. unfold running_max. by rewrite foldl_app. Qed.

Lemma lane_history_snoc ℓ h row k cur :
  lane_history ℓ (h ++ [(row, k, cur)])
  = lane_history ℓ h ++ [(row, k, cur !!! ℓ)].
Proof. unfold lane_history. by rewrite fmap_app. Qed.

Lemma running_max_nonneg h : 0 ≤ running_max h.
Proof.
  induction h as [|c h IH] using rev_ind; [done|].
  rewrite running_max_snoc. lia.
Qed.

Lemma running_max_ge h c : c ∈ h → c.2 ≤ running_max h.
Proof.
  induction h as [|c' h IH] using rev_ind; [by intros ?%elem_of_nil|].
  rewrite running_max_snoc. intros [Hc|Hc%list_elem_of_singleton]%elem_of_app.
  - specialize (IH Hc). lia.
  - subst. lia.
Qed.

(** The column registers keep their shape. *)
Lemma cols_shape_zero t :
  length (c_zero (vec_ops t)) = colRegistersCountPerBatch t
  ∧ ∀ x, x ∈ c_zero (vec_ops t) → length x = colValuesPerRegister.
Proof.
  simpl. split; [by rewrite length_replicate|].
  intros x [-> _]%elem_of_replicate. by rewrite length_lanes.
Qed.

Lemma cols_shape_set t (cs : list (list Z)) (k : list bool) x :
  length (c_mask_set1_32 (vec_ops t) cs k x) = colRegistersCountPerBatch t
  ∧ ∀ y, y ∈ c_mask_set1_32 (vec_ops t) cs k x → length y = colValuesPerRegister.
Proof.
  simpl. split; [by rewrite length_lanes|].
  unfold lanes at 1. intros y (c & -> & _)%list_elem_of_fmap.
  by rewrite length_lanes.
Qed.

Lemma numSeqs_cols t :
  numSeqs t = (colRegistersCountPerBatch t * colValuesPerRegister)%nat.
Proof. by destruct t. Qed.

(** Lane [ℓ] of the column registers after [mask_set1_32]. *)
Lemma cols_lane_set_at t (cs : list (list Z)) (k : list bool) x c i :
  (c < colRegistersCountPerBatch t)%nat → (i < colValuesPerRegister)%nat →
  length cs = colRegistersCountPerBatch t →
  (∀ y, y ∈ cs → length y = colValuesPerRegister) →
  concat (c_mask_set1_32 (vec_ops t) cs k x)
    !!! (c * colValuesPerRegister + i)%nat
  = if mask_bit k (c * colValuesPerRegister + i)
    then wrap 32 x else concat cs !!! (c * colValuesPerRegister + i)%nat.
Proof.
  intros Hc Hi Hlen Hsh.
  destruct (cols_shape_set t cs k x) as [Hlen' Hsh'].
  rewrite !(concat_lookup_uniform colValuesPerRegister) by (done || lia).
  change (c_mask_set1_32 (vec_ops t) cs k x)
    with (lanes (colRegistersCountPerBatch t) (λ c : nat,
            lanes colValuesPerRegister
              (λ i : nat, if mask_bit (mask_shr k (c * colValuesPerRegister)) i
                          then wrap 32 x else (cs !!! c) !!! i))).
  rewrite !lanes_lookup_total by done.
  by rewrite mask_bit_shr.
Qed.

Lemma cols_lane_set t (cs : list (list Z)) (k : list bool) x ℓ :
  (ℓ < numSeqs t)%nat →
  length cs = colRegistersCountPerBatch t →
  (∀ y, y ∈ cs → length y = colValuesPerRegister) →
  concat (c_mask_set1_32 (vec_ops t) cs k x) !!! ℓ
  = if mask_bit k ℓ then wrap 32 x else concat cs !!! ℓ.
Proof.
  intros Hℓ Hlen Hsh. rewrite numSeqs_cols in Hℓ.
  assert (ℓ = (ℓ / colValuesPerRegister * colValuesPerRegister
               + ℓ mod colValuesPerRegister)%nat) as Hdm.
  { pose proof (Nat.div_mod_eq ℓ colValuesPerRegister). lia. }
  assert (ℓ / colValuesPerRegister < colRegistersCountPerBatch t)%nat as Hc.
  { apply Nat.Div0.div_lt_upper_bound. lia. }
  assert (ℓ mod colValuesPerRegister < colValuesPerRegister)%nat as Hi.
  { apply Nat.mod_upper_bound. done. }
  rewrite Hdm. by apply cols_lane_set_at.
Qed.

(** The best score of a lane is the largest of its cells, and its end
    point the last cell that attains it. *)
Lemma lane_tracking t sc g withLongHop P soa offset qbl nb fb ℓ :
  (ℓ < numSeqs t)%nat →
  let st := kernel_batch (vec_ops t) sc g withLongHop P soa offset qbl nb fb in
  let h := lane_history ℓ (cells _ st) in
  bestScores512 _ st !!! ℓ = running_max h
  ∧ ∀ h1 r v h2,
      h = h1 ++ (r, v, running_max h) :: h2 →
      (∀ c, c ∈ h2 → c.2 ≠ running_max h) →
      bestRows512 _ st !!! ℓ = wrap (lane_bits t) (Z.of_nat r)
      ∧ concat (bestCols512 _ st) !!! ℓ = wrap 32 (Z.of_nat v).
Proof.
  intros Hℓ st h. subst st h.
  pose (Inv := λ (h : list (nat * nat * list Z)) (b r : list Z)
                 (c : list (list Z)),
          b !!! ℓ = running_max (lane_history ℓ h)
          ∧ (length c = colRegistersCountPerBatch t
             ∧ ∀ y, y ∈ c → length y = colValuesPerRegister)
          ∧ ∀ h1 row v h2,
              lane_history ℓ h
              = h1 ++ (row, v, running_max (lane_history ℓ h)) :: h2 →
              (∀ c0, c0 ∈ h2 → c0.2 ≠ running_max (lane_history ℓ h)) →
              r !!! ℓ = wrap (lane_bits t) (Z.of_nat row)
              ∧ concat c !!! ℓ = wrap 32 (Z.of_nat v)).
  pose proof (kernel_batch_track (vec_ops t) sc g withLongHop Inv) as HT.
  destruct (HT) with (P := P) (soa := soa) (offset := offset) (qbl := qbl)
                     (nb := nb) (fb := fb) as (Hb & _ & He).
  - (* one cell *)
    clear HT. intros h b r c row k cur (Hb & [Hlen Hsh] & He).
    change (vec (vec_ops t)) with (list Z) in *.
    change (cols (vec_ops t)) with (list (list Z)) in *.
    unfold Inv. rewrite lane_history_snoc, running_max_snoc. simpl.
    set (H := lane_history ℓ h) in *. set (m := running_max H) in *.
    set (x := cur !!! ℓ).
    assert (lanes (numSeqs t) (λ i : nat, Z.max (cur !!! i) (b !!! i)) !!! ℓ
            = Z.max x m) as Hmax.
    { rewrite lanes_lookup_total by done. cbv beta. by rewrite Hb. }
    assert (mask_bit (lanes (numSeqs t) (λ i : nat, cur !!! i =?
              lanes (numSeqs t) (λ i0 : nat, Z.max (cur !!! i0) (b !!! i0)) !!! i)) ℓ
            = (x =? Z.max x m)) as Hbit.
    { rewrite mask_bit_lanes by done. cbv beta. by rewrite Hmax. }
    split; [done|]. split.
    { apply (cols_shape_set t). }
    intros h1 row' v h2 Hdec Hno.
    pose proof (cols_lane_set t c
      (lanes (numSeqs t) (λ i : nat, cur !!! i =?
         lanes (numSeqs t) (λ i0 : nat, Z.max (cur !!! i0) (b !!! i0)) !!! i))
      (Z.of_nat k) ℓ Hℓ Hlen Hsh) as Hcol.
    simpl in Hcol. rewrite Hcol. clear Hcol.
    rewrite lanes_lookup_total by done. rewrite Hbit.
    destruct h2 as [|c2 h2 _] using rev_ind.
    + apply app_inj_tail in Hdec as [_ Hdec].
      injection Hdec as <- <- Hx.
      by destruct (Z.eqb_spec x (Z.max x m)).
    + rewrite app_comm_cons, app_assoc in Hdec.
      apply app_inj_tail in Hdec as [Hdec <-].
      assert (x ≠ Z.max x m) as Hne.
      { apply (Hno (row, k, x)). apply elem_of_app. right. by left. }
      destruct (Z.eqb_spec x (Z.max x m)) as [|_]; [done|].
      assert (Z.max x m = m) as Hm by lia.
      rewrite Hm in *.
      apply (He h1 row' v h2); [done|].
      intros c0 Hc0. apply Hno. apply elem_of_app. by left.
  - (* before the first cell *)
    unfold Inv. split; [|split].
    + simpl. by rewrite lanes_lookup_total.
    + apply cols_shape_zero.
    + intros h1 row v h2 Hdec. by destruct h1.
  - split; [done|]. exact He.
Qed.

(** A positive best score is attained, and for the last time somewhere. *)
Lemma running_max_attained h :
  0 < running_max h →
  ∃ h1 r v h2, h = h1 ++ (r, v, running_max h) :: h2
               ∧ ∀ c, c ∈ h2 → c.2 ≠ running_max h.
Proof.
  induction h as [|[[r v] x] h IH] using rev_ind; [by cbv|].
  rewrite running_max_snoc. simpl. intros Hpos.
  destruct (decide (x = Z.max x (running_max h))) as [Hx|Hx].
  - exists h, r, v, []. rewrite <- Hx. split; [done|].
    by intros c ?%elem_of_nil.
  - assert (Z.max x (running_max h) = running_max h) as Hm by lia.
    rewrite Hm in *. destruct (IH Hpos) as (h1 & r' & v' & h2 & Hdec & Hno).
    exists h1, r', v', (h2 ++ [(r, v, x)]). split.
    + rewrite Hdec at 1. by rewrite <- app_assoc.
    + intros c [Hc|Hc%list_elem_of_singleton]%elem_of_app; [by apply Hno|].
      by subst.
Qed.

(** ** The tie policy of the best-score tracking *)

(** C6, as it holds.  In a batch of the forward vector kernel the cells
    are visited row block after row block, in a block vertex after vertex,
    and for a vertex row after row.  For every lane the best score is the
    largest cell value of the lane (and 0 at least), and when several cells
    attain it the end point is that of the latest of them in this order:
    the row in the type of the lane, the vertex as a 32-bit value. *)
Theorem best_endpoint_is_latest_in_scan_order
    t sc g withLongHop soa offset qbl nb fb ℓ :
  (ℓ < numSeqs t)%nat →
  let st := kernel_batch (vec_ops t) sc g withLongHop (Forward _)
              soa offset qbl nb fb in
  let h := lane_history ℓ (cells _ st) in
  (cells _ st).*1 = scan_order g qbl
  ∧ bestScores512 _ st !!! ℓ = running_max h
  ∧ ∀ h1 r v h2,
      h = h1 ++ (r, v, running_max h) :: h2 →
      (∀ c, c ∈ h2 → c.2 ≠ running_max h) →
      bestRows512 _ st !!! ℓ = wrap (lane_bits t) (Z.of_nat r)
      ∧ concat (bestCols512 _ st) !!! ℓ = wrap 32 (Z.of_nat v).
Proof.
  intros Hℓ st h. split.
  - apply kernel_batch_cells.
  - apply (lane_tracking t sc g withLongHop (Forward _) soa offset qbl nb fb ℓ Hℓ).
Qed.

Lemma best_endpoint_is_latest_in_scan_order_witness :
  (0 < numSeqs Int32)%nat
  ∧ let st := kernel_batch (vec_ops Int32) unit_scores two_vertices
                (computeLongHops two_vertices) (Forward _)
                (convertToSOA Int32 ["GCCCCCCCCCCCCCCCCA"%string]).1 0%nat 32%nat
                (fresh_buffers Int32 two_vertices 0%nat).1
                (fresh_buffers Int32 two_vertices 0%nat).2 in
    let h := lane_history 0 (cells _ st) in
    (cells _ st).*1 = scan_order two_vertices 32%nat
    ∧ bestScores512 _ st !!! 0%nat = running_max h
    ∧ ∀ h1 r v h2,
        h = h1 ++ (r, v, running_max h) :: h2 →
        (∀ c, c ∈ h2 → c.2 ≠ running_max h) →
        bestRows512 _ st !!! 0%nat = wrap (lane_bits Int32) (Z.of_nat r)
        ∧ concat (bestCols512 _ st) !!! 0%nat = wrap 32 (Z.of_nat v).
Proof.
  split; [by_computation|].
  apply (best_endpoint_is_latest_in_scan_order Int32 unit_scores two_vertices
           (computeLongHops two_vertices)
           (convertToSOA Int32 ["GCCCCCCCCCCCCCCCCA"%string]).1 0%nat 32%nat
           (fresh_buffers Int32 two_vertices 0%nat).1
           (fresh_buffers Int32 two_vertices 0%nat).2 0%nat).
  by_computation.
Defined.

(** C6, as stated with the largest vertex first, fails.  Take the
    vertices A and G without an edge and the read G C...C A of 18
    characters.  The cells (row 0, vertex 1) and (row 17, vertex 0) hold
    the best score 1; row 17 is in the second row block, which is visited
    after the whole of the first, and the end point reported is (17, 0),
    not the cell of the largest vertex. *)
Lemma tie_not_by_largest_vertex :
  ¬ largest_vertex_then_row_wins Int32 unit_scores two_vertices
      "GCCCCCCCCCCCCCCCCA".
Proof.
  intros H. specialize (H 0%nat 1%nat).
  destruct H as [H|[H _]].
  - apply (list_elem_of_lookup_2 _ 16%nat). vm_compute. reflexivity.
  - revert H. vm_compute. discriminate.
  - revert H. vm_compute. discriminate.
Qed.

(** The scalar kernel of [align.hpp] takes a new end point only for a
    strictly larger score: of the three cells with score 1 on the chain
    A -> A -> A it reports the first. *)
Lemma scalar_kernel_keeps_first_cell :
  let best := alignToDAGLocal_Phase1_Score unit_costs (chain_graph "AAA") "A"
                best_init in
  (score best, qryRow best, refColumn best) = (1, 0%nat, 0%nat).
Proof. vm_compute. reflexivity. Qed.

(** ** The recurrence of one lane *)

Lemma foldl_ext_in {A B} (f f' : A → B → A) (l : list B) (a : A) :
  (∀ a b, b ∈ l → f a b = f' a b) → foldl f a l = foldl f' a l.
Proof.
  revert a. induction l as [|b l IH]; intros a Hf; simpl; [done|].
  rewrite Hf by left. apply IH. intros. apply Hf. by right.
Qed.

(** A list built element by element from what is built so far. *)
Lemma build_spec {A} (f : list A → nat → A) (n : nat) :
  length (foldl (λ cur k, cur ++ [f cur k]) [] (seq 0 n)) = n
  ∧ ∀ k, (k < n)%nat →
         foldl (λ cur k, cur ++ [f cur k]) [] (seq 0 n) !! k
         = Some (f (take k (foldl (λ cur k, cur ++ [f cur k]) [] (seq 0 n))) k).
Proof.
  induction n as [|n [IHlen IH]].
  - split; [done|]. lia.
  - rewrite seq_S, foldl_app. simpl.
    set (l := foldl (λ cur k, cur ++ [f cur k]) [] (seq 0 n)) in *.
    split; [rewrite length_app; simpl; lia|].
    intros k Hk. destruct (decide (k = n)) as [->|Hne].
    + rewrite take_app_length' by done.
      rewrite lookup_app_r by lia. rewrite IHlen, Nat.sub_diag. done.
    + rewrite lookup_app_l by lia. rewrite take_app_le by lia.
      apply IH. lia.
Qed.

Section Lane_Recurrence.
Context (t : SimdType) (sc : SCORE) (g : CSR_char_container).
Context (chars : nat → Z).
Hypothesis Hsorted : topo_sorted g.

Local Notation M := (lane_value t sc g chars).
Local Notation w := (lane_bits t).

Lemma length_lane_row above r :
  length (lane_row t sc g chars above r) = numVertices g.
Proof. apply (build_spec (λ cur k, lane_cell t sc g chars above cur r k)). Qed.

Lemma length_lane_above r :
  length (lane_above t sc g chars r) = numVertices g.
Proof. destruct r; simpl; [by rewrite length_replicate|apply length_lane_row]. Qed.

Lemma lane_above_0 p :
  (p < numVertices g)%nat → lane_above t sc g chars 0 !!! p = 0.
Proof. intros Hp. simpl. by rewrite lookup_total_replicate_2. Qed.

Lemma lane_cell_ext above cur cur' r k :
  (∀ p, p ∈ in_neighbors g k → cur !!! p = cur' !!! p) →
  lane_cell t sc g chars above cur r k = lane_cell t sc g chars above cur' r k.
Proof.
  intros Hc. unfold lane_cell. f_equal.
  apply foldl_ext_in. intros m p Hp. by rewrite (Hc p Hp).
Qed.

Lemma lane_value_cell r k :
  (k < numVertices g)%nat →
  M r k = lane_cell t sc g chars (lane_above t sc g chars r)
            (lane_above t sc g chars (S r)) r k.
Proof.
  intros Hk. unfold lane_value. simpl.
  destruct (build_spec (λ cur k, lane_cell t sc g chars
                                   (lane_above t sc g chars r) cur r k)
              (numVertices g)) as [Hlen Hl].
  apply list_lookup_total_correct. unfold lane_row. rewrite (Hl k Hk).
  f_equal. apply lane_cell_ext. intros p Hp.
  apply Hsorted in Hp; [|done].
  rewrite lookup_total_take. by destruct (decide (p < k)%nat).
Qed.

(** The recurrence: every cell from the row above and the cells of its
    in-neighbours in its own row. *)
Lemma lane_value_unfold r k :
  (k < numVertices g)%nat →
  M r k
  = Z.max
      (foldl (λ m p,
                Z.max (Z.max m (wrap w (lane_above t sc g chars r !!! p
                                        + lane_sub t sc g chars r k)))
                      (wrap w (M r p + wrap w (score_del sc))))
             (Z.max 0 (lane_sub t sc g chars r k)) (in_neighbors g k))
      (wrap w (lane_above t sc g chars r !!! k + wrap w (score_ins sc))).
Proof. intros Hk. by rewrite lane_value_cell. Qed.

Lemma lane_value_nonneg r k : (k < numVertices g)%nat → 0 ≤ M r k.
Proof.
  intros Hk. rewrite lane_value_unfold by done.
  etrans; [|apply Z.le_max_l].
  generalize (in_neighbors g k). intros ps.
  assert (0 ≤ Z.max 0 (lane_sub t sc g chars r k)) as H0 by lia.
  revert H0. generalize (Z.max 0 (lane_sub t sc g chars r k)).
  induction ps as [|p ps IH]; intros m Hm; simpl; [done|].
  apply IH. lia.
Qed.

End Lane_Recurrence.

(** The rows above [r] depend on the characters above [r] only. *)
Lemma lane_above_ext t sc g (chars chars' : nat → Z) r :
  (∀ r', (r' < r)%nat → chars r' = chars' r') →
  lane_above t sc g chars r = lane_above t sc g chars' r.
Proof.
  induction r as [|r IH]; intros Hc; simpl; [done|].
  rewrite IH by (intros; apply Hc; lia).
  unfold lane_row, lane_cell, lane_sub. by rewrite (Hc r) by lia.
Qed.

Lemma lane_value_ext t sc g (chars chars' : nat → Z) r k :
  (∀ r', (r' ≤ r)%nat → chars r' = chars' r') →
  lane_value t sc g chars r k = lane_value t sc g chars' r k.
Proof.
  intros Hc. unfold lane_value.
  by rewrite (lane_above_ext t sc g chars chars' (S r)) by (intros; apply Hc; lia).
Qed.

(** ** Buffers of registers *)

Lemma length_bset {A} (b : list (list A)) r j x :
  length (bset b r j x) = length b.
Proof. unfold bset. by rewrite length_insert. Qed.

Lemma bset_row_length {A} (b : list (list A)) r j x s :
  length (bset b r j x !!! s) = length (b !!! s).
Proof.
  unfold bset. destruct (decide (r = s)) as [<-|Hne].
  - destruct (decide (r < length b)%nat).
    + rewrite list_lookup_total_insert_eq by done. by rewrite length_insert.
    + by rewrite list_insert_ge by lia.
  - by rewrite list_lookup_total_insert_ne.
Qed.

Lemma bget_bset_eq {A} `{Inhabited A} (b : list (list A)) r j x :
  (r < length b)%nat → (j < length (b !!! r))%nat →
  bget (bset b r j x) r j = x.
Proof.
  intros Hr Hj. unfold bget, bset.
  rewrite list_lookup_total_insert_eq by done.
  by rewrite list_lookup_total_insert_eq.
Qed.

Lemma bget_bset_ne {A} `{Inhabited A} (b : list (list A)) r j x r' j' :
  (r ≠ r' ∨ j ≠ j') → bget (bset b r j x) r' j' = bget b r' j'.
Proof.
  intros Hne. unfold bget, bset.
  destruct (decide (r = r')) as [<-|Hr].
  - destruct (decide (r < length b)%nat).
    + rewrite list_lookup_total_insert_eq by done.
      rewrite list_lookup_total_insert_ne; [done|by destruct Hne].
    + by rewrite list_insert_ge by lia.
  - by rewrite list_lookup_total_insert_ne.
Qed.

(** ** The window of [blockWidth] columns *)

Lemma nearby_slot_mod k : nearby_slot k = (k mod blockWidth)%nat.
Proof.
  unfold nearby_slot.
  change (blockWidth - 1)%nat with (Nat.ones 3).
  by rewrite Nat.land_ones.
Qed.

Lemma nearby_slot_lt k : (nearby_slot k < blockWidth)%nat.
Proof. rewrite nearby_slot_mod. by apply Nat.mod_upper_bound. Qed.

Lemma nearby_slot_ne p k :
  (p < k)%nat → (k < p + blockWidth)%nat → nearby_slot p ≠ nearby_slot k.
Proof.
  intros Hpk Hk. rewrite !nearby_slot_mod. intros Heq.
  pose proof (Nat.div_mod_eq p blockWidth).
  pose proof (Nat.div_mod_eq k blockWidth).
  pose proof (Nat.mod_upper_bound p blockWidth ltac:(done)).
  assert (k / blockWidth ≠ p / blockWidth)%nat by (intros E; rewrite E in *; lia).
  assert (p / blockWidth ≤ k / blockWidth)%nat.
  { apply Nat.Div0.div_le_mono. lia. }
  unfold blockWidth in *. nia.
Qed.

Lemma hop_is_short_spec k p :
  (p < k)%nat → Z.of_nat k < 2 ^ 31 →
  hop_is_short k p = true ↔ (k < p + blockWidth)%nat.
Proof.
  intros Hpk Hk. unfold hop_is_short.
  rewrite Z.mod_small by lia. rewrite Z.ltb_lt. lia.
Qed.

Lemma hop_is_short_false k p :
  hop_is_short k p = false → hop_at_least_blockWidth k p = true.
Proof.
  unfold hop_is_short, hop_at_least_blockWidth.
  rewrite Z.ltb_ge, Z.leb_le. done.
Qed.

(** ** One cell of the kernel, at one lane *)

Section Kernel_Cell.
Context (t : SimdType) (sc : SCORE) (g : CSR_char_container).
Context (withLongHop : list bool) (ℓ : nat).
Hypothesis Hℓ : (ℓ < numSeqs t)%nat.

Local Notation VO := (vec_ops t).
Local Notation w := (lane_bits t).
Local Notation n := (numSeqs t).

Lemma foldl_neighbors_lane (A B : nat → list Z) (sub del cur0 : list Z) ps :
  (foldl (λ cur p, s_max VO (s_max VO cur (s_add VO (A p) sub))
                           (s_add VO (B p) del)) cur0 ps : list Z) !!! ℓ
  = foldl (λ m p, Z.max (Z.max m (wrap w (A p !!! ℓ + sub !!! ℓ)))
                        (wrap w (B p !!! ℓ + del !!! ℓ)))
          (cur0 !!! ℓ) ps.
Proof.
  revert cur0. induction ps as [|p ps IH]; intros cur0; simpl; [done|].
  rewrite IH. f_equal. by rewrite !lanes_lookup_total by done.
Qed.

Lemma sub512_lane (rc : list Z) (l k : nat) :
  (s_blend VO (s_cmpeq VO (s_load VO rc l)
                        (s_set1 VO (char_code (vertex_label g !!! k))))
           (mismatch512 VO sc) (match512 VO sc) : list Z) !!! ℓ
  = if rc !!! (l * n + ℓ)%nat =? wrap w (char_code (vertex_label g !!! k))
    then wrap w (score_match sc) else wrap w (score_mismatch sc).
Proof.
  unfold mismatch512, match512. simpl.
  rewrite lanes_lookup_total by done.
  rewrite mask_bit_lanes by done.
  by rewrite !lanes_lookup_total by done.
Qed.

Lemma set1_lane x : (s_set1 VO x : list Z) !!! ℓ = wrap w x.
Proof. simpl. by rewrite lanes_lookup_total. Qed.

Lemma zero_lane : (s_zero VO : list Z) !!! ℓ = 0.
Proof. simpl. by rewrite lanes_lookup_total. Qed.

Lemma max_lane (a b : list Z) :
  (s_max VO a b : list Z) !!! ℓ = Z.max (a !!! ℓ) (b !!! ℓ).
Proof. simpl. by rewrite lanes_lookup_total. Qed.

Lemma add_lane (a b : list Z) :
  (s_add VO a b : list Z) !!! ℓ = wrap w (a !!! ℓ + b !!! ℓ).
Proof. simpl. by rewrite lanes_lookup_total. Qed.

(** The value of the cell. *)
Lemma kernel_cell_value rc loopJ j k (acc : kstate VO * list Z) l :
  let st := acc.1 in
  let sub :=
    if rc !!! (l * n + ℓ)%nat =? wrap w (char_code (vertex_label g !!! k))
    then wrap w (score_match sc) else wrap w (score_mismatch sc) in
  ((kernel_cell VO sc g withLongHop (Forward VO) rc loopJ j k acc l).2
     : list Z) !!! ℓ
  = Z.max
      (foldl (λ m p,
                Z.max (Z.max m
                         (wrap w (match l with
                                  | O => lane_at ℓ (lastBatchRow _ st)
                                           (prev_row loopJ) p
                                  | S l' => (neighbor_column VO (Forward VO) st k p
                                               !!! l' : list Z) !!! ℓ
                                  end + sub)))
                      (wrap w ((neighbor_column VO (Forward VO) st k p !!! l
                                  : list Z) !!! ℓ
                               + wrap w (score_del sc))))
             (Z.max 0 sub) (in_neighbors g k))
      (wrap w (match l with
               | O => lane_at ℓ (lastBatchRow _ st) (prev_row loopJ) k
               | S l' => lane_at ℓ (nearbyColumns _ st) (nearby_slot k) l'
               end + wrap w (score_ins sc))).
Proof.
  intros st sub. unfold kernel_cell. cbv zeta.
  change (acc.1) with st.
  change (vec VO) with (list Z) in *.
  destruct l as [|l'].
  - change ((0 =? 0)%nat) with true. cbv iota.
    unfold pass_neighbors. cbn [snd].
    rewrite max_lane, add_lane.
    rewrite (foldl_neighbors_lane
               (λ p, bget (lastBatchRow VO st) (prev_row loopJ) p)
               (λ p, neighbor_column VO (Forward VO) st k p !!! 0%nat)).
    rewrite max_lane, zero_lane, sub512_lane.
    unfold del512, ins512. rewrite !set1_lane. done.
  - change ((S l' =? 0)%nat) with false. cbv iota.
    unfold pass_neighbors. cbn [snd].
    rewrite max_lane, add_lane.
    replace (S l' - 1)%nat with l' by lia.
    rewrite (foldl_neighbors_lane
               (λ p, neighbor_column VO (Forward VO) st k p !!! l')
               (λ p, neighbor_column VO (Forward VO) st k p !!! S l')).
    rewrite max_lane, zero_lane, sub512_lane.
    unfold del512, ins512. rewrite !set1_lane. done.
Qed.

(** The state after the cell. *)
Lemma kernel_cell_nearby rc loopJ j k (acc : kstate VO * list Z) l :
  nearbyColumns _ (kernel_cell VO sc g withLongHop (Forward VO) rc loopJ j k acc l).1
  = bset (nearbyColumns _ acc.1) (nearby_slot k) l
         (kernel_cell VO sc g withLongHop (Forward VO) rc loopJ j k acc l).2.
Proof. done. Qed.

Lemma kernel_cell_farther rc loopJ j k (acc : kstate VO * list Z) l :
  fartherColumns _ (kernel_cell VO sc g withLongHop (Forward VO) rc loopJ j k acc l).1
  = if (withLongHop !!! k : bool)
    then bset (fartherColumns _ acc.1) k l
           (kernel_cell VO sc g withLongHop (Forward VO) rc loopJ j k acc l).2
    else fartherColumns _ acc.1.
Proof. done. Qed.

Lemma kernel_cell_lastBatchRow rc loopJ j k (acc : kstate VO * list Z) l :
  lastBatchRow _ (kernel_cell VO sc g withLongHop (Forward VO) rc loopJ j k acc l).1
  = lastBatchRow _ acc.1.
Proof. done. Qed.

Lemma kernel_cell_cells rc loopJ j k (acc : kstate VO * list Z) l :
  cells _ (kernel_cell VO sc g withLongHop (Forward VO) rc loopJ j k acc l).1
  = cells _ acc.1
    ++ [((j + l)%nat, k,
         (kernel_cell VO sc g withLongHop (Forward VO) rc loopJ j k acc l).2)].
Proof. done. Qed.

End Kernel_Cell.

Lemma foldl_seq_inv {A} (Q : nat → A → Prop) (f : A → nat → A) (n : nat) (a : A) :
  Q 0%nat a →
  (∀ i a, (i < n)%nat → Q i a → Q (S i) (f a i)) →
  Q n (foldl f a (seq 0 n)).
Proof.
  intros H0 Hstep. induction n as [|n IH]; [done|].
  rewrite seq_S, foldl_app. simpl. apply Hstep; [lia|].
  apply IH. intros. apply Hstep; [lia|done].
Qed.

(** ** The forward kernel computes the recurrence in every lane *)

Section Kernel_Forward.
Context (t : SimdType) (sc : SCORE) (g : CSR_char_container).
Context (soa : list ascii) (offset ℓ : nat).
Hypothesis Hℓ : (ℓ < numSeqs t)%nat.
Hypothesis Hsorted : topo_sorted g.
Hypothesis HV : Z.of_nat (numVertices g) < 2 ^ 31.

Local Notation VO := (vec_ops t).
Local Notation w := (lane_bits t).
Local Notation n := (numSeqs t).
Local Notation chars := (soa_char t soa offset ℓ).
Local Notation M := (lane_value t sc g chars).
Local Notation wlh := (computeLongHops g).
Local Notation cinv := (cell_inv t sc g wlh chars ℓ).
Local Notation vinv := (vertex_inv t sc g wlh chars ℓ).

(** The column of an in-neighbour is where the kernel looks for it. *)
Lemma neighbor_column_lane (st : kstate VO) loopJ k p l :
  (k < numVertices g)%nat → p ∈ in_neighbors g k → (l < blockHeight)%nat →
  (∀ p l', (p < k)%nat → (k < p + blockWidth)%nat → (l' < blockHeight)%nat →
     lane_at ℓ (nearbyColumns _ st) (nearby_slot p) l'
     = M (loopJ * blockHeight + l')%nat p) →
  (∀ p l', (p < k)%nat → wlh !!! p = true → (l' < blockHeight)%nat →
     lane_at ℓ (fartherColumns _ st) p l' = M (loopJ * blockHeight + l')%nat p) →
  (neighbor_column VO (Forward VO) st k p !!! l : list Z) !!! ℓ
  = M (loopJ * blockHeight + l)%nat p.
Proof.
  intros Hk Hp Hl HN HF.
  pose proof (Hsorted k p Hk Hp) as Hpk.
  unfold neighbor_column.
  destruct (hop_is_short k p) eqn:Hshort.
  - apply hop_is_short_spec in Hshort; [|done|lia].
    by apply HN.
  - apply hop_is_short_false in Hshort.
    apply HF; [done| |done].
    apply computeLongHops_spec; [lia|].
    exists k. done.
Qed.

Lemma kernel_cell_inv rc loopJ k l (acc : kstate VO * list Z) :
  (k < numVertices g)%nat → (l < blockHeight)%nat →
  (∀ l', (l' < blockHeight)%nat →
         rc !!! (l' * n + ℓ)%nat = chars (loopJ * blockHeight + l')%nat) →
  cinv loopJ k l acc →
  cinv loopJ k (S l)
    (kernel_cell VO sc g wlh (Forward VO) rc loopJ (loopJ * blockHeight) k acc l).
Proof.
  intros Hk Hl Hrc (Hsh & HN & HNk & HF & HFk & HLc & HLp & Hcur & Hhist).
  set (j := (loopJ * blockHeight)%nat) in *.
  set (kc := kernel_cell VO sc g wlh (Forward VO) rc loopJ j k acc l).
  assert ((kc.2 : list Z) !!! ℓ = M (j + l)%nat k) as Hval.
  { unfold kc. rewrite kernel_cell_value by done.
    rewrite (lane_value_unfold t sc g chars Hsorted) by done.
    unfold lane_sub. rewrite Hrc by done. fold j.
    f_equal.
    - apply foldl_ext_in. intros m p Hp.
      pose proof (Hsorted k p Hk Hp) as Hpk.
      f_equal; [f_equal|]; f_equal; f_equal.
      + destruct l as [|l'].
        * rewrite Nat.add_0_r. apply HLp. lia.
        * rewrite Nat.add_succ_r.
          apply (neighbor_column_lane acc.1 loopJ k p l'); (done || lia).
      + apply (neighbor_column_lane acc.1 loopJ k p l); done.
    - f_equal. f_equal. destruct l as [|l'].
      + rewrite Nat.add_0_r. by apply HLp.
      + rewrite Nat.add_succ_r. apply HNk. lia. }
  destruct Hsh as (Hn1 & Hn2 & Hf1 & Hf2 & Hl1 & Hl2).
  unfold cell_inv. cbv zeta. fold j. fold kc.
  unfold kernel_shape, history_ok.
  unfold kc at 1 2 3 4 5 6 7 8 9 10 11 12 14.
  rewrite kernel_cell_nearby, kernel_cell_farther, kernel_cell_lastBatchRow,
    kernel_cell_cells.
  fold kc.
  change (vec VO) with (list Z) in *.
  split; [|split; [|split; [|split; [|split; [|split; [|split; [|split]]]]]]].
  - (* shape *)
    split; [by rewrite length_bset|].
    split; [intros s Hs; rewrite bset_row_length; by apply Hn2|].
    split; [destruct (wlh !!! k); [by rewrite length_bset|done]|].
    split; [|done].
    intros v Hv. destruct (wlh !!! k); [|by apply Hf2].
    rewrite bset_row_length. by apply Hf2.
  - intros p l' Hpk Hkp Hl'. unfold lane_at.
    rewrite bget_bset_ne; [by apply HN|].
    left. intros E. by apply (nearby_slot_ne p k).
  - intros l' Hl'. unfold lane_at.
    destruct (decide (l' = l)) as [->|Hne].
    + rewrite bget_bset_eq; [done| |].
      * rewrite Hn1. apply nearby_slot_lt.
      * rewrite Hn2 by apply nearby_slot_lt. done.
    + rewrite bget_bset_ne by (right; done). apply HNk. lia.
  - intros p l' Hpk Hp Hl'. unfold lane_at.
    destruct (wlh !!! k); [|by apply HF].
    rewrite bget_bset_ne by (left; lia). by apply HF.
  - intros Hwk l' Hl'. unfold lane_at. rewrite Hwk.
    destruct (decide (l' = l)) as [->|Hne].
    + rewrite bget_bset_eq; [done|lia|]. by rewrite Hf2.
    + rewrite bget_bset_ne by (right; done). apply HFk; [done|lia].
  - done.
  - done.
  - intros l' [= <-]. done.
  - rewrite lane_history_snoc. apply Forall_app. split; [done|].
    apply Forall_singleton. done.
Qed.

Lemma kernel_vertex_inv rc loopJ k (st : kstate VO) :
  (k < numVertices g)%nat →
  (∀ l', (l' < blockHeight)%nat →
         rc !!! (l' * n + ℓ)%nat = chars (loopJ * blockHeight + l')%nat) →
  vinv loopJ k st →
  vinv loopJ (S k)
    (kernel_vertex VO sc g wlh (Forward VO) rc loopJ (loopJ * blockHeight) st k).
Proof.
  intros Hk Hrc (Hsh & HN & HF & HLc & HLp & Hhist).
  unfold kernel_vertex.
  pose proof (foldl_seq_inv (λ l acc, cinv loopJ k l acc)
                (kernel_cell VO sc g wlh (Forward VO) rc loopJ
                   (loopJ * blockHeight) k)
                blockHeight (st, s_zero VO)) as Hfold.
  destruct (foldl _ _ _) as [st' cur].
  destruct Hfold as ((Hn1 & Hn2 & Hf1 & Hf2 & Hl1 & Hl2) & HN' & HNk & HF'
                     & HFk & HLc' & HLp' & Hcur & Hhist').
  { split; [done|]. split; [intros; apply HN; (done || lia)|].
    split; [intros; lia|]. split; [done|]. split; [intros; lia|].
    split; [done|]. split; [done|]. split; [intros l' [=]|done]. }
  { intros l acc Hl Hacc. by apply kernel_cell_inv. }
  cbn [fst snd] in *.
  change (vec VO) with (list Z) in *.
  unfold vertex_inv, kernel_shape, history_ok.
  cbn [nearbyColumns fartherColumns lastBatchRow cells].
  split; [|split; [|split; [|split; [|split]]]].
  - split; [done|]. split; [done|]. split; [done|]. split; [done|].
    split; [by rewrite length_bset|].
    intros i Hi. rewrite bset_row_length. by apply Hl2.
  - intros p l Hp Hkp Hl. destruct (decide (p = k)) as [->|Hne].
    + by apply HNk.
    + apply HN'; (done || lia).
  - intros p l Hp Hw Hl. destruct (decide (p = k)) as [->|Hne].
    + by apply HFk.
    + apply HF'; (done || lia).
  - intros p Hp. unfold lane_at. destruct (decide (p = k)) as [->|Hne].
    + rewrite bget_bset_eq.
      * replace (loopJ * blockHeight + blockHeight - 1)%nat
          with (loopJ * blockHeight + 15)%nat by (unfold blockHeight; lia).
        by apply Hcur.
      * rewrite Hl1. apply cur_row_lt.
      * rewrite Hl2 by apply cur_row_lt. done.
    + rewrite bget_bset_ne by (right; done). apply HLc'. lia.
  - intros p Hp. unfold lane_at.
    rewrite bget_bset_ne; [by apply HLp'|].
    left. intros E. by apply (prev_row_ne loopJ).
  - done.
Qed.

Lemma kernel_block_inv loopJ (st : kstate VO) :
  vinv loopJ 0%nat st →
  vinv (S loopJ) 0%nat
    (kernel_block VO sc g wlh (Forward VO) soa offset st loopJ).
Proof.
  intros Hst. unfold kernel_block. cbv zeta.
  set (rc := (λ k : nat, char_code (soa !!! (offset + loopJ * blockHeight * s_lanes VO + k)%nat))
               <$> seq 0 (s_lanes VO * blockHeight)).
  assert (∀ l', (l' < blockHeight)%nat →
            rc !!! (l' * n + ℓ)%nat = chars (loopJ * blockHeight + l')%nat) as Hrc.
  { intros l' Hl'. unfold rc.
    change (s_lanes VO) with n.
    change ((λ k : nat, char_code (soa !!! (offset + loopJ * blockHeight * n + k)%nat))
              <$> seq 0 (n * blockHeight))
      with (lanes (n * blockHeight)
              (λ k : nat, char_code (soa !!! (offset + loopJ * blockHeight * n + k)%nat))).
    rewrite lanes_lookup_total by nia.
    unfold soa_char. do 2 f_equal. lia. }
  pose proof (foldl_seq_inv (λ k st, vinv loopJ k st)
                (kernel_vertex VO sc g wlh (Forward VO) rc loopJ
                   (loopJ * blockHeight))
                (numVertices g) st Hst) as Hfold.
  destruct Hfold as (Hsh & HN & HF & HLc & HLp & Hhist).
  { intros k st' Hk Hst'. by apply kernel_vertex_inv. }
  split; [done|]. split; [intros; lia|]. split; [intros; lia|].
  split; [intros; lia|]. split; [|done].
  intros p Hp. rewrite prev_row_S.
  replace (S loopJ * blockHeight)%nat
    with (S (loopJ * blockHeight + blockHeight - 1)) by (unfold blockHeight; lia).
  by apply HLc.
Qed.

Lemma kernel_batch_inv qbl (nb fb : list (list (list Z))) :
  buffers_shaped g nb fb →
  vinv (qbl / blockHeight)%nat 0%nat
    (kernel_batch VO sc g wlh (Forward VO) soa offset qbl nb fb).
Proof.
  intros (Hn1 & Hn2 & Hf1 & Hf2). unfold kernel_batch.
  apply (foldl_seq_inv (λ loopJ st, vinv loopJ 0%nat st)).
  - unfold vertex_inv, kernel_shape, history_ok.
    cbn [nearbyColumns fartherColumns lastBatchRow cells].
    change (vec VO) with (list Z) in *.
    split; [|split; [intros; lia|split; [intros; lia|split; [intros; lia|split]]]].
    + split; [done|]. split; [done|]. split; [done|]. split; [done|].
      split; [by rewrite length_replicate|].
      intros i Hi. rewrite lookup_total_replicate_2 by done.
      by rewrite length_replicate.
    + intros p Hp. unfold lane_at, bget. rewrite prev_row_0.
      rewrite !lookup_total_replicate_2 by (done || lia).
      rewrite zero_lane by done. simpl.
      by rewrite lookup_total_replicate_2.
    + apply Forall_nil. done.
  - intros loopJ st _ Hst. by apply kernel_block_inv.
Qed.

End Kernel_Forward.

Lemma Forall_fmap_fst {A B} (F : A → B) (l : list (A * B)) :
  Forall (λ c, c.2 = F c.1) l → l = (λ x, (x, F x)) <$> l.*1.
Proof.
  induction 1 as [|[a b] l Hc _ IH]; [done|].
  simpl in Hc. subst. rewrite !fmap_cons. simpl. by f_equal.
Qed.

Lemma lane_history_fst ℓ (h : list (nat * nat * list Z)) :
  (lane_history ℓ h).*1 = h.*1.
Proof. unfold lane_history. rewrite <- list_fmap_compose. done. Qed.

Lemma scan_order_row g qbl r k :
  (r, k) ∈ scan_order g qbl → (r < qbl)%nat ∧ (k < numVertices g)%nat.
Proof.
  unfold scan_order.
  intros (loopJ & Hin & HJ%elem_of_seq)%list_elem_of_bind.
  apply list_elem_of_bind in Hin as (k' & Hin & Hk%elem_of_seq).
  apply list_elem_of_fmap in Hin as (l & [= -> ->] & Hl%elem_of_seq).
  split; [|lia].
  pose proof (Nat.div_mod_eq qbl blockHeight).
  unfold blockHeight in *. nia.
Qed.

(** The history of a lane is the recurrence on the characters of the
    lane, cell by cell in the order of the scan. *)
Lemma kernel_lane_history t sc g soa offset qbl nb fb ℓ (chars : nat → Z) :
  (ℓ < numSeqs t)%nat → topo_sorted g → Z.of_nat (numVertices g) < 2 ^ 31 →
  buffers_shaped g nb fb →
  (∀ r, (r < qbl)%nat → soa_char t soa offset ℓ r = chars r) →
  lane_history ℓ
    (cells _ (kernel_batch (vec_ops t) sc g (computeLongHops g) (Forward _)
                soa offset qbl nb fb))
  = lane_reference t sc g chars qbl.
Proof.
  intros Hℓ Hsorted HV Hshape Hchars.
  destruct (kernel_batch_inv t sc g soa offset ℓ Hℓ Hsorted HV qbl nb fb Hshape)
    as (_ & _ & _ & _ & _ & Hhist).
  unfold history_ok in Hhist.
  apply (Forall_fmap_fst (λ c : nat * nat,
           lane_value t sc g (soa_char t soa offset ℓ) c.1 c.2)) in Hhist.
  rewrite Hhist, lane_history_fst.
  pose proof (kernel_batch_cells (vec_ops t) sc g (computeLongHops g)
                soa offset qbl nb fb) as Hc.
  change (vec (vec_ops t)) with (list Z) in Hc. rewrite Hc.
  unfold lane_reference. apply list_fmap_ext.
  intros i [r k] Hrk. simpl. f_equal.
  apply list_elem_of_lookup_2, scan_order_row in Hrk as [Hr Hk].
  apply lane_value_ext. intros r' Hr'. apply Hchars. lia.
Qed.

(** ** Lane arithmetic *)

Lemma wrap_range bits z :
  0 < bits → - 2 ^ (bits - 1) ≤ wrap bits z < 2 ^ (bits - 1).
Proof.
  intros Hb. unfold wrap.
  assert (2 ^ bits = 2 * 2 ^ (bits - 1)) as E.
  { replace bits with (Z.succ (bits - 1)) at 1 by lia.
    rewrite Z.pow_succ_r by lia. done. }
  assert (0 < 2 ^ (bits - 1)) by (apply Z.pow_pos_nonneg; lia).
  pose proof (Z.mod_pos_bound (z + 2 ^ (bits - 1)) (2 ^ bits) ltac:(lia)).
  lia.
Qed.

Lemma wrap_small bits z :
  0 < bits → - 2 ^ (bits - 1) ≤ z < 2 ^ (bits - 1) → wrap bits z = z.
Proof.
  intros Hb Hz. unfold wrap.
  assert (2 ^ bits = 2 * 2 ^ (bits - 1)) as E.
  { replace bits with (Z.succ (bits - 1)) at 1 by lia.
    rewrite Z.pow_succ_r by lia. done. }
  rewrite Z.mod_small by lia. lia.
Qed.

Lemma lane_bits_pos t : 0 < lane_bits t.
Proof. by destruct t. Qed.

Lemma char_code_range c : -128 ≤ char_code c < 128.
Proof. unfold char_code. apply (wrap_range 8). done. Qed.

Lemma wrap_char_code t c : wrap (lane_bits t) (char_code c) = char_code c.
Proof.
  pose proof (char_code_range c).
  apply wrap_small; [apply lane_bits_pos|].
  destruct t; simpl; lia.
Qed.

Lemma char_code_DUMMY c : char_code c = char_code DUMMY → c = DUMMY.
Proof.
  destruct c as [[] [] [] [] [] [] [] []]; vm_compute; intros H;
    first [done | discriminate H].
Qed.

Lemma foldl_max_bound (a b : nat → Z) (c m0 : Z) (ps : list nat) :
  m0 ≤ c → (∀ p, p ∈ ps → a p ≤ c ∧ b p ≤ c) →
  foldl (λ m p, Z.max (Z.max m (a p)) (b p)) m0 ps ≤ c.
Proof.
  revert m0. induction ps as [|p ps IH]; intros m0 Hm Hps; simpl; [done|].
  destruct (Hps p) as [Ha Hb]; [left|].
  apply IH; [lia|]. intros. apply Hps. by right.
Qed.

Lemma running_max_app_le H E :
  (∀ c, c ∈ E → c.2 ≤ running_max H) → running_max (H ++ E) = running_max H.
Proof.
  induction E as [|c E IH] using rev_ind; intros HE.
  - by rewrite app_nil_r.
  - rewrite app_assoc, running_max_snoc, IH.
    + assert (c.2 ≤ running_max H); [|lia].
      apply HE, elem_of_app. right. by left.
    + intros c' Hc'. apply HE, elem_of_app. by left.
Qed.

(** ** The order of the scan, block by block *)

Lemma scan_order_app g q q' :
  (q / blockHeight ≤ q' / blockHeight)%nat →
  scan_order g q'
  = scan_order g q
    ++ (seq (q / blockHeight) (q' / blockHeight - q / blockHeight) ≫= λ loopJ,
          seq 0 (numVertices g) ≫= λ k,
            (λ l, ((loopJ * blockHeight + l)%nat, k)) <$> seq 0 blockHeight).
Proof.
  intros Hle. unfold scan_order.
  rewrite <- bind_app. f_equal.
  replace (q' / blockHeight)%nat
    with (q / blockHeight + (q' / blockHeight - q / blockHeight))%nat at 1 by lia.
  by rewrite seq_app.
Qed.

Lemma scan_order_mem g q r k :
  (r < q / blockHeight * blockHeight)%nat → (k < numVertices g)%nat →
  (r, k) ∈ scan_order g q.
Proof.
  intros Hr Hk. unfold scan_order.
  pose proof (Nat.div_mod_eq r blockHeight) as Hdm.
  pose proof (Nat.mod_upper_bound r blockHeight ltac:(done)) as Hm.
  apply list_elem_of_bind. exists (r / blockHeight)%nat. split.
  - apply list_elem_of_bind. exists k. split; [|apply elem_of_seq; lia].
    apply list_elem_of_fmap. exists (r mod blockHeight)%nat.
    split; [f_equal; lia|]. apply elem_of_seq. lia.
  - apply elem_of_seq. unfold blockHeight in *. nia.
Qed.

(** ** Rows of padding *)

Section Padding.
Context (t : SimdType) (sc : SCORE) (g : CSR_char_container) (read : string).
Hypothesis Hsorted : topo_sorted g.
Hypothesis Hlabel :
  ∀ k, (k < numVertices g)%nat → vertex_label g !!! k ≠ DUMMY.
Hypothesis Hmismatch : wrap (lane_bits t) (score_mismatch sc) < 0.
Hypothesis Hins : wrap (lane_bits t) (score_ins sc) < 0.
Hypothesis Hdel : wrap (lane_bits t) (score_del sc) < 0.

Local Notation w := (lane_bits t).
Local Notation chars := (padded_char read).
Local Notation M := (lane_value t sc g chars).
Local Notation len := (String.length read).

Lemma lane_sub_pad r k :
  (len ≤ r)%nat → (k < numVertices g)%nat →
  lane_sub t sc g chars r k = wrap w (score_mismatch sc).
Proof.
  intros Hr Hk. unfold lane_sub, padded_char.
  destruct (Nat.ltb_spec r len) as [|_]; [lia|].
  rewrite wrap_char_code.
  destruct (Z.eqb_spec (char_code DUMMY) (char_code (vertex_label g !!! k)))
    as [E|]; [|done].
  symmetry in E. apply char_code_DUMMY in E. by apply Hlabel in E.
Qed.

Lemma lane_sub_upper r k : lane_sub t sc g chars r k < 2 ^ (w - 1).
Proof.
  pose proof (lane_bits_pos t). unfold lane_sub.
  destruct (_ =? _); apply wrap_range; done.
Qed.

Lemma lane_value_upper r k : (k < numVertices g)%nat → M r k < 2 ^ (w - 1).
Proof.
  intros Hk. pose proof (lane_bits_pos t) as Hw.
  assert (0 < 2 ^ (w - 1)) by (apply Z.pow_pos_nonneg; lia).
  pose proof (lane_sub_upper r k).
  rewrite (lane_value_unfold t sc g chars Hsorted) by done.
  apply Z.lt_le_pred. apply Z.max_lub.
  - apply foldl_max_bound; [lia|].
    intros p _. split; apply Z.lt_le_pred, wrap_range; done.
  - apply Z.lt_le_pred, wrap_range; done.
Qed.

Lemma lane_above_range r k :
  (k < numVertices g)%nat →
  0 ≤ lane_above t sc g chars r !!! k < 2 ^ (w - 1).
Proof.
  intros Hk. pose proof (lane_bits_pos t) as Hw.
  destruct r as [|r].
  - rewrite lane_above_0 by done.
    split; [done|]. apply Z.pow_pos_nonneg; lia.
  - split.
    + by apply (lane_value_nonneg t sc g chars Hsorted).
    + by apply lane_value_upper.
Qed.

(** Below the read, a cell is smaller than the largest above it, or 0. *)
Lemma pad_cell B r k :
  0 ≤ B → (len ≤ r)%nat → (k < numVertices g)%nat →
  (∀ p, (p < numVertices g)%nat → lane_above t sc g chars r !!! p ≤ B) →
  (∀ p, (p < k)%nat → M r p ≤ Z.max 0 (B - 1)) →
  M r k ≤ Z.max 0 (B - 1).
Proof.
  intros HB Hr Hk Habove Hrow. pose proof (lane_bits_pos t) as Hw.
  rewrite (lane_value_unfold t sc g chars Hsorted) by done.
  rewrite lane_sub_pad by done.
  pose proof (wrap_range w (score_mismatch sc) Hw).
  pose proof (wrap_range w (score_ins sc) Hw).
  pose proof (wrap_range w (score_del sc) Hw).
  apply Z.max_lub.
  - apply foldl_max_bound; [lia|]. intros p Hp.
    pose proof (Hsorted k p Hk Hp) as Hpk.
    pose proof (Habove p ltac:(lia)).
    pose proof (lane_above_range r p ltac:(lia)).
    pose proof (lane_value_nonneg t sc g chars Hsorted r p ltac:(lia)).
    pose proof (lane_value_upper r p ltac:(lia)).
    pose proof (Hrow p Hpk).
    split; (rewrite wrap_small; [lia|done|lia]).
  - pose proof (Habove k Hk). pose proof (lane_above_range r k Hk).
    rewrite wrap_small; [lia|done|lia].
Qed.

Lemma pad_bound B :
  0 ≤ B →
  (∀ r k, (r < len)%nat → (k < numVertices g)%nat → M r k ≤ B) →
  ∀ r k, (len ≤ r)%nat → (k < numVertices g)%nat → M r k ≤ Z.max 0 (B - 1).
Proof.
  intros HB Hreal.
  induction r as [|r IHr].
  all: induction k as [k IHk] using lt_wf_ind; intros Hr Hk.
  - apply pad_cell; [done..| |].
    + intros p Hp. rewrite lane_above_0 by done. done.
    + intros p Hp. apply IHk; (done || lia).
  - apply pad_cell; [done..| |].
    + intros p Hp.
      change (lane_above t sc g chars (S r) !!! p) with (M r p).
      destruct (decide (r < len)%nat); [by apply Hreal|].
      etrans; [apply IHr; (done || lia)|]. lia.
    + intros p Hp. apply IHk; (done || lia).
Qed.

(** A longer batch adds cells that stay below the best score, or at 0. *)
Lemma reference_padding q q' :
  (len ≤ q)%nat → (q / blockHeight * blockHeight = q)%nat → (q ≤ q')%nat →
  ∃ E, lane_reference t sc g chars q' = lane_reference t sc g chars q ++ E
       ∧ ∀ c, c ∈ E →
              c.2 ≤ Z.max 0 (running_max (lane_reference t sc g chars q) - 1).
Proof.
  intros Hlen Hq Hqq'.
  assert (q / blockHeight ≤ q' / blockHeight)%nat as Hb.
  { apply Nat.Div0.div_le_mono. done. }
  unfold lane_reference at 1.
  rewrite (scan_order_app g q q' Hb), fmap_app.
  eexists. split; [done|].
  intros c (rk & -> & Hin)%list_elem_of_fmap. simpl.
  apply list_elem_of_bind in Hin as (loopJ & Hin & HJ%elem_of_seq).
  apply list_elem_of_bind in Hin as (k & Hin & Hk%elem_of_seq).
  apply list_elem_of_fmap in Hin as (l & -> & Hl%elem_of_seq). simpl.
  apply pad_bound.
  - apply running_max_nonneg.
  - intros r k' Hr Hk'.
    apply (running_max_ge _ (r, k', M r k')).
    unfold lane_reference. apply list_elem_of_fmap. exists (r, k').
    split; [done|]. apply scan_order_mem; lia.
  - unfold blockHeight in *. nia.
  - lia.
Qed.

End Padding.

(** ** The read batcher *)

(** The padded length: the next multiple of [blockHeight]. *)
Lemma round_up_spec len :
  round_up len = ((len + 15) / blockHeight * blockHeight)%nat.
Proof.
  unfold round_up.
  rewrite Z.mod_mod_divide by (by exists (2 ^ 60)).
  change (Z.of_nat blockHeight) with 16.
  apply Nat2Z.inj. rewrite Nat2Z.inj_mul, Nat2Z.inj_div, Nat2Z.inj_add.
  change (Z.of_nat blockHeight) with 16. change (Z.of_nat 15) with 15.
  pose proof (Z.mod_pos_bound (Z.of_nat len - 1) 16 ltac:(lia)).
  rewrite Z2Nat.id by lia.
  pose proof (Z.div_mod (Z.of_nat len - 1) 16 ltac:(lia)) as Hdm.
  replace (Z.of_nat len + 15) with ((Z.of_nat len - 1) / 16 * 16
    + ((Z.of_nat len - 1) mod 16 + 1 * 16)) by lia.
  rewrite Z.add_assoc, Z.div_add by lia.
  replace ((Z.of_nat len - 1) / 16 * 16 + (Z.of_nat len - 1) mod 16)
    with (Z.of_nat len - 1) by lia.
  lia.
Qed.

Lemma round_up_ge len : (len ≤ round_up len)%nat.
Proof.
  rewrite round_up_spec.
  pose proof (Nat.div_mod_eq (len + 15) blockHeight).
  pose proof (Nat.mod_upper_bound (len + 15) blockHeight ltac:(done)).
  unfold blockHeight in *. lia.
Qed.

Lemma round_up_blocks len :
  (round_up len / blockHeight * blockHeight = round_up len)%nat.
Proof. rewrite round_up_spec. by rewrite Nat.div_mul. Qed.

Lemma round_up_mono len len' :
  (len ≤ len')%nat → (round_up len ≤ round_up len')%nat.
Proof.
  intros Hle. rewrite !round_up_spec.
  apply Nat.mul_le_mono_r, Nat.Div0.div_le_mono. lia.
Qed.

#[local] Instance pair_ge_total : Total pair_ge.
Proof. intros [a i] [b j]. unfold pair_ge. simpl. lia. Qed.

#[local] Instance pair_ge_trans : Transitive pair_ge.
Proof. intros [a i] [b j] [c k]. unfold pair_ge. simpl. lia. Qed.

Lemma StronglySorted_lookup {A} (R : relation A) (l : list A) i j x y :
  StronglySorted R l → l !! i = Some x → l !! j = Some y → (i < j)%nat → R x y.
Proof.
  intros Hl. revert i j. induction Hl as [|z l Hl IH Hz]; intros i j Hi Hj Hij.
  - done.
  - destruct j as [|j]; [lia|]. simpl in Hj. destruct i as [|i].
    + injection Hi as ->.
      rewrite Forall_forall in Hz. apply Hz. by eapply list_elem_of_lookup_2.
    + simpl in Hi. apply (IH i j); (done || lia).
Qed.

Section Sorted_Reads.
Context (readSet : list string).

Local Notation N := (length readSet).
Local Notation sorted := (sortReadsForLoadBalance readSet).

Lemma sortedReadOrder_Permutation : sortedReadOrder readSet ≡ₚ seq 0 N.
Proof.
  unfold sortedReadOrder, sortReadsForLoadBalance.
  rewrite merge_sort_Permutation, fmap_imap.
  rewrite (imap_ext _ (λ j _, j)) by done.
  by rewrite (imap_seq_0 readSet (λ j, j)), list_fmap_id.
Qed.

Lemma length_sortedReadOrder : length (sortedReadOrder readSet) = N.
Proof. by rewrite sortedReadOrder_Permutation, length_seq. Qed.

Lemma NoDup_sortedReadOrder : NoDup (sortedReadOrder readSet).
Proof. rewrite sortedReadOrder_Permutation. apply NoDup_seq. Qed.

Lemma sortedReadOrder_lt pos :
  (pos < N)%nat → (sortedReadOrder readSet !!! pos < N)%nat.
Proof.
  intros Hpos.
  assert (sortedReadOrder readSet !!! pos ∈ sortedReadOrder readSet) as Hin.
  { apply list_elem_of_lookup_total_2. by rewrite length_sortedReadOrder. }
  remember (sortedReadOrder readSet !!! pos) as x eqn:Hx. clear Hx.
  rewrite sortedReadOrder_Permutation in Hin.
  apply elem_of_seq in Hin. lia.
Qed.

Lemma sortedReadOrder_find rid :
  (rid < N)%nat → ∃ pos, (pos < N)%nat ∧ sortedReadOrder readSet !!! pos = rid.
Proof.
  intros Hrid.
  assert (rid ∈ sortedReadOrder readSet) as Hin.
  { rewrite sortedReadOrder_Permutation. apply elem_of_seq. lia. }
  apply list_elem_of_lookup_total in Hin as (pos & Hpos & <-).
  rewrite length_sortedReadOrder in Hpos. by exists pos.
Qed.

Lemma sortedReadOrder_inj pos pos' :
  (pos < N)%nat → (pos' < N)%nat →
  sortedReadOrder readSet !!! pos = sortedReadOrder readSet !!! pos' →
  pos = pos'.
Proof.
  intros Hpos Hpos' Heq.
  apply (NoDup_lookup _ pos pos' (sortedReadOrder readSet !!! pos)
           NoDup_sortedReadOrder).
  - apply list_lookup_lookup_total_lt. by rewrite length_sortedReadOrder.
  - rewrite Heq. apply list_lookup_lookup_total_lt.
    by rewrite length_sortedReadOrder.
Qed.

(** The pairs carry the lengths of their reads. *)
Lemma sorted_length a i :
  (a, i) ∈ sorted → a = String.length (readSet !!! i).
Proof.
  unfold sortReadsForLoadBalance. rewrite merge_sort_Permutation.
  intros (idx & read & [= -> ->] & Hread)%elem_of_lookup_imap.
  by rewrite (list_lookup_total_correct _ _ _ Hread).
Qed.

Lemma read_of_slot_length pos :
  (pos < N)%nat →
  String.length (read_of_slot readSet pos) = (sorted !!! pos).1.
Proof.
  intros Hpos. unfold read_of_slot, sortedReadOrder.
  assert (pos < length sorted)%nat as Hlt.
  { rewrite <- (length_fmap snd). apply (eq_ind_r (lt pos) Hpos).
    apply length_sortedReadOrder. }
  rewrite (list_lookup_total_correct (sorted.*2) pos ((sorted !!! pos).2)).
  2: { rewrite list_lookup_fmap, (list_lookup_lookup_total_lt sorted pos Hlt).
       done. }
  destruct (sorted !!! pos) as [a i] eqn:E. simpl.
  symmetry. apply sorted_length. rewrite <- E.
  by apply list_elem_of_lookup_total_2.
Qed.

(** Longer reads come first. *)
Lemma read_of_slot_mono pos pos' :
  (pos ≤ pos')%nat → (pos' < N)%nat →
  (String.length (read_of_slot readSet pos')
   ≤ String.length (read_of_slot readSet pos))%nat.
Proof.
  intros Hle Hpos'.
  destruct (decide (pos = pos')) as [->|Hne]; [done|].
  rewrite !read_of_slot_length by lia.
  assert (length sorted = N) as Hlen.
  { rewrite <- (length_fmap snd). apply length_sortedReadOrder. }
  assert (pair_ge (sorted !!! pos) (sorted !!! pos')) as Hge.
  { apply (StronglySorted_lookup pair_ge sorted pos pos').
    - apply StronglySorted_merge_sort; apply _.
    - apply list_lookup_lookup_total_lt. lia.
    - apply list_lookup_lookup_total_lt. lia.
    - lia. }
  unfold pair_ge in Hge. lia.
Qed.

End Sorted_Reads.

(** ** The struct-of-arrays buffer *)

Lemma rows_length {A} (F : nat → nat → A) (L n : nat) :
  length (seq 0 L ≫= λ j, F j <$> seq 0 n) = (L * n)%nat.
Proof.
  induction L as [|L IH]; [done|].
  rewrite seq_S, bind_app, length_app, IH. simpl.
  rewrite app_nil_r, length_fmap, length_seq. lia.
Qed.

Lemma rows_lookup {A} (F : nat → nat → A) (L n r ℓ : nat) :
  (r < L)%nat → (ℓ < n)%nat →
  (seq 0 L ≫= λ j, F j <$> seq 0 n) !! (r * n + ℓ)%nat = Some (F r ℓ).
Proof.
  intros Hr Hℓ. induction L as [|L IH]; [lia|].
  rewrite seq_S, bind_app. simpl. rewrite app_nil_r.
  destruct (decide (r = L)) as [->|Hne].
  - rewrite lookup_app_r by (rewrite rows_length; lia).
    rewrite rows_length.
    replace (L * n + ℓ - L * n)%nat with ℓ by lia.
    rewrite list_lookup_fmap, lookup_seq_lt by done. done.
  - rewrite lookup_app_l by (rewrite rows_length; nia).
    apply IH. lia.
Qed.

Section SOA.
Context (t : SimdType) (readSet : list string).

Local Notation n := (numSeqs t).
Local Notation N := (length readSet).

Lemma numSeqs_pos : (0 < n)%nat.
Proof. destruct t; simpl; lia. Qed.

Lemma countReadBatches_covers pos :
  (pos < N)%nat → (pos / n < countReadBatches t N)%nat.
Proof.
  intros Hpos. unfold countReadBatches. pose proof numSeqs_pos as Hn.
  apply Nat.Div0.div_lt_upper_bound.
  pose proof (Nat.div_mod_eq (N + n - 1) n).
  pose proof (Nat.mod_upper_bound (N + n - 1) n ltac:(lia)).
  nia.
Qed.

Lemma countReadBatches_all :
  (N ≤ countReadBatches t N * n)%nat.
Proof.
  unfold countReadBatches. pose proof numSeqs_pos as Hn.
  pose proof (Nat.div_mod_eq (N + n - 1) n).
  pose proof (Nat.mod_upper_bound (N + n - 1) n ltac:(lia)).
  nia.
Qed.

(** Every batch is in the buffer at its offset. *)
Lemma convertToSOA_batch b i x :
  (b < countReadBatches t N)%nat →
  soa_batch t readSet (b * n) !! i = Some x →
  (convertToSOA t readSet).1
    !! ((convertToSOA t readSet).2 !!! b + i)%nat = Some x.
Proof.
  intros Hb Hx. unfold convertToSOA.
  pose proof (foldl_seq_inv
    (λ k (acc : list ascii * list nat),
       length acc.2 = S k
       ∧ acc.2 !! k = Some (length acc.1)
       ∧ ∀ b i x, (b < k)%nat →
           soa_batch t readSet (b * n) !! i = Some x →
           acc.1 !! (acc.2 !!! b + i)%nat = Some x)
    (λ '(readSetSOA, readSetSOAPrefixSum) b,
       let readSetSOA := readSetSOA ++ soa_batch t readSet (b * n) in
       (readSetSOA, readSetSOAPrefixSum ++ [length readSetSOA]))
    (countReadBatches t N) ([], [0%nat])) as Hfold.
  destruct Hfold as (_ & _ & Hall).
  - split; [done|]. split; [done|]. intros; lia.
  - intros k [soa prefix] Hk (Hlen & Hlast & Hprev). simpl in *.
    split; [rewrite length_app; simpl; lia|].
    split.
    { rewrite lookup_app_r by lia. rewrite Hlen, Nat.sub_diag. done. }
    intros b' i' x' Hb' Hx'.
    rewrite lookup_total_app_l by lia.
    destruct (decide (b' = k)) as [->|Hne].
    + rewrite (list_lookup_total_correct _ _ _ Hlast).
      rewrite lookup_app_r by lia.
      by replace (length soa + i' - length soa)%nat with i' by lia.
    + apply lookup_app_l_Some. apply Hprev; [lia|done].
  - by apply Hall.
Qed.

(** The characters of a lane are those of its read, then the padding. *)
Lemma convertToSOA_chars b ℓ r :
  (ℓ < n)%nat → (b * n + ℓ < N)%nat →
  (r < batchLength readSet (b * n))%nat →
  soa_char t (convertToSOA t readSet).1 ((convertToSOA t readSet).2 !!! b) ℓ r
  = padded_char (read_of_slot readSet (b * n + ℓ)) r.
Proof.
  intros Hℓ Hpos Hr. unfold soa_char.
  assert (b < countReadBatches t N)%nat as Hb.
  { pose proof (countReadBatches_covers (b * n + ℓ) Hpos) as Hc.
    rewrite Nat.div_add_l, (Nat.div_small ℓ n) in Hc by lia. lia. }
  pose proof (rows_lookup
    (λ j k, if (b * n + k <? N)%nat
               && (j <? String.length (read_of_slot readSet (b * n + k)))%nat
            then char_at (read_of_slot readSet (b * n + k)) j else DUMMY)
    (batchLength readSet (b * n)) n r ℓ Hr Hℓ) as Hrow.
  apply (convertToSOA_batch b _ _ Hb) in Hrow.
  rewrite <- Nat.add_assoc.
  rewrite (list_lookup_total_correct _ _ _ Hrow).
  unfold padded_char.
  destruct (Nat.ltb_spec (b * n + ℓ) N) as [_|]; [|lia]. simpl.
  by destruct (_ <? _)%nat.
Qed.

End SOA.

(** ** The wrapper: every read gets the lane of its slot *)

Section Wrapper.
Context (t : SimdType) (sc : SCORE) (g : CSR_char_container).
Context (readSet : list string) (stale : stale_buffers).

Local Notation n := (numSeqs t).
Local Notation N := (length readSet).
Local Notation batch := (forward_batch t sc g readSet stale).

Lemma wrapper_reported (out : list BestScoreInfoV) pos :
  length out = N → (pos < N)%nat →
  reported (alignToDAGLocal_Phase1_vectorized_wrapper t sc g readSet stale out
              !!! (sortedReadOrder readSet !!! pos))
  = ((bestScores512 _ (batch (pos / n)) : list Z) !!! (pos mod n)%nat,
     (bestRows512 _ (batch (pos / n)) : list Z) !!! (pos mod n)%nat,
     concat (bestCols512 _ (batch (pos / n))) !!! (pos mod n)%nat).
Proof.
  intros Hout Hpos. pose proof (numSeqs_pos t) as Hn.
  unfold alignToDAGLocal_Phase1_vectorized_wrapper.
  pose (E := λ pos : nat,
          ((bestScores512 _ (batch (pos / n)) : list Z) !!! (pos mod n)%nat,
           (bestRows512 _ (batch (pos / n)) : list Z) !!! (pos mod n)%nat,
           concat (bestCols512 _ (batch (pos / n))) !!! (pos mod n)%nat)).
  pose (Q := λ (done : nat) (out : list BestScoreInfoV),
          length out = N
          ∧ ∀ pos, (pos < N)%nat → (pos < done)%nat →
                   reported (out !!! (sortedReadOrder readSet !!! pos)) = E pos).
  match goal with
  | |- reported (foldl ?f _ _ !!! _) = _ =>
      pose proof (foldl_seq_inv (λ i out, Q (i * n)%nat out) f
                    (countReadBatches t N) out) as Houter
  end.
  destruct Houter as [_ Hall].
  - split; [done|]. intros; lia.
  - intros i out' Hi HQ. cbv beta.
    match goal with
    | |- Q _ (foldl ?f _ _) =>
        pose proof (foldl_seq_inv (λ j out, Q (i * n + j)%nat out) f n out')
          as Hinner
    end.
    replace (S i * n)%nat with (i * n + n)%nat by lia.
    apply Hinner.
    + by rewrite Nat.add_0_r.
    + clear Hinner. intros j out'' Hj [Hlen HQ'']. cbv beta zeta.
      destruct (Nat.ltb_spec (i * n + j) N) as [Hlt|Hge].
      * split; [by rewrite length_insert|].
        intros pos' Hpos' Hdone.
        destruct (decide (pos' = i * n + j)%nat) as [->|Hne].
        -- rewrite list_lookup_total_insert_eq
             by (rewrite Hlen; by apply sortedReadOrder_lt).
           unfold reported, E. simpl.
           rewrite Nat.div_add_l, (Nat.div_small j n), Nat.add_0_r by lia.
           rewrite Nat.add_comm, Nat.Div0.mod_add, (Nat.mod_small j n) by lia.
           done.
        -- rewrite list_lookup_total_insert_ne.
           ++ apply HQ''; [done|lia].
           ++ intros Heq. apply sortedReadOrder_inj in Heq; (done || lia).
      * split; [done|]. intros pos' Hpos' Hdone. apply HQ''; [done|lia].
  - apply Hall; [done|]. pose proof (countReadBatches_all t readSet). lia.
Qed.

End Wrapper.

(** ** Batch invariance of the forward pass *)

Lemma forward_batch_eq t sc g readSet stale b :
  forward_batch t sc g readSet stale b
  = kernel_batch (vec_ops t) sc g (computeLongHops g) (Forward _)
      (convertToSOA t readSet).1 ((convertToSOA t readSet).2 !!! b)
      (batchLength readSet (b * numSeqs t)) (stale b).1 (stale b).2.
Proof. unfold forward_batch. by destruct (convertToSOA t readSet). Qed.

Lemma fresh_buffers_shaped t g b :
  buffers_shaped g (fresh_buffers t g b).1 (fresh_buffers t g b).2.
Proof.
  unfold buffers_shaped, fresh_buffers. cbn [fst snd].
  rewrite !length_replicate.
  split; [done|]. split.
  { intros c Hc. rewrite lookup_total_replicate_2 by done.
    by rewrite length_replicate. }
  split; [done|].
  intros v Hv. rewrite lookup_total_replicate_2 by done.
  by rewrite length_replicate.
Qed.

Lemma label_not_DUMMY (g : CSR_char_container) k :
  DUMMY ∉ vertex_label g → vertex_label g !!! k ≠ DUMMY.
Proof.
  intros Hno Heq. destruct (decide (k < length (vertex_label g))%nat) as [Hk|Hk].
  - apply Hno. rewrite <- Heq. by apply list_elem_of_lookup_total_2.
  - rewrite list_lookup_total_alt, lookup_ge_None_2 in Heq by lia.
    discriminate Heq.
Qed.

Section Batch_Invariance.
Context (t : SimdType) (sc : SCORE) (g : CSR_char_container).
Hypothesis Hsorted : topo_sorted g.
Hypothesis HV : Z.of_nat (numVertices g) < 2 ^ 31.
Hypothesis Hlabel : DUMMY ∉ vertex_label g.
Hypothesis Hmismatch : wrap (lane_bits t) (score_mismatch sc) < 0.
Hypothesis Hins : wrap (lane_bits t) (score_ins sc) < 0.
Hypothesis Hdel : wrap (lane_bits t) (score_del sc) < 0.

Local Notation n := (numSeqs t).

(** The lane of the read at sorted position [pos], in its batch. *)
Lemma forward_lane_history readSet stale pos :
  (∀ b, buffers_shaped g (stale b).1 (stale b).2) →
  (pos < length readSet)%nat →
  lane_history (pos mod n)
    (cells _ (forward_batch t sc g readSet stale (pos / n)))
  = lane_reference t sc g (padded_char (read_of_slot readSet pos))
      (batchLength readSet (pos / n * n)).
Proof.
  intros Hshape Hpos. pose proof (numSeqs_pos t) as Hn.
  pose proof (Nat.div_mod_eq pos n) as Hdm.
  pose proof (Nat.mod_upper_bound pos n ltac:(lia)) as Hℓ.
  rewrite forward_batch_eq.
  apply kernel_lane_history; [done..|].
  intros r Hr.
  rewrite convertToSOA_chars by (done || lia).
  do 2 f_equal. lia.
Qed.

(** What the wrapper reports for the read at sorted position [pos], from
    the recurrence on the padded read. *)
Lemma forward_reported readSet stale out pos :
  (∀ b, buffers_shaped g (stale b).1 (stale b).2) →
  length out = length readSet → (pos < length readSet)%nat →
  let res := alignToDAGLocal_Phase1_vectorized_wrapper t sc g readSet stale out
               !!! (sortedReadOrder readSet !!! pos) in
  let h := lane_reference t sc g (padded_char (read_of_slot readSet pos))
             (batchLength readSet (pos / n * n)) in
  v_score res = running_max h
  ∧ ∀ h1 r v h2,
      h = h1 ++ (r, v, running_max h) :: h2 →
      (∀ c, c ∈ h2 → c.2 ≠ running_max h) →
      qryRowEnd res = wrap (lane_bits t) (Z.of_nat r)
      ∧ refColumnEnd res = wrap 32 (Z.of_nat v).
Proof.
  intros Hshape Hout Hpos res h. pose proof (numSeqs_pos t) as Hn.
  pose proof (wrapper_reported t sc g readSet stale out pos Hout Hpos) as Hrep.
  fold res in Hrep. unfold reported in Hrep.
  injection Hrep as Hscore Hrow Hcol.
  rewrite Hscore, Hrow, Hcol.
  rewrite forward_batch_eq.
  pose proof (lane_tracking t sc g (computeLongHops g) (Forward _)
                (convertToSOA t readSet).1
                ((convertToSOA t readSet).2 !!! (pos / n)%nat)
                (batchLength readSet (pos / n * n))
                (stale (pos / n)%nat).1 (stale (pos / n)%nat).2 (pos mod n)
                ltac:(apply Nat.mod_upper_bound; lia)) as Htrack.
  cbv zeta in Htrack. rewrite <- forward_batch_eq in Htrack.
  rewrite forward_lane_history in Htrack by done.
  rewrite <- forward_batch_eq. exact Htrack.
Qed.

(** The read alone: one batch, rounded up from its own length. *)
Lemma read_alone read :
  sortedReadOrder [read] !!! 0%nat = 0%nat
  ∧ read_of_slot [read] 0 = read
  ∧ batchLength [read] (0 / n * n) = round_up (String.length read).
Proof.
  assert (0 < length [read])%nat as Hl by (simpl; lia).
  pose proof (sortedReadOrder_lt [read] 0 Hl) as Hlt.
  change (length [read]) with 1%nat in Hlt.
  assert (sortedReadOrder [read] !!! 0%nat = 0%nat) as H0 by lia.
  assert (read_of_slot [read] 0 = read) as H1.
  { unfold read_of_slot. by rewrite H0. }
  split; [done|]. split; [done|].
  rewrite Nat.Div0.div_0_l. simpl. unfold batchLength. by rewrite H1.
Qed.

Lemma invariance_at_sorted_position readSet stale stale' out out' pos :
  (∀ b, buffers_shaped g (stale b).1 (stale b).2) →
  (∀ b, buffers_shaped g (stale' b).1 (stale' b).2) →
  length out = length readSet → length out' = 1%nat →
  (pos < length readSet)%nat →
  let res := alignToDAGLocal_Phase1_vectorized_wrapper t sc g readSet stale out
               !!! (sortedReadOrder readSet !!! pos) in
  let res' := alignToDAGLocal_Phase1_vectorized_wrapper t sc g
                [read_of_slot readSet pos] stale' out' !!! 0%nat in
  v_score res = v_score res'
  ∧ (0 < v_score res →
     qryRowEnd res = qryRowEnd res' ∧ refColumnEnd res = refColumnEnd res').
Proof.
  intros Hshape Hshape' Hout Hout' Hpos res res'.
  pose proof (numSeqs_pos t) as Hn.
  set (R := read_of_slot readSet pos) in *.
  destruct (read_alone R) as (Ha0 & Ha1 & Ha2).
  destruct (forward_reported readSet stale out pos Hshape Hout Hpos)
    as [Hscore Hend].
  assert (0 < length [R])%nat as Hl by (simpl; lia).
  destruct (forward_reported [R] stale' out' 0 Hshape' Hout' Hl)
    as [Hscore' Hend'].
  rewrite Ha0, Ha1, Ha2 in *. fold res in Hscore, Hend. fold R in Hscore, Hend.
  fold res' in Hscore', Hend'.
  set (q := batchLength readSet (pos / n * n)) in *.
  set (q0 := round_up (String.length R)) in *.
  assert (q0 ≤ q)%nat as Hq.
  { unfold q, q0, batchLength. apply round_up_mono. fold R.
    apply read_of_slot_mono; [|done].
    pose proof (Nat.div_mod_eq pos n). lia. }
  destruct (reference_padding t sc g R Hsorted
              (λ k _, label_not_DUMMY g k Hlabel) Hmismatch Hins Hdel q0 q
              (round_up_ge _) (round_up_blocks _) Hq) as (E & HE & Hsmall).
  set (H0 := lane_reference t sc g (padded_char R) q0) in *.
  set (H1 := lane_reference t sc g (padded_char R) q) in *.
  assert (running_max H1 = running_max H0) as Hmax.
  { rewrite HE. apply running_max_app_le.
    intros c Hc. specialize (Hsmall c Hc).
    pose proof (running_max_nonneg H0). lia. }
  split; [by rewrite Hscore, Hscore', Hmax|].
  intros Hpos0. rewrite Hscore, Hmax in Hpos0.
  destruct (running_max_attained H0 Hpos0) as (h1 & r & v & h2 & Hdec & Hno).
  destruct (Hend' h1 r v h2 Hdec Hno) as [-> ->].
  apply (Hend h1 r v (h2 ++ E)).
  - rewrite Hmax, HE. rewrite Hdec at 1. by rewrite <- app_assoc.
  - rewrite Hmax. intros c [Hc|Hc]%elem_of_app; [by apply Hno|].
    specialize (Hsmall c Hc). lia.
Qed.

End Batch_Invariance.

(** C2, as it holds.  The graph is sorted topologically (vertex ids fit
    [int32_t]) and no vertex is labelled with the padding character; the
    penalties for mismatch, insertion and deletion are negative as lane
    values; the window and the side store of a worker have their shape and
    hold whatever earlier batches left in them.  Then for every read of
    the set the forward wrapper reports the score it reports for the read
    alone, and when that score is positive also the same end row and end
    column.  (With score 0 every cell ties and the end point is the last
    cell of the batch.) *)
Theorem forward_batch_invariance
    t sc g readSet stale stale' out out' rid :
  topo_sorted g →
  Z.of_nat (numVertices g) < 2 ^ 31 →
  DUMMY ∉ vertex_label g →
  wrap (lane_bits t) (score_mismatch sc) < 0 →
  wrap (lane_bits t) (score_ins sc) < 0 →
  wrap (lane_bits t) (score_del sc) < 0 →
  (∀ b, buffers_shaped g (stale b).1 (stale b).2) →
  (∀ b, buffers_shaped g (stale' b).1 (stale' b).2) →
  length out = length readSet → length out' = 1%nat →
  (rid < length readSet)%nat →
  let res := alignToDAGLocal_Phase1_vectorized_wrapper t sc g readSet stale out
               !!! rid in
  let res' := alignToDAGLocal_Phase1_vectorized_wrapper t sc g
                [readSet !!! rid] stale' out' !!! 0%nat in
  v_score res = v_score res'
  ∧ (0 < v_score res →
     qryRowEnd res = qryRowEnd res' ∧ refColumnEnd res = refColumnEnd res').
Proof.
  intros Hsorted HV Hlabel Hmm Hins Hdel Hshape Hshape' Hout Hout' Hrid.
  destruct (sortedReadOrder_find readSet rid Hrid) as (pos & Hpos & Hfind).
  pose proof (invariance_at_sorted_position t sc g Hsorted HV Hlabel Hmm Hins
                Hdel readSet stale stale' out out' pos Hshape Hshape' Hout
                Hout' Hpos) as Hinv.
  unfold read_of_slot in Hinv. rewrite Hfind in Hinv. exact Hinv.
Qed.

Lemma forward_batch_invariance_witness :
  let g := chain_graph "ACGTA" in
  let readSet := ["CGT"; "ACGTAACGTAACGTAACG"]%string in
  topo_sorted g ∧ (DUMMY ∉ vertex_label g)
  ∧ let res := alignToDAGLocal_Phase1_vectorized_wrapper Int32 unit_scores g
                 readSet (fresh_buffers Int32 g) (output_init 2) !!! 0%nat in
    let res' := alignToDAGLocal_Phase1_vectorized_wrapper Int32 unit_scores g
                  [readSet !!! 0%nat] (fresh_buffers Int32 g) (output_init 1)
                  !!! 0%nat in
    v_score res = v_score res'
    ∧ (0 < v_score res →
       qryRowEnd res = qryRowEnd res' ∧ refColumnEnd res = refColumnEnd res').
Proof.
  intros g readSet.
  assert (DUMMY ∉ vertex_label g) as Hlabel.
  { intros Hin. apply list_elem_of_In in Hin. vm_compute in Hin.
    intuition discriminate. }
  split; [exact example_chain_sorted|]. split; [exact Hlabel|].
  apply (forward_batch_invariance Int32 unit_scores g readSet
           (fresh_buffers Int32 g) (fresh_buffers Int32 g)
           (output_init 2) (output_init 1) 0 example_chain_sorted);
    try (intros b; apply fresh_buffers_shaped); try exact Hlabel;
    by_computation.
Defined.

(** ** [loadFromTxt]: what an accepted file looks like *)

Lemma push_edges_no_tokens from edges :
  push_edges from [] edges = inr edges.
Proof. done. Qed.

Lemma load_line_state st line st' :
  (1 ≤ currentRow st)%nat →
  load_line st line = inr st' →
  (currentRow st ≤ totalVertices st)%nat
  ∧ tokens_of line ≠ []
  ∧ vertexSequences st'
    = vertexSequences st
      ++ [((currentRow st - 1)%nat, default [] (last (tokens_of line)))].
Proof.
  intros Hrow. unfold load_line.
  destruct (Nat.eqb_spec (currentRow st) 0) as [? | _]; [lia |].
  destruct (Nat.ltb_spec (totalVertices st) (currentRow st)) as [|Hle]; [done |].
  destruct (last (tokens_of line)) as [label|] eqn:El; [| done].
  destruct (push_edges _ _ _) as [e | edges]; [done |].
  intros [= <-]. simpl. split; [done |]. split; [| done].
  intros E. by rewrite E in El.
Qed.

Lemma load_lines_state lines :
  ∀ st st',
    (1 ≤ currentRow st)%nat →
    load_lines st lines = inr st' →
    currentRow st' = (currentRow st + length lines)%nat
    ∧ (lines ≠ [] → (currentRow st + length lines - 1 ≤ totalVertices st)%nat)
    ∧ Forall (λ line, tokens_of line ≠ []) lines
    ∧ vertexSequences st'
      = vertexSequences st
        ++ imap (λ i line, ((currentRow st - 1 + i)%nat,
                            default [] (last (tokens_of line)))) lines.
Proof.
  induction lines as [|line lines IH]; intros st st' Hrow; simpl.
  - intros [= <-]. rewrite app_nil_r. repeat split; (done || lia).
  - destruct (load_line st line) as [e | st1] eqn:E1; [done |].
    pose proof (load_line_spec st line st1 Hrow E1) as (Hr1 & Ht1 & _).
    pose proof (load_line_state st line st1 Hrow E1) as (Hle & Htok & Hseq).
    intros E. apply IH in E as (Hr & Hmax & Hall & Hs); [| lia].
    split; [lia |]. split.
    { intros _. destruct lines as [|l2 lines]; [simpl; lia |].
      specialize (Hmax ltac:(done)). simpl in *. lia. }
    split; [by constructor |].
    rewrite Hs, Hseq, <- app_assoc. f_equal. simpl.
    rewrite Nat.add_0_r. f_equal.
    apply imap_ext. intros i x _. simpl. f_equal. lia.
Qed.

(** X1.  A file [loadFromTxt] accepts has a header with a positive vertex
    count, at most that many vertex lines, none of them blank, and at
    least one edge; vertex [i] gets the last token of its line as label. *)
Theorem loadFromTxt_accepted header body st :
  loadFromTxt (header :: body) = inr st →
  totalVertices st = read_count header
  ∧ (0 < read_count header)%nat
  ∧ (length body ≤ read_count header)%nat
  ∧ Forall (λ line, tokens_of line ≠ []) body
  ∧ edgeVector st ≠ []
  ∧ vertexSequences st
    = imap (λ i line, (i, default [] (last (tokens_of line)))) body.
Proof.
  unfold loadFromTxt. simpl.
  destruct (load_lines _ body) as [e | st1] eqn:E; [done |].
  destruct (Nat.ltb_spec 0 (totalVertices st1)) as [HV | _]; [| done].
  destruct (Nat.ltb_spec 0 (length (edgeVector st1))) as [HE | _]; [| done].
  simpl. intros [= <-].
  match type of E with
  | load_lines ?s _ = _ =>
      assert (1 ≤ currentRow s)%nat as Hrow by (simpl; lia);
      pose proof (load_lines_spec body s st1 Hrow E) as [Ht _];
      pose proof (load_lines_state body s st1 Hrow E)
        as (_ & Hmax & Hall & Hseq)
  end.
  simpl in *. rewrite Ht in HV.
  split; [done |]. split; [done |]. split.
  { destruct body as [|l body]; [simpl; lia |].
    specialize (Hmax ltac:(done)). simpl in *. lia. }
  split; [done |]. split.
  { intros E0. rewrite E0 in HE. simpl in HE. lia. }
  rewrite Hseq. apply imap_ext. intros i x _. done.
Qed.

Lemma loadFromTxt_accepted_witness :
  ∃ st, loadFromTxt ["+3"; "1 2 A"; "2 C"; "G"]%string = inr st
        ∧ totalVertices st = 3%nat
        ∧ read_count "+3" = 3%nat
        ∧ Forall (λ line, tokens_of line ≠ []) ["1 2 A"; "2 C"; "G"]%string
        ∧ edgeVector st ≠ []
        ∧ vertexSequences st
          = imap (λ i line, (i, default [] (last (tokens_of line))))
                 ["1 2 A"; "2 C"; "G"]%string.
Proof.
  eexists. split; [vm_compute; reflexivity |].
  split; [vm_compute; reflexivity |].
  split; [vm_compute; reflexivity |].
  apply (loadFromTxt_accepted "+3" ["1 2 A"; "2 C"; "G"]%string).
  vm_compute. reflexivity.
Defined.

(** ** [loadFromTxt]: a graph needs an edge *)

Lemma load_lines_no_edges lines :
  ∀ st,
    (1 ≤ currentRow st)%nat →
    (∀ line, line ∈ lines → (length (tokens_of line) ≤ 1)%nat) →
    match load_lines st lines with
    | inl e => e = Assert_failed
    | inr st' => edgeVector st' = edgeVector st
                 ∧ totalVertices st' = totalVertices st
    end.
Proof.
  induction lines as [|line lines IH]; intros st Hrow Hone; simpl; [done |].
  assert (neighbor_tokens (tokens_of line) = []) as Hnt.
  { unfold neighbor_tokens.
    assert (line ∈ line :: lines) as Hin by left.
    specialize (Hone line Hin).
    replace (length (tokens_of line) - 1)%nat with 0%nat by lia. done. }
  unfold load_line.
  destruct (Nat.eqb_spec (currentRow st) 0) as [? | _]; [lia |].
  destruct (_ <? _)%nat; [done |].
  destruct (last _); [| done].
  rewrite Hnt. simpl.
  match goal with |- match load_lines ?s _ with _ => _ end =>
    specialize (IH s) end.
  simpl in IH.
  specialize (IH ltac:(lia) ltac:(intros; apply Hone; by right)).
  destruct (load_lines _ lines); [done |]. done.
Qed.

(** X2.  Without a neighbour token on any vertex line the edge vector
    stays empty, and [loadFromTxt] ends in a failed assertion: the empty
    file, a header alone and a graph of unconnected vertices are all
    refused. *)
Theorem loadFromTxt_needs_an_edge lines :
  (∀ line, line ∈ drop 1 lines → (length (tokens_of line) ≤ 1)%nat) →
  loadFromTxt lines = inl Assert_failed.
Proof.
  intros Hone. unfold loadFromTxt.
  destruct lines as [|header body]; [done |]. simpl in *.
  match goal with |- context [load_lines ?s body] =>
    pose proof (load_lines_no_edges body s ltac:(simpl; lia) Hone) as Hb end.
  destruct (load_lines _ body) as [e | st]; [by rewrite Hb |].
  destruct Hb as [-> _]. simpl. by rewrite andb_false_r.
Qed.

Lemma loadFromTxt_needs_an_edge_witness :
  loadFromTxt ["2"; "A"; "C"]%string = inl Assert_failed.
Proof.
  apply loadFromTxt_needs_an_edge.
  intros line Hin. simpl in Hin.
  apply elem_of_cons in Hin as [-> | Hin]; [vm_compute; lia |].
  apply elem_of_cons in Hin as [-> | Hin]; [vm_compute; lia |].
  by apply elem_of_nil in Hin.
Defined.

(** ** [loadFromVG]: both ends of an edge are rebased *)




(** ** The long hops of the forward pass *)

(** X4.  On a topologically sorted graph (vertex ids fit [int32_t]) the
    forward classification marks vertex v exactly when some edge leaves v
    for a vertex i with i - v >= blockWidth: the mark is on the source of
    the long edge, whose column the forward kernel reads from the side
    store; and the vector of marks has one entry per vertex. *)
Theorem computeLongHops_marks_sources g v :
  topo_sorted g → Z.of_nat (numVertices g) ≤ 2 ^ 31 →
  (v < numVertices g)%nat →
  length (computeLongHops g) = numVertices g
  ∧ (computeLongHops g !!! v = true
     ↔ ∃ i, (i < numVertices g)%nat ∧ v ∈ in_neighbors g i
            ∧ (blockWidth ≤ i - v)%nat).
Proof.
  intros Htopo HV Hv. split; [apply length_computeLongHops |].
  rewrite computeLongHops_spec by done.
  split; intros (i & Hi & Hin & Hhop); exists i; (split; [done |]);
    (split; [done |]);
    pose proof (Htopo i v Hi Hin) as Hvi;
    by apply (hop_at_least_blockWidth_sorted i v Hvi ltac:(lia)).
Qed.

Lemma computeLongHops_marks_sources_witness :
  topo_sorted long_edge_graph
  ∧ length (computeLongHops long_edge_graph) = numVertices long_edge_graph
  ∧ (computeLongHops long_edge_graph !!! 0%nat = true
     ↔ ∃ i, (i < numVertices long_edge_graph)%nat
            ∧ 0%nat ∈ in_neighbors long_edge_graph i
            ∧ (blockWidth ≤ i - 0)%nat).
Proof.
  split; [exact long_edge_graph_sorted |].
  apply (computeLongHops_marks_sources long_edge_graph 0
           long_edge_graph_sorted); by_computation.
Defined.

(** X5.  The side store has a column only for the marked vertices.
    Whenever a kernel takes the branch of the long hop for a neighbour,
    that neighbour is marked: in the forward pass for every in-neighbour
    p of k, and in the reverse pass for every out-neighbour p of k that
    has k among its in-neighbours (as the two adjacency arrays of one
    graph do). *)
Theorem side_store_column_exists g k p :
  (k < numVertices g)%nat → (p < numVertices g)%nat →
  (p ∈ in_neighbors g k → hop_is_short k p = false →
   computeLongHops g !!! p = true)
  ∧ (p ∈ out_neighbors g k → k ∈ in_neighbors g p →
     hop_is_short p k = false → computeLongHops_rev g !!! p = true).
Proof.
  intros Hk Hp. split.
  - intros Hin Hlong. apply computeLongHops_spec; [done |].
    exists k. split; [done |]. split; [done |].
    by apply hop_is_short_false.
  - intros _ Hin Hlong. apply computeLongHops_rev_spec; [done |].
    exists k. split; [done |]. by apply hop_is_short_false.
Qed.

Lemma side_store_column_exists_witness :
  let g := long_edge_graph in
  (0%nat ∈ in_neighbors g 8 ∧ hop_is_short 8 0 = false
   ∧ computeLongHops g !!! 0%nat = true)
  ∧ (8%nat ∈ out_neighbors g 0 ∧ 0%nat ∈ in_neighbors g 8
     ∧ hop_is_short 8 0 = false
     ∧ computeLongHops_rev g !!! 8%nat = true).
Proof.
  intros g.
  assert (0%nat ∈ in_neighbors g 8) as Hin
    by (apply list_elem_of_In; vm_compute; auto).
  assert (8%nat ∈ out_neighbors g 0) as Hout
    by (apply list_elem_of_In; vm_compute; auto).
  assert (hop_is_short 8 0 = false) as Hlong by (vm_compute; reflexivity).
  split.
  - split; [exact Hin |]. split; [exact Hlong |].
    apply (side_store_column_exists g 8 0); [by_computation .. | | ]; done.
  - split; [exact Hout |]. split; [exact Hin |]. split; [exact Hlong |].
    apply (side_store_column_exists g 0 8); [by_computation .. | | | ]; done.
Defined.

(** ** The read batcher *)

Lemma StronglySorted_fmap_on {A B} (R : relation A) (R' : relation B)
    (P : A → Prop) (f : A → B) (l : list A) :
  (∀ x y, P x → P y → R x y → R' (f x) (f y)) →
  Forall P l → StronglySorted R l → StronglySorted R' (f <$> l).
Proof.
  intros Hf HP Hl. induction Hl as [|x l Hl IH Hx]; [constructor |].
  apply Forall_cons in HP as [Px HP]. rewrite fmap_cons. constructor.
  - by apply IH.
  - apply Forall_fmap. rewrite Forall_forall in Hx, HP |- *.
    intros y Hy. apply Hf; [done | by apply HP | by apply Hx].
Qed.

(** X6.  [sortReadsForLoadBalance] leaves in [sortedReadOrder] a
    permutation of the read indices in which a read comes before every
    shorter read, and among reads of one length before every read of
    smaller index. *)
Theorem sortReadsForLoadBalance_order readSet :
  sortedReadOrder readSet ≡ₚ seq 0 (length readSet)
  ∧ StronglySorted
      (λ i j, pair_ge (String.length (readSet !!! i), i)
                      (String.length (readSet !!! j), j))
      (sortedReadOrder readSet).
Proof.
  split; [apply sortedReadOrder_Permutation |].
  unfold sortedReadOrder.
  apply (StronglySorted_fmap_on pair_ge _
           (λ x, x.1 = String.length (readSet !!! x.2))).
  - intros [a i] [b j]. simpl. by intros -> ->.
  - apply Forall_forall. intros [a i] Hin. simpl. by apply sorted_length.
  - apply (@StronglySorted_merge_sort _ pair_ge _ pair_ge_trans pair_ge_total).
Qed.

(** X7.  The padded length of a batch is the least multiple of
    [blockHeight] that is not below the length of its longest read; for
    the empty read, where the subtraction wraps around, it is 0. *)
Theorem round_up_least_multiple len :
  (round_up len mod blockHeight = 0)%nat
  ∧ (len ≤ round_up len)%nat
  ∧ (round_up len < len + blockHeight)%nat.
Proof.
  pose proof (round_up_ge len) as Hge.
  pose proof (round_up_spec len) as Hspec.
  split; [rewrite Hspec; apply Nat.Div0.mod_mul |]. split; [done |].
  rewrite Hspec.
  pose proof (Nat.div_mod_eq (len + 15) blockHeight).
  unfold blockHeight in *. lia.
Qed.

Section SOA_Layout.
Context (t : SimdType) (readSet : list string).

Local Notation n := (numSeqs t).
Local Notation N := (length readSet).
Local Notation nb := (countReadBatches t N).

Lemma length_soa_batch i :
  length (soa_batch t readSet i) = (batchLength readSet i * n)%nat.
Proof. unfold soa_batch. apply rows_length. Qed.

Lemma convertToSOA_sizes :
  length (convertToSOA t readSet).2 = S nb
  ∧ (convertToSOA t readSet).2 !! 0%nat = Some 0%nat
  ∧ (convertToSOA t readSet).2 !! nb = Some (length (convertToSOA t readSet).1)
  ∧ ∀ b, (b < nb)%nat →
         (convertToSOA t readSet).2 !!! S b
         = ((convertToSOA t readSet).2 !!! b
            + batchLength readSet (b * n) * n)%nat.
Proof.
  unfold convertToSOA.
  apply (foldl_seq_inv
    (λ k (acc : list ascii * list nat),
       length acc.2 = S k
       ∧ acc.2 !! 0%nat = Some 0%nat
       ∧ acc.2 !! k = Some (length acc.1)
       ∧ ∀ b, (b < k)%nat →
              acc.2 !!! S b = (acc.2 !!! b + batchLength readSet (b * n) * n)%nat)).
  - split; [done |]. split; [done |]. split; [done |]. intros; lia.
  - intros k [soa prefix] Hk (Hlen & H0 & Hlast & Hprev). simpl in *.
    split; [rewrite length_app; simpl; lia |].
    split; [by apply lookup_app_l_Some |].
    split.
    { rewrite lookup_app_r by lia. rewrite Hlen, Nat.sub_diag. done. }
    intros b Hb. rewrite (lookup_total_app_l _ _ b) by lia.
    destruct (decide (b = k)) as [-> | Hne].
    + rewrite lookup_total_app_r by lia. rewrite Hlen, Nat.sub_diag. simpl.
      rewrite (list_lookup_total_correct _ _ _ Hlast).
      by rewrite length_app, length_soa_batch.
    + rewrite lookup_total_app_l by lia. apply Hprev. lia.
Qed.

End SOA_Layout.

(** X8.  On a read set that is not empty (the first assertion of
    [convertToSOA]), [convertToSOA] leaves [readSetSOAPrefixSum] with one
    entry more than there are batches, so its closing assertion holds
    too; the entries start at 0, grow from batch to batch by the padded
    length times the number of lanes, and end at the size of
    [readSetSOA]. *)
Theorem convertToSOA_prefix_sums t readSet :
  (0 < length readSet)%nat →
  let readSetSOA := (convertToSOA t readSet).1 in
  let readSetSOAPrefixSum := (convertToSOA t readSet).2 in
  let countReadBatches := countReadBatches t (length readSet) in
  (0 < countReadBatches)%nat
  ∧ length readSetSOAPrefixSum = S countReadBatches
  ∧ readSetSOAPrefixSum !! 0%nat = Some 0%nat
  ∧ readSetSOAPrefixSum !! countReadBatches = Some (length readSetSOA)
  ∧ ∀ b, (b < countReadBatches)%nat →
         readSetSOAPrefixSum !!! S b
         = (readSetSOAPrefixSum !!! b
            + batchLength readSet (b * numSeqs t) * numSeqs t)%nat.
Proof.
  intros Hne. cbv zeta. split; [| apply convertToSOA_sizes].
  pose proof (numSeqs_pos t) as Hn.
  pose proof (countReadBatches_all t readSet) as Hall.
  destruct (countReadBatches t (length readSet)); [simpl in Hall |]; lia.
Qed.

Lemma convertToSOA_prefix_sums_witness :
  let readSet := ["CGT"; "ACGTAACGTAACGTAACG"]%string in
  let readSetSOA := (convertToSOA Int32 readSet).1 in
  let readSetSOAPrefixSum := (convertToSOA Int32 readSet).2 in
  (0 < length readSet)%nat
  ∧ readSetSOAPrefixSum = [0%nat; 512%nat]
  ∧ length readSetSOA = 512%nat
  ∧ (0 < countReadBatches Int32 (length readSet))%nat
  ∧ length readSetSOAPrefixSum = S (countReadBatches Int32 (length readSet))
  ∧ readSetSOAPrefixSum !! 0%nat = Some 0%nat
  ∧ readSetSOAPrefixSum !! countReadBatches Int32 (length readSet)
    = Some (length readSetSOA)
  ∧ ∀ b, (b < countReadBatches Int32 (length readSet))%nat →
         readSetSOAPrefixSum !!! S b
         = (readSetSOAPrefixSum !!! b
            + batchLength readSet (b * numSeqs Int32) * numSeqs Int32)%nat.
Proof.
  intros readSet readSetSOA readSetSOAPrefixSum.
  split; [simpl; lia |].
  split; [vm_compute; reflexivity |].
  split; [vm_compute; reflexivity |].
  apply (convertToSOA_prefix_sums Int32 readSet). simpl; lia.
Defined.

(** X9.  Reading [readSetSOA] back: in batch [b], row [r] and lane [ℓ]
    stands character [r] of the read at sorted position
    [b * numSeqs + ℓ] while the read lasts, and the padding character
    'B' below it and in the lanes past the last read. *)
Theorem convertToSOA_layout t readSet b ℓ r :
  (b < countReadBatches t (length readSet))%nat →
  (ℓ < numSeqs t)%nat →
  (r < batchLength readSet (b * numSeqs t))%nat →
  let pos := (b * numSeqs t + ℓ)%nat in
  let read := readSet !!! (sortedReadOrder readSet !!! pos) in
  (convertToSOA t readSet).1
    !! ((convertToSOA t readSet).2 !!! b + r * numSeqs t + ℓ)%nat
  = Some (if (pos <? length readSet)%nat && (r <? String.length read)%nat
          then char_at read r else DUMMY).
Proof.
  intros Hb Hℓ Hr pos read.
  rewrite <- Nat.add_assoc.
  apply convertToSOA_batch; [done |].
  unfold soa_batch.
  apply (rows_lookup
    (λ j k, if (b * numSeqs t + k <? length readSet)%nat
               && (j <? String.length (read_of_slot readSet (b * numSeqs t + k)))%nat
            then char_at (read_of_slot readSet (b * numSeqs t + k)) j else DUMMY));
    done.
Qed.

Lemma convertToSOA_layout_witness :
  let readSet := ["CGT"; "ACGTAACGTAACGTAACG"]%string in
  let pos := (0 * numSeqs Int32 + 1)%nat in
  let read := readSet !!! (sortedReadOrder readSet !!! pos) in
  (convertToSOA Int32 readSet).1
    !! ((convertToSOA Int32 readSet).2 !!! 0%nat + 2 * numSeqs Int32 + 1)%nat
  = Some (if (pos <? length readSet)%nat && (2 <? String.length read)%nat
          then char_at read 2 else DUMMY).
Proof.
  apply (convertToSOA_layout Int32 ["CGT"; "ACGTAACGTAACGTAACG"]%string
           0 1 2); by_computation.
Defined.

(** ** The end point of the scalar kernel *)

Section Phase1_First.
Context (sc : SCORE) (g : CSR_char_container).
Context (read : string) (best0 : BestScoreInfo).

Local Notation W := (numVertices g).
Local Notation before := (phase1_before sc g read best0).
Local Notation H := (cell sc g read best0).

(** The running best is the initial one, or the first cell so far that
    exceeds everything before it. *)
Lemma phase1_best_first i j :
  (j ≤ W)%nat →
  ((before i j).2 = best0
   ∧ ∀ i' j', (j' < W)%nat → scanned_before i' j' i j → H i' j' ≤ score best0)
  ∨ ∃ i' j', scanned_before i' j' i j ∧ (j' < W)%nat
             ∧ (before i j).2 = {| score := H i' j'; vid := j';
                                   vertexSeqOffset := 0; refColumn := j';
                                   qryRow := i' |}
             ∧ score best0 < H i' j'
             ∧ ∀ i'' j'', (j'' < W)%nat → scanned_before i'' j'' i' j' →
                          H i'' j'' < H i' j'.
Proof.
  revert i j. apply (scan_ind g).
  - left. split; [done |]. intros i' j' _ [? | [_ ?]]; lia.
  - intros i j Hj IH.
    destruct (best_ge_cells sc g read best0 i j ltac:(lia)) as [Hge0 Hge].
    rewrite phase1_before_S, phase1_cell_best, <- cell_value by done.
    destruct (Z.ltb_spec (score (before i j).2) (H i j)) as [Hlt | Hle].
    + right. exists i, j. split; [right; lia |]. split; [done |].
      split; [done |]. split; [lia |].
      intros i'' j'' Hj'' Hsc. specialize (Hge i'' j'' Hj'' Hsc). lia.
    + destruct IH as [[E Hall] | (i' & j' & Hsc & Hj' & E & Hgt & Hfirst)].
      * left. split; [done |]. intros i' j' Hj' [Hi' | [-> Hlt]].
        -- apply Hall; [done | by left].
        -- destruct (decide (j' = j)) as [-> | Hne].
           ++ by rewrite E in Hle.
           ++ apply Hall; [done | right; lia].
      * right. exists i', j'. split; [| done].
        destruct Hsc as [? | [-> ?]]; [by left | right; lia].
  - intros i IH. rewrite phase1_before_0, phase1_rows_S.
    destruct IH as [[E Hall] | (i' & j' & Hsc & Hj' & E & Hgt & Hfirst)].
    + left. split; [done |]. intros i' j' Hj' [Hi' | [_ ?]]; [| lia].
      apply Hall; [done |]. unfold scanned_before. lia.
    + right. exists i', j'. split; [| done].
      destruct Hsc as [? | [-> ?]]; left; lia.
Qed.

End Phase1_First.

Lemma phase1_first_maximum sc g read :
  let best := alignToDAGLocal_Phase1_Score sc g read best_init in
  (best = best_init
   ∧ ∀ i c, (i < String.length read)%nat → (c < numVertices g)%nat →
            cell sc g read best_init i c = 0)
  ∨ (0 < score best
     ∧ (qryRow best < String.length read)%nat
     ∧ (vid best < numVertices g)%nat
     ∧ refColumn best = vid best ∧ vertexSeqOffset best = 0%nat
     ∧ cell sc g read best_init (qryRow best) (vid best) = score best
     ∧ (∀ i c, (i < String.length read)%nat → (c < numVertices g)%nat →
               cell sc g read best_init i c ≤ score best)
     ∧ (∀ i c, (c < numVertices g)%nat →
               scanned_before i c (qryRow best) (vid best) →
               cell sc g read best_init i c < score best)).
Proof.
  intros best.
  assert (best = (phase1_before sc g read best_init (String.length read) 0).2)
    as Eb by done.
  destruct (best_ge_cells sc g read best_init (String.length read) 0 ltac:(lia))
    as [_ Hge].
  rewrite <- Eb in Hge.
  destruct (phase1_best_first sc g read best_init (String.length read) 0
              ltac:(lia))
    as [[E Hall] | (i' & j' & Hsc & Hj' & E & Hgt & Hfirst)];
    rewrite <- Eb in E.
  - left. split; [done |]. intros i c Hi Hc.
    pose proof (cell_nonneg sc g read best_init i c Hc).
    specialize (Hall i c Hc ltac:(by left)). simpl in Hall. lia.
  - right. destruct Hsc as [Hi' | [_ ?]]; [| lia].
    rewrite E. simpl in *. repeat split; try done.
    intros i c Hi Hc. rewrite E in Hge. simpl in Hge.
    apply Hge; [done | by left].
Qed.

(** X10.  The scalar Phase 1, started from a fresh [BestScoreInfo]:
    either no cell is positive and the result is the fresh one, end point
    (0, 0) and score 0; or the score is positive, it is the value of the
    cell at the end point and the largest of the matrix, and every cell
    that comes before the end point in the row-by-row scan is strictly
    smaller: of several maximal cells the first is reported. *)
Theorem phase1_reports_first_maximum sc g read :
  let best := alignToDAGLocal_Phase1_Score sc g read best_init in
  (best = best_init
   ∧ ∀ i c, (i < String.length read)%nat → (c < numVertices g)%nat →
            cell sc g read best_init i c = 0)
  ∨ (0 < score best
     ∧ (qryRow best < String.length read)%nat
     ∧ (vid best < numVertices g)%nat
     ∧ refColumn best = vid best ∧ vertexSeqOffset best = 0%nat
     ∧ cell sc g read best_init (qryRow best) (vid best) = score best
     ∧ (∀ i c, (i < String.length read)%nat → (c < numVertices g)%nat →
               cell sc g read best_init i c ≤ score best)
     ∧ (∀ i c, (c < numVertices g)%nat →
               scanned_before i c (qryRow best) (vid best) →
               cell sc g read best_init i c < score best)).
Proof. apply phase1_first_maximum. Qed.

(** ** Reads that match a path, and reads that match nothing *)

Section Exact_Path.
Context (sc : SCORE) (g : CSR_char_container) (read : string).
Context (Htopo : topo_sorted g).

Local Notation V := (numVertices g).
Local Notation H := (cell sc g read best_init).
Local Notation len := (String.length read).

Lemma path_cells (path : list nat) :
  0 ≤ score_match sc →
  (∀ i, (i < len)%nat →
        (path !!! i < V)%nat ∧ vertex_label g !!! (path !!! i) = char_at read i) →
  (∀ i, (S i < len)%nat → path !!! i ∈ in_neighbors g (path !!! S i)) →
  ∀ i, (i < len)%nat → Z.of_nat (S i) * score_match sc ≤ H i (path !!! i).
Proof.
  intros Hm Hlab Hedge. induction i as [|i IH]; intros Hi.
  - destruct (Hlab 0%nat Hi) as [Hv Hl].
    rewrite (cell_recurrence sc g read best_init Htopo) by done.
    etrans; [| apply sw_recurrence_ge_sub].
    unfold sub_score. rewrite Hl, Ascii.eqb_refl. lia.
  - destruct (Hlab (S i) Hi) as [Hv Hl].
    specialize (IH ltac:(lia)).
    rewrite (cell_recurrence sc g read best_init Htopo) by done.
    etrans; [| apply (sw_recurrence_ge_match _ _ _ _ _ _ (path !!! i))].
    + unfold sub_score, up_row. rewrite Hl, Ascii.eqb_refl. lia.
    + apply Hedge. lia.
Qed.

Lemma zero_cell i c :
  0 ≤ score_mismatch sc → 0 ≤ score_ins sc → 0 ≤ score_del sc →
  (c < V)%nat → vertex_label g !!! c ≠ char_at read i →
  (∀ p, (p < V)%nat → up_row sc g read best_init i p = 0) →
  (∀ p, (p < c)%nat → H i p = 0) →
  H i c = 0.
Proof.
  intros Hmm Hins Hdel Hc Hno Hup Hrow.
  apply Z.le_antisymm; [| by apply cell_nonneg].
  rewrite (cell_recurrence sc g read best_init Htopo) by done.
  assert (sub_score sc g read i c ≤ 0) as Hsub.
  { unfold sub_score.
    destruct (Ascii.eqb_spec (vertex_label g !!! c) (char_at read i))
      as [E | _]; [done | lia]. }
  apply sw_recurrence_le; [done | done | | |].
  - intros p Hp. pose proof (Htopo c p Hc Hp). rewrite Hup by lia. lia.
  - intros p Hp. pose proof (Htopo c p Hc Hp). rewrite Hrow by done. lia.
  - rewrite Hup by done. lia.
Qed.

Lemma all_cells_zero :
  0 ≤ score_mismatch sc → 0 ≤ score_ins sc → 0 ≤ score_del sc →
  (∀ i c, (i < len)%nat → (c < V)%nat →
          vertex_label g !!! c ≠ char_at read i) →
  ∀ i c, (i < len)%nat → (c < V)%nat → H i c = 0.
Proof.
  intros Hmm Hins Hdel Hno.
  induction i as [|i IHi]; intros c; induction (lt_wf c) as [c _ IHc];
    intros Hi Hc.
  - apply zero_cell; try done; [by apply Hno |].
    intros p Hp. apply IHc; (done || lia).
  - apply zero_cell; try done; [by apply Hno | |].
    + intros p Hp. unfold up_row. apply IHi; (done || lia).
    + intros p Hp. apply IHc; (done || lia).
Qed.

End Exact_Path.

(** X11.  A read that spells the labels along a path of the graph gets
    the full score, its length times the match reward (topologically
    sorted graph, non-negative constants). *)
Theorem exact_path_scores_full sc g read (path : list nat) :
  topo_sorted g →
  0 ≤ score_match sc → 0 ≤ score_mismatch sc →
  0 ≤ score_ins sc → 0 ≤ score_del sc →
  (∀ i, (i < String.length read)%nat →
        (path !!! i < numVertices g)%nat
        ∧ vertex_label g !!! (path !!! i) = char_at read i) →
  (∀ i, (S i < String.length read)%nat →
        path !!! i ∈ in_neighbors g (path !!! S i)) →
  score (alignToDAGLocal_Phase1_Score sc g read best_init)
  = Z.of_nat (String.length read) * score_match sc.
Proof.
  intros Htopo Hm Hmm Hins Hdel Hlab Hedge.
  set (len := String.length read).
  assert (alignToDAGLocal_Phase1_Score sc g read best_init
          = (phase1_before sc g read best_init len 0).2) as Eb by done.
  rewrite Eb. apply Z.le_antisymm.
  - apply best_le_bound; [lia | simpl; lia |].
    intros i' j' Hj' [Hi' | [_ ?]]; [| lia].
    etrans; [apply (cell_le_min sc g read best_init Htopo Hm Hmm Hins Hdel);
             done |].
    apply Z.mul_le_mono_nonneg_r; [done |]. fold len. lia.
  - destruct len as [|m] eqn:El; [done |].
    destruct (Hlab m ltac:(lia)) as [Hv _].
    etrans; [apply (path_cells sc g read Htopo path Hm Hlab Hedge m); lia |].
    apply best_ge_cells; [lia | done | left; lia].
Qed.

Lemma exact_path_scores_full_witness :
  topo_sorted (chain_graph "ACGTA")
  ∧ score (alignToDAGLocal_Phase1_Score unit_costs (chain_graph "ACGTA") "CGT"
             best_init)
    = Z.of_nat (String.length "CGT") * score_match unit_costs.
Proof.
  split; [exact example_chain_sorted |].
  apply (exact_path_scores_full unit_costs (chain_graph "ACGTA") "CGT"
           [1; 2; 3]%nat example_chain_sorted); try by_computation.
  - intros i Hi. simpl in Hi.
    do 3 (destruct i as [|i]; [vm_compute; split; [lia | reflexivity] |]). lia.
  - intros i Hi. simpl in Hi.
    do 2 (destruct i as [|i]; [vm_compute; repeat constructor |]). lia.
Defined.

(** X12.  A read none of whose characters is the label of a vertex
    scores nothing: every cell is 0 and Phase 1 returns the
    [BestScoreInfo] it was given untouched (topologically sorted graph,
    non-negative penalties). *)
Theorem unmatched_read_scores_zero sc g read :
  topo_sorted g →
  0 ≤ score_mismatch sc → 0 ≤ score_ins sc → 0 ≤ score_del sc →
  (∀ i c, (i < String.length read)%nat → (c < numVertices g)%nat →
          vertex_label g !!! c ≠ char_at read i) →
  alignToDAGLocal_Phase1_Score sc g read best_init = best_init
  ∧ ∀ i c, (i < String.length read)%nat → (c < numVertices g)%nat →
           cell sc g read best_init i c = 0.
Proof.
  intros Htopo Hmm Hins Hdel Hno.
  pose proof (all_cells_zero sc g read Htopo Hmm Hins Hdel Hno) as Hz.
  split; [| done].
  destruct (phase1_first_maximum sc g read)
    as [[E _] | (Hpos & Hr & Hv & _ & _ & Hcell & _)]; [done |].
  rewrite Hz in Hcell by done. lia.
Qed.

Lemma unmatched_read_scores_zero_witness :
  topo_sorted (chain_graph "ACGTA")
  ∧ alignToDAGLocal_Phase1_Score unit_costs (chain_graph "ACGTA") "NN"
      best_init = best_init
  ∧ ∀ i c, (i < String.length "NN")%nat →
           (c < numVertices (chain_graph "ACGTA"))%nat →
           cell unit_costs (chain_graph "ACGTA") "NN" best_init i c = 0.
Proof.
  split; [exact example_chain_sorted |].
  apply (unmatched_read_scores_zero unit_costs (chain_graph "ACGTA") "NN"
           example_chain_sorted); try by_computation.
  intros i c Hi Hc. simpl in Hi.
  change (numVertices (chain_graph "ACGTA")) with 5%nat in Hc.
  do 2 (destruct i as [|i];
        [do 5 (destruct c as [|c]; [vm_compute; discriminate |]); lia |]).
  lia.
Defined.

(** ** The slab of Phase 3 *)

(** X13.  Phase 3 restricts the recurrence to the columns from [j0] on;
    no cell of its slab is negative or larger than the cell of the full
    matrix of Phase 1 in the same row and column. *)
Theorem slab_never_exceeds_matrix sc g read best0 j0 w h i j :
  topo_sorted g →
  (j < w)%nat → (j0 + j < numVertices g)%nat →
  0 ≤ slab_cell sc g read j0 w h i j
  ∧ slab_cell sc g read j0 w h i j ≤ cell sc g read best0 i (j0 + j).
Proof.
  intros Htopo Hj HjV. split.
  - by apply slab_nonneg.
  - by apply slab_le_full.
Qed.

Lemma slab_never_exceeds_matrix_witness :
  topo_sorted (chain_graph "ACGTA")
  ∧ 0 ≤ slab_cell unit_costs (chain_graph "ACGTA") "ACTA" 2 3 4 3 2
  ∧ slab_cell unit_costs (chain_graph "ACGTA") "ACTA" 2 3 4 3 2
    ≤ cell unit_costs (chain_graph "ACGTA") "ACTA" best_init 3 (2 + 2).
Proof.
  split; [exact example_chain_sorted |].
  apply (slab_never_exceeds_matrix unit_costs (chain_graph "ACGTA") "ACTA"
           best_init 2 3 4 3 2 example_chain_sorted); by_computation.
Defined.

(** X14.  What Phase 3 logs for the traceback is exact: with
    non-negative constants, ins <= 128 and match + del <= 127, the entry
    of [completeMatrixLog] for a cell of the slab is the difference
    between the cell and the cell above it (0 above the first row),
    unchanged by the conversion to [int8_t], and it lies between -ins
    and match + del. *)
Theorem traceback_log_is_exact sc g read j0 w h i j :
  topo_sorted g →
  0 ≤ score_match sc → 0 ≤ score_mismatch sc →
  0 ≤ score_ins sc → 0 ≤ score_del sc →
  score_ins sc ≤ 128 → score_match sc + score_del sc ≤ 127 →
  (i < h)%nat → (j < w)%nat → (j0 + j < numVertices g)%nat →
  let d := mget (phase3_rows sc g read j0 w h h).2 i j in
  d = slab_cell sc g read j0 w h i j - up_slab sc g read j0 w h i j
  ∧ - score_ins sc ≤ d ≤ score_match sc + score_del sc.
Proof.
  intros Htopo Hm Hmm Hins Hdel Hins8 Hmd8 Hi Hj HjV d.
  assert (d = slab_cell sc g read j0 w h i j - up_slab sc g read j0 w h i j)
    as Ed by (by apply log_exact).
  split; [done |]. rewrite Ed.
  pose proof (slab_diff_lower sc g read j0 w h Htopo i j Hj HjV).
  pose proof (slab_diff_upper sc g read j0 w h Htopo Hm Hmm Hins Hdel i j Hj HjV).
  lia.
Qed.

Lemma traceback_log_is_exact_witness :
  topo_sorted (chain_graph "ACGTA")
  ∧ let d := mget (phase3_rows unit_costs (chain_graph "ACGTA") "ACTA"
                     0 5 4 4).2 3 4 in
    d = slab_cell unit_costs (chain_graph "ACGTA") "ACTA" 0 5 4 3 4
        - up_slab unit_costs (chain_graph "ACGTA") "ACTA" 0 5 4 3 4
    ∧ - score_ins unit_costs ≤ d
        ≤ score_match unit_costs + score_del unit_costs.
Proof.
  split; [exact example_chain_sorted |].
  apply (traceback_log_is_exact unit_costs (chain_graph "ACGTA") "ACTA"
           0 5 4 3 4 example_chain_sorted); by_computation.
Defined.

(** ** The forward kernel, lane by lane *)

Lemma lane_above_up t sc g chars r p :
  (p < numVertices g)%nat →
  lane_above t sc g chars r !!! p
  = match r with O => 0 | S r' => lane_value t sc g chars r' p end.
Proof. intros Hp. destruct r; [by apply lane_above_0 | done]. Qed.

(** X15.  On a topologically sorted graph (vertex ids fit [int32_t]),
    whatever the rolling window and the side store hold when a batch
    starts: the cells of lane [ℓ] are computed in the order of the scan,
    and cell (r, k) holds the value of the local-alignment recurrence in
    the arithmetic of the lane, from the cell above (0 above the first
    row), the cells of the in-neighbours in the row above and in the same
    row, and the character of the lane in row r. *)
Theorem forward_kernel_lane_recurrence t sc g soa offset qbl nb fb ℓ :
  (ℓ < numSeqs t)%nat → topo_sorted g → Z.of_nat (numVertices g) < 2 ^ 31 →
  buffers_shaped g nb fb →
  let st := kernel_batch (vec_ops t) sc g (computeLongHops g) (Forward _)
              soa offset qbl nb fb in
  let w := lane_bits t in
  let M := lane_value t sc g (soa_char t soa offset ℓ) in
  let up r p := match r with O => 0 | S r' => M r' p end in
  let sub r k :=
    if soa_char t soa offset ℓ r =? wrap w (char_code (vertex_label g !!! k))
    then wrap w (score_match sc) else wrap w (score_mismatch sc) in
  lane_history ℓ (cells _ st)
  = (λ c : nat * nat, (c, M c.1 c.2)) <$> scan_order g qbl
  ∧ ∀ r k, (k < numVertices g)%nat →
      M r k
      = Z.max
          (foldl (λ m p, Z.max (Z.max m (wrap w (up r p + sub r k)))
                               (wrap w (M r p + wrap w (score_del sc))))
                 (Z.max 0 (sub r k)) (in_neighbors g k))
          (wrap w (up r k + wrap w (score_ins sc))).
Proof.
  intros Hℓ Hsorted HV Hshape st w M up sub. split.
  - by apply kernel_lane_history.
  - intros r k Hk. unfold M.
    rewrite (lane_value_unfold t sc g _ Hsorted) by done.
    rewrite lane_above_up by done. f_equal.
    apply foldl_ext_in. intros m p Hp.
    pose proof (Hsorted k p Hk Hp).
    by rewrite lane_above_up by lia.
Qed.

Lemma forward_kernel_lane_recurrence_witness :
  let t := Int32 in
  let sc := unit_scores in
  let g := chain_graph "ACGTA" in
  let soa := (convertToSOA Int32 ["CGT"]%string).1 in
  let st := kernel_batch (vec_ops t) sc g (computeLongHops g) (Forward _)
              soa 0 16 (fresh_buffers t g 0%nat).1 (fresh_buffers t g 0%nat).2 in
  let w := lane_bits t in
  let M := lane_value t sc g (soa_char t soa 0 0) in
  let up r p := match r with O => 0 | S r' => M r' p end in
  let sub r k :=
    if soa_char t soa 0 0 r =? wrap w (char_code (vertex_label g !!! k))
    then wrap w (score_match sc) else wrap w (score_mismatch sc) in
  topo_sorted g
  ∧ lane_history 0 (cells _ st)
    = (λ c : nat * nat, (c, M c.1 c.2)) <$> scan_order g 16
  ∧ ∀ r k, (k < numVertices g)%nat →
      M r k
      = Z.max
          (foldl (λ m p, Z.max (Z.max m (wrap w (up r p + sub r k)))
                               (wrap w (M r p + wrap w (score_del sc))))
                 (Z.max 0 (sub r k)) (in_neighbors g k))
          (wrap w (up r k + wrap w (score_ins sc))).
Proof.
  split; [exact example_chain_sorted |].
  apply (forward_kernel_lane_recurrence Int32 unit_scores (chain_graph "ACGTA")
           (convertToSOA Int32 ["CGT"]%string).1 0 16
           (fresh_buffers Int32 (chain_graph "ACGTA") 0%nat).1
           (fresh_buffers Int32 (chain_graph "ACGTA") 0%nat).2 0);
    try exact example_chain_sorted; try apply fresh_buffers_shaped;
    by_computation.
Defined.

(** ** The result of a batch does not depend on what the buffers held *)

Lemma cols_zero_lane t ℓ :
  (ℓ < numSeqs t)%nat → concat (c_zero (vec_ops t)) !!! ℓ = 0.
Proof.
  intros Hℓ. rewrite numSeqs_cols in Hℓ.
  destruct (cols_shape_zero t) as [Hlen Hsh].
  assert (ℓ = (ℓ / colValuesPerRegister * colValuesPerRegister
               + ℓ mod colValuesPerRegister)%nat) as Hdm.
  { pose proof (Nat.div_mod_eq ℓ colValuesPerRegister). lia. }
  assert (ℓ / colValuesPerRegister < colRegistersCountPerBatch t)%nat.
  { apply Nat.Div0.div_lt_upper_bound. lia. }
  assert (ℓ mod colValuesPerRegister < colValuesPerRegister)%nat.
  { apply Nat.mod_upper_bound. done. }
  rewrite Hdm.
  rewrite (concat_lookup_uniform colValuesPerRegister) by (done || lia).
  change (c_zero (vec_ops t))
    with (replicate (colRegistersCountPerBatch t)
            (lanes colValuesPerRegister (λ _ : nat, 0))).
  rewrite lookup_total_replicate_2 by done.
  by rewrite lanes_lookup_total.
Qed.

(** Where no cell attains the best score the end point is never set. *)
Lemma lane_tracking_none t sc g withLongHop P soa offset qbl nb fb ℓ :
  (ℓ < numSeqs t)%nat →
  let st := kernel_batch (vec_ops t) sc g withLongHop P soa offset qbl nb fb in
  let h := lane_history ℓ (cells _ st) in
  (∀ c, c ∈ h → c.2 ≠ running_max h) →
  (bestRows512 _ st : list Z) !!! ℓ = 0 ∧ concat (bestCols512 _ st) !!! ℓ = 0.
Proof.
  intros Hℓ st h. subst st h.
  pose (Inv := λ (h : list (nat * nat * list Z)) (b r : list Z)
                 (c : list (list Z)),
          b !!! ℓ = running_max (lane_history ℓ h)
          ∧ (length c = colRegistersCountPerBatch t
             ∧ ∀ y, y ∈ c → length y = colValuesPerRegister)
          ∧ ((∀ c0, c0 ∈ lane_history ℓ h → c0.2 ≠ running_max (lane_history ℓ h)) →
             r !!! ℓ = 0 ∧ concat c !!! ℓ = 0)).
  pose proof (kernel_batch_track (vec_ops t) sc g withLongHop Inv) as HT.
  destruct (HT) with (P := P) (soa := soa) (offset := offset) (qbl := qbl)
                     (nb := nb) (fb := fb) as (_ & _ & He).
  - clear HT. intros h b r c row k cur (Hb & [Hlen Hsh] & He).
    change (vec (vec_ops t)) with (list Z) in *.
    change (cols (vec_ops t)) with (list (list Z)) in *.
    unfold Inv. rewrite lane_history_snoc, running_max_snoc. simpl.
    set (H := lane_history ℓ h) in *. set (m := running_max H) in *.
    set (x := cur !!! ℓ).
    assert (lanes (numSeqs t) (λ i : nat, Z.max (cur !!! i) (b !!! i)) !!! ℓ
            = Z.max x m) as Hmax.
    { rewrite lanes_lookup_total by done. cbv beta. by rewrite Hb. }
    assert (mask_bit (lanes (numSeqs t) (λ i : nat, cur !!! i =?
              lanes (numSeqs t) (λ i0 : nat, Z.max (cur !!! i0) (b !!! i0)) !!! i)) ℓ
            = (x =? Z.max x m)) as Hbit.
    { rewrite mask_bit_lanes by done. cbv beta. by rewrite Hmax. }
    split; [done |]. split; [apply (cols_shape_set t) |].
    intros Hno.
    pose proof (cols_lane_set t c
      (lanes (numSeqs t) (λ i : nat, cur !!! i =?
         lanes (numSeqs t) (λ i0 : nat, Z.max (cur !!! i0) (b !!! i0)) !!! i))
      (Z.of_nat k) ℓ Hℓ Hlen Hsh) as Hcol.
    simpl in Hcol. rewrite Hcol. clear Hcol.
    rewrite lanes_lookup_total by done. rewrite Hbit.
    assert (x ≠ Z.max x m) as Hne.
    { apply (Hno (row, k, x)). apply elem_of_app. right. by left. }
    destruct (Z.eqb_spec x (Z.max x m)) as [| _]; [done |].
    assert (Z.max x m = m) as Hm by lia.
    rewrite Hm in Hno. apply He.
    intros c0 Hc0. apply Hno. apply elem_of_app. by left.
  - unfold Inv. split; [| split].
    + simpl. by rewrite lanes_lookup_total.
    + apply cols_shape_zero.
    + intros _. split; [simpl; by rewrite lanes_lookup_total |].
      by apply cols_zero_lane.
  - exact He.
Qed.

Lemma running_max_attained_or h :
  (∃ h1 r v h2, h = h1 ++ (r, v, running_max h) :: h2
                ∧ ∀ c, c ∈ h2 → c.2 ≠ running_max h)
  ∨ (∀ c, c ∈ h → c.2 ≠ running_max h).
Proof.
  induction h as [|[[r v] x] h IH] using rev_ind.
  - right. by intros c ?%elem_of_nil.
  - rewrite running_max_snoc. simpl.
    destruct (decide (x = Z.max x (running_max h))) as [Hx | Hx].
    + left. exists h, r, v, []. rewrite <- Hx. split; [done |].
      by intros c ?%elem_of_nil.
    + assert (Z.max x (running_max h) = running_max h) as Hm by lia.
      rewrite Hm.
      destruct IH as [(h1 & r' & v' & h2 & Hdec & Hno) | Hnone].
      * left. exists h1, r', v', (h2 ++ [(r, v, x)]). split.
        -- rewrite Hdec at 1. by rewrite <- app_assoc.
        -- intros c [Hc | Hc%list_elem_of_singleton]%elem_of_app;
             [by apply Hno |]. subst. simpl. lia.
      * right. intros c [Hc | Hc%list_elem_of_singleton]%elem_of_app;
          [by apply Hnone |]. subst. simpl. lia.
Qed.

Lemma forward_batch_lane_same t sc g readSet stale stale' pos :
  topo_sorted g → Z.of_nat (numVertices g) < 2 ^ 31 →
  (∀ b, buffers_shaped g (stale b).1 (stale b).2) →
  (∀ b, buffers_shaped g (stale' b).1 (stale' b).2) →
  (pos < length readSet)%nat →
  let st := forward_batch t sc g readSet stale (pos / numSeqs t) in
  let st' := forward_batch t sc g readSet stale' (pos / numSeqs t) in
  let ℓ := (pos mod numSeqs t)%nat in
  (bestScores512 _ st : list Z) !!! ℓ = (bestScores512 _ st' : list Z) !!! ℓ
  ∧ (bestRows512 _ st : list Z) !!! ℓ = (bestRows512 _ st' : list Z) !!! ℓ
  ∧ concat (bestCols512 _ st) !!! ℓ = concat (bestCols512 _ st') !!! ℓ.
Proof.
  intros Hsorted HV Hshape Hshape' Hpos. cbv zeta.
  pose proof (numSeqs_pos t) as Hn.
  pose proof (forward_lane_history t sc g Hsorted HV readSet stale pos
                Hshape Hpos) as Hh.
  pose proof (forward_lane_history t sc g Hsorted HV readSet stale' pos
                Hshape' Hpos) as Hh'.
  change (vec (vec_ops t)) with (list Z) in *.
  change (cols (vec_ops t)) with (list (list Z)) in *.
  set (ℓ := (pos mod numSeqs t)%nat) in *.
  assert (ℓ < numSeqs t)%nat as Hℓ by (apply Nat.mod_upper_bound; lia).
  set (H := lane_reference t sc g (padded_char (read_of_slot readSet pos))
              (batchLength readSet (pos / numSeqs t * numSeqs t))) in *.
  assert (∀ stl, let s := forward_batch t sc g readSet stl (pos / numSeqs t) in
            lane_history ℓ (cells _ s) = H →
            (bestScores512 _ s : list Z) !!! ℓ = running_max H
            ∧ (∀ h1 r v h2, H = h1 ++ (r, v, running_max H) :: h2 →
                 (∀ c, c ∈ h2 → c.2 ≠ running_max H) →
                 (bestRows512 _ s : list Z) !!! ℓ = wrap (lane_bits t) (Z.of_nat r)
                 ∧ concat (bestCols512 _ s) !!! ℓ = wrap 32 (Z.of_nat v))
            ∧ ((∀ c, c ∈ H → c.2 ≠ running_max H) →
               (bestRows512 _ s : list Z) !!! ℓ = 0
               ∧ concat (bestCols512 _ s) !!! ℓ = 0)) as Hall.
  { intros stl s Hs. subst s. revert Hs. rewrite forward_batch_eq. intros Hs.
    pose proof (lane_tracking t sc g (computeLongHops g) (Forward _)
                  (convertToSOA t readSet).1
                  ((convertToSOA t readSet).2 !!! (pos / numSeqs t)%nat)
                  (batchLength readSet (pos / numSeqs t * numSeqs t))
                  (stl (pos / numSeqs t)%nat).1 (stl (pos / numSeqs t)%nat).2
                  ℓ Hℓ) as Ht.
    pose proof (lane_tracking_none t sc g (computeLongHops g) (Forward _)
                  (convertToSOA t readSet).1
                  ((convertToSOA t readSet).2 !!! (pos / numSeqs t)%nat)
                  (batchLength readSet (pos / numSeqs t * numSeqs t))
                  (stl (pos / numSeqs t)%nat).1 (stl (pos / numSeqs t)%nat).2
                  ℓ Hℓ) as Hn0.
    cbv zeta in Ht, Hn0.
    change (vec (vec_ops t)) with (list Z) in *.
    change (cols (vec_ops t)) with (list (list Z)) in *.
    rewrite Hs in Ht, Hn0.
    destruct Ht as [Ht1 Ht2]. done. }
  destruct (Hall stale Hh) as (Hs & He & Hno).
  destruct (Hall stale' Hh') as (Hs' & He' & Hno').
  split; [by rewrite Hs, Hs' |].
  destruct (running_max_attained_or H)
    as [(h1 & r & v & h2 & Hdec & Hnone) | Hnone].
  - destruct (He h1 r v h2 Hdec Hnone) as [-> ->].
    destruct (He' h1 r v h2 Hdec Hnone) as [-> ->]. done.
  - destruct (Hno Hnone) as [-> ->].
    destruct (Hno' Hnone) as [-> ->]. done.
Qed.

(** X16.  The rolling window and the side store of a worker are not
    cleared between batches.  On a topologically sorted graph (vertex ids
    fit [int32_t]) this is harmless: whatever two runs of the forward
    wrapper find in these buffers, and whatever their output vectors held
    before, they report the same score, end row and end column for every
    read. *)
Theorem forward_result_ignores_stale_buffers
    t sc g readSet stale stale' out out' rid :
  topo_sorted g → Z.of_nat (numVertices g) < 2 ^ 31 →
  (∀ b, buffers_shaped g (stale b).1 (stale b).2) →
  (∀ b, buffers_shaped g (stale' b).1 (stale' b).2) →
  length out = length readSet → length out' = length readSet →
  (rid < length readSet)%nat →
  reported (alignToDAGLocal_Phase1_vectorized_wrapper t sc g readSet stale out
              !!! rid)
  = reported (alignToDAGLocal_Phase1_vectorized_wrapper t sc g readSet stale'
                out' !!! rid).
Proof.
  intros Hsorted HV Hshape Hshape' Hout Hout' Hrid.
  destruct (sortedReadOrder_find readSet rid Hrid) as (pos & Hpos & <-).
  rewrite !wrapper_reported by done.
  destruct (forward_batch_lane_same t sc g readSet stale stale' pos
              Hsorted HV Hshape Hshape' Hpos) as (E1 & E2 & E3).
  change (vec (vec_ops t)) with (list Z) in *.
  change (cols (vec_ops t)) with (list (list Z)) in *.
  by rewrite E1, E2, E3.
Qed.

Lemma forward_result_ignores_stale_buffers_witness :
  let g := chain_graph "ACGTA" in
  let readSet := ["CGT"; "ACGTAACGTAACGTAACG"]%string in
  let junk : stale_buffers :=
    λ _, (replicate blockWidth (replicate blockHeight [7; 7; 7]),
          replicate (numVertices g) (replicate blockHeight [])) in
  topo_sorted g
  ∧ reported (alignToDAGLocal_Phase1_vectorized_wrapper Int32 unit_scores g
                readSet (fresh_buffers Int32 g) (output_init 2) !!! 1%nat)
    = reported (alignToDAGLocal_Phase1_vectorized_wrapper Int32 unit_scores g
                  readSet junk (output_init 2) !!! 1%nat).
Proof.
  intros g readSet junk.
  split; [exact example_chain_sorted |].
  apply (forward_result_ignores_stale_buffers Int32 unit_scores g readSet
           (fresh_buffers Int32 g) junk (output_init 2) (output_init 2) 1
           example_chain_sorted);
    try (intros b; apply fresh_buffers_shaped); try by_computation.
  intros b. unfold buffers_shaped, junk. cbn [fst snd].
  rewrite !length_replicate. split; [done |]. split.
  { intros c Hc. rewrite lookup_total_replicate_2 by done.
    by rewrite length_replicate. }
  split; [done |].
  intros v Hv. rewrite lookup_total_replicate_2 by done.
  by rewrite length_replicate.
Defined.

(** ** The vector kernel against the scalar kernel *)

Lemma char_code_inj c c' : char_code c = char_code c' → c = c'.
Proof.
  unfold char_code, wrap. intros E.
  pose proof (N_ascii_bounded c) as Hc. pose proof (N_ascii_bounded c') as Hc'.
  assert (Z.of_N (N_of_ascii c) = Z.of_N (N_of_ascii c')) as Ez.
  { change (2 ^ (8 - 1)) with 128 in E. change (2 ^ 8) with 256 in E.
    pose proof (Z.div_mod (Z.of_N (N_of_ascii c) + 128) 256 ltac:(lia)).
    pose proof (Z.div_mod (Z.of_N (N_of_ascii c') + 128) 256 ltac:(lia)).
    pose proof (Z.mod_pos_bound (Z.of_N (N_of_ascii c) + 128) 256 ltac:(lia)).
    pose proof (Z.mod_pos_bound (Z.of_N (N_of_ascii c') + 128) 256 ltac:(lia)).
    lia. }
  apply N2Z.inj in Ez.
  rewrite <- (ascii_N_embedding c), <- (ascii_N_embedding c'). by rewrite Ez.
Qed.

Lemma foldl_max_ge_init (a b : nat → Z) (m0 : Z) (ps : list nat) :
  m0 ≤ foldl (λ m p, Z.max (Z.max m (a p)) (b p)) m0 ps.
Proof.
  revert m0. induction ps as [|p ps IH]; intros m0; simpl; [done |].
  etrans; [| apply IH]. lia.
Qed.

Lemma foldl_max_ge (a b : nat → Z) (m0 : Z) (ps : list nat) p :
  p ∈ ps →
  a p ≤ foldl (λ m p, Z.max (Z.max m (a p)) (b p)) m0 ps
  ∧ b p ≤ foldl (λ m p, Z.max (Z.max m (a p)) (b p)) m0 ps.
Proof.
  revert m0. induction ps as [|q ps IH]; intros m0 Hp; [by apply elem_of_nil in Hp |].
  simpl. apply elem_of_cons in Hp as [-> | Hp].
  - pose proof (foldl_max_ge_init a b (Z.max (Z.max m0 (a q)) (b q)) ps). lia.
  - by apply IH.
Qed.

Lemma running_max_le h B :
  0 ≤ B → (∀ c, c ∈ h → c.2 ≤ B) → running_max h ≤ B.
Proof.
  intros HB. induction h as [|c h IH] using rev_ind; intros Hh; [done |].
  rewrite running_max_snoc. apply Z.max_lub.
  - apply Hh, elem_of_app. right. by left.
  - apply IH. intros c' Hc'. apply Hh, elem_of_app. by left.
Qed.

Lemma lane_reference_elem t sc g chars q c :
  c ∈ lane_reference t sc g chars q →
  (c.1.1 < q)%nat ∧ (c.1.2 < numVertices g)%nat
  ∧ c.2 = lane_value t sc g chars c.1.1 c.1.2.
Proof.
  unfold lane_reference. intros ([r k] & -> & Hin)%list_elem_of_fmap.
  apply scan_order_row in Hin. simpl. by destruct Hin.
Qed.

Section Vector_vs_Scalar.
Context (t : SimdType) (sc : SCORE) (g : CSR_char_container) (read : string).
Hypothesis Hsorted : topo_sorted g.
Hypothesis Hlabel : DUMMY ∉ vertex_label g.
Hypothesis Hmatch : 0 ≤ score_match sc.
Hypothesis Hmismatch : 1 ≤ score_mismatch sc ≤ 2 ^ (lane_bits t - 1).
Hypothesis Hins : 1 ≤ score_ins sc ≤ 2 ^ (lane_bits t - 1).
Hypothesis Hdel : 1 ≤ score_del sc ≤ 2 ^ (lane_bits t - 1).
Hypothesis Hfit :
  Z.of_nat (numVertices g `min` String.length read) * score_match sc
  < 2 ^ (lane_bits t - 1).

Local Notation w := (lane_bits t).
Local Notation V := (numVertices g).
Local Notation len := (String.length read).
Local Notation sv := (as_scores sc).
Local Notation M := (lane_value t sv g (padded_char read)).
Local Notation Hc := (cell sc g read best_init).

Lemma wrap_penalty x : 1 ≤ x ≤ 2 ^ (w - 1) → wrap w (- x) = - x ∧ - x < 0.
Proof.
  intros Hx. split; [| lia].
  apply wrap_small; [apply lane_bits_pos | lia].
Qed.

Lemma cell_fits r k :
  (r < len)%nat → (k < V)%nat → 0 ≤ Hc r k < 2 ^ (w - 1).
Proof.
  intros Hr Hk. split; [by apply cell_nonneg |].
  eapply Z.le_lt_trans; [| exact Hfit].
  apply (cell_le_min sc g read best_init Hsorted); (done || lia).
Qed.

Lemma match_fits : (0 < len)%nat → (0 < V)%nat → score_match sc < 2 ^ (w - 1).
Proof.
  intros Hl HV. eapply Z.le_lt_trans; [| exact Hfit].
  assert (1 ≤ Z.of_nat (V `min` len)) by lia. nia.
Qed.

Lemma lane_sub_scalar r k :
  (r < len)%nat → (k < V)%nat →
  lane_sub t sv g (padded_char read) r k = sub_score sc g read r k.
Proof.
  intros Hr Hk. unfold lane_sub, sub_score, padded_char.
  destruct (Nat.ltb_spec r len) as [_ |]; [| lia].
  rewrite wrap_char_code. simpl.
  destruct (wrap_penalty (score_mismatch sc) Hmismatch) as [-> _].
  rewrite (wrap_small w (score_match sc));
    [| apply lane_bits_pos | pose proof (match_fits ltac:(lia) ltac:(lia)); lia].
  destruct (Z.eqb_spec (char_code (char_at read r))
              (char_code (vertex_label g !!! k))) as [E | E].
  - apply char_code_inj in E. by rewrite E, Ascii.eqb_refl.
  - destruct (Ascii.eqb_spec (vertex_label g !!! k) (char_at read r)) as [E' |];
      [by rewrite E' in E | done].
Qed.

(** Where the scores fit the lane, a cell of the read's rows is the cell
    of the scalar matrix. *)
Lemma lane_cell_scalar r k :
  (r < len)%nat → (k < V)%nat →
  (∀ p, (p < V)%nat →
        lane_above t sv g (padded_char read) r !!! p = up_row sc g read best_init r p) →
  (∀ p, (p < k)%nat → M r p = Hc r p) →
  M r k = Hc r k.
Proof.
  intros Hr Hk Hup Hrow. pose proof (lane_bits_pos t) as Hw.
  pose proof (cell_fits r k Hr Hk) as Hfits.
  rewrite (lane_value_unfold t sv g _ Hsorted) by done.
  rewrite lane_sub_scalar by done.
  rewrite (cell_recurrence sc g read best_init Hsorted) in Hfits |- * by done.
  set (sub := sub_score sc g read r k) in *.
  set (R := sw_recurrence sc sub (in_neighbors g k)
              (up_row sc g read best_init r) (Hc r) k) in *.
  destruct (wrap_penalty _ Hdel) as [Ed _].
  destruct (wrap_penalty _ Hins) as [Ei _].
  simpl. rewrite Ed, Ei.
  assert (- 2 ^ (w - 1) ≤ sub) as Hsub.
  { unfold sub, sub_score. destruct (Ascii.eqb _ _); lia. }
  assert (∀ p, (p < V)%nat → 0 ≤ up_row sc g read best_init r p) as Hup0.
  { intros p Hp. destruct r; [done |]. by apply cell_nonneg. }
  rewrite (foldl_ext_in _ (λ m p,
             Z.max (Z.max m (up_row sc g read best_init r p + sub))
                   (Hc r p - score_del sc))).
  2: { intros m p Hp. pose proof (Hsorted k p Hk Hp) as Hpk.
       rewrite Hup, Hrow by lia.
       pose proof (sw_recurrence_ge_match sc sub _ (up_row sc g read best_init r)
                     (Hc r) k p Hp).
       pose proof (sw_recurrence_ge_del sc sub _ (up_row sc g read best_init r)
                     (Hc r) k p Hp).
       pose proof (Hup0 p ltac:(lia)).
       pose proof (cell_nonneg sc g read best_init r p ltac:(lia)).
       fold R in H, H0.
       rewrite !wrap_small by (done || lia). f_equal. }
  rewrite Hup by done.
  pose proof (sw_recurrence_ge_ins sc sub (in_neighbors g k)
                (up_row sc g read best_init r) (Hc r) k) as Hgi.
  fold R in Hgi. pose proof (Hup0 k Hk).
  rewrite wrap_small by (done || lia).
  apply Z.le_antisymm.
  - apply Z.max_lub; [| lia].
    apply foldl_max_bound.
    + pose proof (sw_recurrence_nonneg sc sub (in_neighbors g k)
                    (up_row sc g read best_init r) (Hc r) k).
      pose proof (sw_recurrence_ge_sub sc sub (in_neighbors g k)
                    (up_row sc g read best_init r) (Hc r) k).
      fold R in H0, H1. lia.
    + intros p Hp. split.
      * apply (sw_recurrence_ge_match sc sub _ _ (Hc r) k p Hp).
      * apply (sw_recurrence_ge_del sc sub _ _ (Hc r) k p Hp).
  - set (F := foldl _ _ _).
    assert (Z.max 0 sub ≤ F) as HF0 by apply foldl_max_ge_init.
    apply sw_recurrence_le; [lia | lia | | | lia].
    + intros p Hp.
      destruct (foldl_max_ge
                  (λ p, up_row sc g read best_init r p + sub)
                  (λ p, Hc r p - score_del sc) (Z.max 0 sub)
                  (in_neighbors g k) p Hp) as [Ha _].
      fold F in Ha. lia.
    + intros p Hp.
      destruct (foldl_max_ge
                  (λ p, up_row sc g read best_init r p + sub)
                  (λ p, Hc r p - score_del sc) (Z.max 0 sub)
                  (in_neighbors g k) p Hp) as [_ Hb].
      fold F in Hb. lia.
Qed.

Lemma lane_value_scalar :
  ∀ r k, (r < len)%nat → (k < V)%nat → M r k = Hc r k.
Proof.
  induction r as [|r IHr]; intros k; induction (lt_wf k) as [k _ IHk];
    intros Hr Hk.
  - apply lane_cell_scalar; [done | done | |].
    + intros p Hp. by rewrite lane_above_0.
    + intros p Hp. apply IHk; (done || lia).
  - apply lane_cell_scalar; [done | done | |].
    + intros p Hp. unfold up_row.
      change (lane_above t sv g (padded_char read) (S r) !!! p) with (M r p).
      apply IHr; (done || lia).
    + intros p Hp. apply IHk; (done || lia).
Qed.

Lemma pad_hypotheses :
  (∀ k, (k < V)%nat → vertex_label g !!! k ≠ DUMMY)
  ∧ wrap w (score_mismatch sv) < 0
  ∧ wrap w (score_ins sv) < 0
  ∧ wrap w (score_del sv) < 0.
Proof.
  split; [intros k _; by apply label_not_DUMMY |]. simpl.
  destruct (wrap_penalty _ Hmismatch) as [-> ?].
  destruct (wrap_penalty _ Hins) as [-> ?].
  destruct (wrap_penalty _ Hdel) as [-> ?]. done.
Qed.

(** The best score of the lane, with any amount of padding, is the best
    score of the scalar kernel; a cell that holds it, when it is
    positive, is a cell of the read's rows. *)
Lemma reference_max_scalar q :
  (len ≤ q / blockHeight * blockHeight)%nat →
  let S := score (alignToDAGLocal_Phase1_Score sc g read best_init) in
  let h := lane_reference t sv g (padded_char read) q in
  running_max h = S
  ∧ (0 < S → ∀ c, c ∈ h → c.2 = S →
       (c.1.1 < len)%nat ∧ (c.1.2 < V)%nat ∧ Hc c.1.1 c.1.2 = S).
Proof.
  intros Hq S h.
  destruct pad_hypotheses as (Hl & Hpm & Hpi & Hpd).
  assert (0 ≤ S ∧ (∀ r k, (r < len)%nat → (k < V)%nat → Hc r k ≤ S)
          ∧ (0 < S → ∃ r k, (r < len)%nat ∧ (k < V)%nat ∧ Hc r k = S))
    as (HS0 & HSge & HSat).
  { destruct (phase1_first_maximum sc g read)
      as [[E Hz] | (Hpos & Hr & Hv & _ & _ & Hcell & Hall & _)].
    - unfold S. rewrite E. simpl. split; [done |]. split; [| lia].
      intros r k Hr Hk. by rewrite Hz.
    - split; [unfold S; lia |]. split; [done |].
      intros _. by exists (qryRow (alignToDAGLocal_Phase1_Score sc g read best_init)),
                         (vid (alignToDAGLocal_Phase1_Score sc g read best_init)). }
  assert (∀ r k, (len ≤ r)%nat → (k < V)%nat → M r k ≤ Z.max 0 (S - 1)) as Hpad.
  { apply (pad_bound t sv g read Hsorted Hl Hpm Hpi Hpd S HS0).
    intros r k Hr Hk. rewrite lane_value_scalar by done. by apply HSge. }
  split.
  - apply Z.le_antisymm.
    + apply running_max_le; [done |].
      intros c Hin. apply lane_reference_elem in Hin as (_ & Hk & ->).
      destruct (decide (c.1.1 < len)%nat) as [Hr | Hr].
      * rewrite lane_value_scalar by done. by apply HSge.
      * etrans; [apply Hpad; (done || lia) |]. lia.
    + destruct (decide (0 < S)) as [Hpos | Hz];
        [| pose proof (running_max_nonneg h); lia].
      destruct (HSat Hpos) as (r & k & Hr & Hk & <-).
      rewrite <- lane_value_scalar by done.
      apply (running_max_ge h (r, k, M r k)).
      unfold h, lane_reference. apply list_elem_of_fmap. exists (r, k).
      split; [done |]. apply scan_order_mem; [lia | done].
  - intros Hpos c Hin Hc0.
    apply lane_reference_elem in Hin as (_ & Hk & Ec).
    destruct (decide (c.1.1 < len)%nat) as [Hr | Hr].
    + split; [done |]. split; [done |].
      rewrite <- lane_value_scalar by done. by rewrite <- Ec.
    + pose proof (Hpad c.1.1 c.1.2 ltac:(lia) Hk). lia.
Qed.

End Vector_vs_Scalar.

Lemma batchLength_covers readSet (n pos : nat) :
  (0 < n)%nat → (pos < length readSet)%nat →
  let q := batchLength readSet (pos / n * n) in
  (String.length (read_of_slot readSet pos) ≤ q / blockHeight * blockHeight)%nat.
Proof.
  intros Hn Hpos q. unfold q, batchLength. rewrite round_up_blocks.
  etrans; [apply round_up_ge |]. apply round_up_mono.
  apply read_of_slot_mono; [| done].
  pose proof (Nat.div_mod_eq pos n). lia.
Qed.

Lemma forward_scalar t sc g readSet stale out pos :
  topo_sorted g → Z.of_nat (numVertices g) < 2 ^ 31 →
  DUMMY ∉ vertex_label g →
  0 ≤ score_match sc →
  1 ≤ score_mismatch sc ≤ 2 ^ (lane_bits t - 1) →
  1 ≤ score_ins sc ≤ 2 ^ (lane_bits t - 1) →
  1 ≤ score_del sc ≤ 2 ^ (lane_bits t - 1) →
  (∀ b, buffers_shaped g (stale b).1 (stale b).2) →
  length out = length readSet → (pos < length readSet)%nat →
  let read := read_of_slot readSet pos in
  Z.of_nat (numVertices g `min` String.length read) * score_match sc
  < 2 ^ (lane_bits t - 1) →
  let res := alignToDAGLocal_Phase1_vectorized_wrapper t (as_scores sc) g
               readSet stale out !!! (sortedReadOrder readSet !!! pos) in
  let S := score (alignToDAGLocal_Phase1_Score sc g read best_init) in
  v_score res = S
  ∧ (0 < S → Z.of_nat (String.length read) ≤ 2 ^ (lane_bits t - 1) →
     ∃ r v, qryRowEnd res = Z.of_nat r ∧ refColumnEnd res = Z.of_nat v
            ∧ (r < String.length read)%nat ∧ (v < numVertices g)%nat
            ∧ cell sc g read best_init r v = S).
Proof.
  intros Hsorted HV Hlabel Hm Hmm Hins Hdel Hshape Hout Hpos read Hfit res S.
  pose proof (numSeqs_pos t) as Hn.
  destruct (forward_reported t (as_scores sc) g Hsorted HV readSet stale out
              pos Hshape Hout Hpos) as [Hscore Hend].
  fold res read in Hscore, Hend.
  set (q := batchLength readSet (pos / numSeqs t * numSeqs t)) in *.
  destruct (reference_max_scalar t sc g read Hsorted Hlabel Hm Hmm Hins Hdel
              Hfit q (batchLength_covers readSet (numSeqs t) pos Hn Hpos))
    as [Hmax Hcells].
  fold S in Hmax, Hcells.
  set (h := lane_reference t (as_scores sc) g (padded_char read) q) in *.
  split; [by rewrite Hscore |].
  intros Hpos0 Hlen.
  destruct (running_max_attained h ltac:(lia))
    as (h1 & r & v & h2 & Hdec & Hno).
  destruct (Hend h1 r v h2 Hdec Hno) as [Hrow Hcol].
  assert ((r, v, running_max h) ∈ h) as Hin.
  { remember (running_max h) as m. rewrite Hdec.
    apply elem_of_app. right. by left. }
  destruct (Hcells Hpos0 (r, v, running_max h) Hin Hmax) as (Hr & Hv & Hcell).
  simpl in Hr, Hv, Hcell.
  exists r, v. split; [| split; [| done]].
  - rewrite Hrow. apply wrap_small; [apply lane_bits_pos | lia].
  - rewrite Hcol. apply wrap_small; [done | lia].
Qed.

(** X17.  Where the scores fit the lanes, the forward vector pass finds
    the score of the scalar Phase 1.  On a topologically sorted graph
    (vertex ids fit [int32_t]) without the padding character as a label,
    for constants match >= 0 and mismatch, ins, del >= 1 that the scalar
    code subtracts and that are given to the vector kernel negated, and
    with min(|V|, |read|) * match below the largest value of a lane: the
    score the wrapper reports for a read is the score the scalar kernel
    finds for it, whichever batch the read is in. *)
Theorem vector_score_equals_scalar t sc g readSet stale out rid :
  topo_sorted g → Z.of_nat (numVertices g) < 2 ^ 31 →
  DUMMY ∉ vertex_label g →
  0 ≤ score_match sc →
  1 ≤ score_mismatch sc ≤ 2 ^ (lane_bits t - 1) →
  1 ≤ score_ins sc ≤ 2 ^ (lane_bits t - 1) →
  1 ≤ score_del sc ≤ 2 ^ (lane_bits t - 1) →
  (∀ b, buffers_shaped g (stale b).1 (stale b).2) →
  length out = length readSet → (rid < length readSet)%nat →
  Z.of_nat (numVertices g `min` String.length (readSet !!! rid))
  * score_match sc < 2 ^ (lane_bits t - 1) →
  v_score (alignToDAGLocal_Phase1_vectorized_wrapper t (as_scores sc) g
             readSet stale out !!! rid)
  = score (alignToDAGLocal_Phase1_Score sc g (readSet !!! rid) best_init).
Proof.
  intros Hsorted HV Hlabel Hm Hmm Hins Hdel Hshape Hout Hrid Hfit.
  destruct (sortedReadOrder_find readSet rid Hrid) as (pos & Hpos & Hfind).
  pose proof (forward_scalar t sc g readSet stale out pos Hsorted HV Hlabel
                Hm Hmm Hins Hdel Hshape Hout Hpos) as Hfs.
  unfold read_of_slot in Hfs. rewrite Hfind in Hfs.
  by destruct (Hfs Hfit).
Qed.

Lemma vector_score_equals_scalar_witness :
  let g := chain_graph "ACGTA" in
  let readSet := ["CGT"; "ACGTAACGTAACGTAACG"]%string in
  topo_sorted g ∧ (DUMMY ∉ vertex_label g)
  ∧ v_score (alignToDAGLocal_Phase1_vectorized_wrapper Int32
               (as_scores unit_costs) g readSet (fresh_buffers Int32 g)
               (output_init 2) !!! 0%nat)
    = score (alignToDAGLocal_Phase1_Score unit_costs g (readSet !!! 0%nat)
               best_init).
Proof.
  intros g readSet.
  assert (DUMMY ∉ vertex_label g) as Hlabel.
  { intros Hin. apply list_elem_of_In in Hin. vm_compute in Hin.
    intuition discriminate. }
  split; [exact example_chain_sorted |]. split; [exact Hlabel |].
  apply (vector_score_equals_scalar Int32 unit_costs g readSet
           (fresh_buffers Int32 g) (output_init 2) 0 example_chain_sorted);
    try (intros b; apply fresh_buffers_shaped); try exact Hlabel;
    by_computation.
Defined.

(** X18.  Under the same conditions, if the score is positive and the
    read has no more rows than the largest value of a lane, the end point
    the wrapper reports is a cell of the matrix of the scalar kernel, in
    a row of the read (never in the padding), and that cell holds the
    score. *)
Theorem vector_endpoint_holds_score t sc g readSet stale out rid :
  topo_sorted g → Z.of_nat (numVertices g) < 2 ^ 31 →
  DUMMY ∉ vertex_label g →
  0 ≤ score_match sc →
  1 ≤ score_mismatch sc ≤ 2 ^ (lane_bits t - 1) →
  1 ≤ score_ins sc ≤ 2 ^ (lane_bits t - 1) →
  1 ≤ score_del sc ≤ 2 ^ (lane_bits t - 1) →
  (∀ b, buffers_shaped g (stale b).1 (stale b).2) →
  length out = length readSet → (rid < length readSet)%nat →
  Z.of_nat (numVertices g `min` String.length (readSet !!! rid))
  * score_match sc < 2 ^ (lane_bits t - 1) →
  Z.of_nat (String.length (readSet !!! rid)) ≤ 2 ^ (lane_bits t - 1) →
  let res := alignToDAGLocal_Phase1_vectorized_wrapper t (as_scores sc) g
               readSet stale out !!! rid in
  0 < v_score res →
  ∃ r v, qryRowEnd res = Z.of_nat r ∧ refColumnEnd res = Z.of_nat v
         ∧ (r < String.length (readSet !!! rid))%nat
         ∧ (v < numVertices g)%nat
         ∧ cell sc g (readSet !!! rid) best_init r v = v_score res.
Proof.
  intros Hsorted HV Hlabel Hm Hmm Hins Hdel Hshape Hout Hrid Hfit Hlen res.
  destruct (sortedReadOrder_find readSet rid Hrid) as (pos & Hpos & Hfind).
  pose proof (forward_scalar t sc g readSet stale out pos Hsorted HV Hlabel
                Hm Hmm Hins Hdel Hshape Hout Hpos) as Hfs.
  unfold read_of_slot in Hfs. rewrite Hfind in Hfs.
  destruct (Hfs Hfit) as [Hscore Hend]. fold res in Hscore, Hend.
  intros Hpos0. rewrite Hscore in *. by apply Hend.
Qed.

Lemma vector_endpoint_holds_score_witness :
  let g := chain_graph "ACGTA" in
  let readSet := ["CGT"; "ACGTAACGTAACGTAACG"]%string in
  let res := alignToDAGLocal_Phase1_vectorized_wrapper Int32
               (as_scores unit_costs) g readSet (fresh_buffers Int32 g)
               (output_init 2) !!! 0%nat in
  topo_sorted g ∧ (DUMMY ∉ vertex_label g) ∧ 0 < v_score res
  ∧ ∃ r v, qryRowEnd res = Z.of_nat r ∧ refColumnEnd res = Z.of_nat v
           ∧ (r < String.length (readSet !!! 0%nat))%nat
           ∧ (v < numVertices g)%nat
           ∧ cell unit_costs g (readSet !!! 0%nat) best_init r v = v_score res.
Proof.
  intros g readSet res.
  assert (DUMMY ∉ vertex_label g) as Hlabel.
  { intros Hin. apply list_elem_of_In in Hin. vm_compute in Hin.
    intuition discriminate. }
  assert (0 < v_score res) as Hpos by (vm_compute; reflexivity).
  split; [exact example_chain_sorted |]. split; [exact Hlabel |].
  split; [exact Hpos |].
  apply (vector_endpoint_holds_score Int32 unit_costs g readSet
           (fresh_buffers Int32 g) (output_init 2) 0 example_chain_sorted);
    try (intros b; apply fresh_buffers_shaped); try exact Hlabel;
    try exact Hpos; by_computation.
Defined.
